(** * Selection: the selection and transformation state of the plate editor

    A shallow embedding of [src/slic3r/GUI/Selection.cpp].  The selection
    keeps a set of indices into the scene's list of renderable volumes, a
    cached classification of that set, and applies rigid transformations
    to the selected volumes.  Every definition below follows the member
    function of the same name; the objects the class borrows (the volume
    list, the document model, the application services) are fields of the
    threaded state. *)

From Stdlib Require Import ZArith Floats String.
From stdpp Require Import base option list gmap sets sorting.

Local Open Scope Z_scope.

(** ** Machine integers *)

(** [unsigned int] arithmetic wraps modulo [2^32]. *)
Definition u32 (z : Z) : Z := z mod 2 ^ 32.

(** The cast [(int)u] of an [unsigned int]. *)
Definition int_cast (u : Z) : Z :=
  let w := u32 u in if w <? 2 ^ 31 then w else w - 2 ^ 32.

(** The implicit conversion of an [int] argument to an [unsigned int]
    parameter. *)
Definition unsigned_cast (i : Z) : Z := u32 i.

(** ** Vectors and boxes of doubles *)

Record Vec3d := mkVec3d { vx : float; vy : float; vz : float }.

Definition Vec3d_Zero : Vec3d := mkVec3d 0 0 0.
Definition Vec3d_Ones : Vec3d := mkVec3d 1 1 1.

Definition vec_add (a b : Vec3d) : Vec3d :=
  mkVec3d (vx a + vx b) (vy a + vy b) (vz a + vz b).
Definition vec_sub (a b : Vec3d) : Vec3d :=
  mkVec3d (vx a - vx b) (vy a - vy b) (vz a - vz b).
Definition vec_cwiseAbs (a : Vec3d) : Vec3d :=
  mkVec3d (abs (vx a)) (abs (vy a)) (abs (vz a)).

Inductive Axis := X | Y | Z_axis.

Definition vec_get (a : Vec3d) (ax : Axis) : float :=
  match ax with X => vx a | Y => vy a | Z_axis => vz a end.
Definition vec_set (a : Vec3d) (ax : Axis) (d : float) : Vec3d :=
  match ax with
  | X => mkVec3d d (vy a) (vz a)
  | Y => mkVec3d (vx a) d (vz a)
  | Z_axis => mkVec3d (vx a) (vy a) d
  end.

(** [BoundingBoxf3]: a default-constructed box is undefined with both
    corners at the origin. *)
Record BoundingBoxf3 := mkBB { bb_defined : bool; bb_min : Vec3d; bb_max : Vec3d }.

Definition BoundingBoxf3_default : BoundingBoxf3 := mkBB false Vec3d_Zero Vec3d_Zero.

(** ** The scene: renderable volumes and the document model *)

(** [Geometry::Transformation]: offset, Euler rotation, scaling factor and
    mirror; its matrices are functions of these four vectors. *)
Record Transformation := mkTransformation {
  t_offset : Vec3d;
  t_rotation : Vec3d;
  t_scaling_factor : Vec3d;
  t_mirror : Vec3d
}.

Definition Transformation_default : Transformation :=
  mkTransformation Vec3d_Zero Vec3d_Zero Vec3d_Ones Vec3d_Ones.

Record CompositeID := mkCompositeID { object_id : Z; volume_id : Z; instance_id : Z }.

(** [GLVolume], by the members the selection reads and writes. *)
Record GLVolume := mkGLVolume {
  composite_id : CompositeID;
  geometry_id : N * N;
  selected : bool;
  disabled : bool;
  is_modifier : bool;
  is_wipe_tower : bool;
  instance_transformation : Transformation;
  volume_transformation : Transformation;
  convex_hull : list Vec3d
}.

Definition object_idx (v : GLVolume) : Z := object_id (composite_id v).
Definition volume_idx (v : GLVolume) : Z := volume_id (composite_id v).
Definition instance_idx (v : GLVolume) : Z := instance_id (composite_id v).

Definition set_selected (b : bool) (v : GLVolume) : GLVolume :=
  mkGLVolume (composite_id v) (geometry_id v) b (disabled v) (is_modifier v)
    (is_wipe_tower v) (instance_transformation v) (volume_transformation v)
    (convex_hull v).
Definition set_disabled (b : bool) (v : GLVolume) : GLVolume :=
  mkGLVolume (composite_id v) (geometry_id v) (selected v) b (is_modifier v)
    (is_wipe_tower v) (instance_transformation v) (volume_transformation v)
    (convex_hull v).
Definition set_instance_transformation (t : Transformation) (v : GLVolume) : GLVolume :=
  mkGLVolume (composite_id v) (geometry_id v) (selected v) (disabled v)
    (is_modifier v) (is_wipe_tower v) t (volume_transformation v) (convex_hull v).
Definition set_volume_transformation (t : Transformation) (v : GLVolume) : GLVolume :=
  mkGLVolume (composite_id v) (geometry_id v) (selected v) (disabled v)
    (is_modifier v) (is_wipe_tower v) (instance_transformation v) t (convex_hull v).

Record ModelVolume := mkModelVolume { mv_id : N }.
Record ModelInstance := mkModelInstance { mi_id : N }.
Record ModelObject := mkModelObject {
  volumes : list ModelVolume;
  instances : list ModelInstance
}.
Record Model := mkModel { objects : list ModelObject }.

(** ** Selection state *)

Inductive EMode := Volume | Instance.

Inductive EType :=
| Invalid | Empty | WipeTower | SingleModifier | MultipleModifier
| SingleVolume | MultipleVolume | SingleFullObject | MultipleFullObject
| SingleFullInstance | MultipleFullInstance | Mixed.

#[global] Instance EMode_eq_dec : EqDecision EMode.
Proof. solve_decision. Defined.
#[global] Instance EType_eq_dec : EqDecision EType.
Proof. solve_decision. Defined.

(** [VolumeCache]: the four vectors of the volume and instance
    transformation at drag start.  The cached matrices are rebuilt from
    them where the engine reads them. *)
Record VolumeCache := mkVolumeCache {
  vc_volume : Transformation;
  vc_instance : Transformation
}.

Definition VolumeCache_default : VolumeCache :=
  mkVolumeCache Transformation_default Transformation_default.

Record Cache := mkCache {
  volumes_data : gmap nat VolumeCache;
  content : gmap Z (gset Z);
  dragging_center : Vec3d
}.

(** Modelled from the spec: the application services reached through
    [wxGetApp()], which are not part of the source file.  The undo service
    records, for each request, its label, whether snapshots were suppressed
    at that moment, and the selection (mode and index set) it was asked to
    checkpoint; the manipulation panel and the canvas record the calls
    they receive. *)
Record SnapshotCall := mkSnapshotCall {
  sc_label : string;
  sc_suppressed : bool;
  sc_mode : EMode;
  sc_list : gset nat
}.

Inductive UiCall := ResetCache | SidebarFocusEvent.

Record App := mkApp {
  snapshot_calls : list SnapshotCall;
  prevent_snapshots : nat;
  obj_manipul_present : bool;
  ui_calls : list UiCall
}.

Record Selection := mkSelection {
  m_volumes : option (list GLVolume);
  m_model : option Model;
  m_mode : EMode;
  m_type : EType;
  m_valid : bool;
  m_list : gset nat;
  m_cache : Cache;
  m_bounding_box : BoundingBoxf3;
  m_bounding_box_dirty : bool;
  m_unscaled_instance_bounding_box_dirty : bool;
  m_scaled_instance_bounding_box_dirty : bool;
  app : App
}.

Definition with_volumes (f : list GLVolume → list GLVolume) (s : Selection) : Selection :=
  mkSelection (f <$> m_volumes s) (m_model s) (m_mode s) (m_type s) (m_valid s)
    (m_list s) (m_cache s) (m_bounding_box s) (m_bounding_box_dirty s)
    (m_unscaled_instance_bounding_box_dirty s)
    (m_scaled_instance_bounding_box_dirty s) (app s).
Definition set_m_volumes (p : option (list GLVolume)) (s : Selection) : Selection :=
  mkSelection p (m_model s) (m_mode s) (m_type s) (m_valid s)
    (m_list s) (m_cache s) (m_bounding_box s) (m_bounding_box_dirty s)
    (m_unscaled_instance_bounding_box_dirty s)
    (m_scaled_instance_bounding_box_dirty s) (app s).
Definition set_m_model (p : option Model) (s : Selection) : Selection :=
  mkSelection (m_volumes s) p (m_mode s) (m_type s) (m_valid s)
    (m_list s) (m_cache s) (m_bounding_box s) (m_bounding_box_dirty s)
    (m_unscaled_instance_bounding_box_dirty s)
    (m_scaled_instance_bounding_box_dirty s) (app s).
Definition set_m_mode (m : EMode) (s : Selection) : Selection :=
  mkSelection (m_volumes s) (m_model s) m (m_type s) (m_valid s)
    (m_list s) (m_cache s) (m_bounding_box s) (m_bounding_box_dirty s)
    (m_unscaled_instance_bounding_box_dirty s)
    (m_scaled_instance_bounding_box_dirty s) (app s).
Definition set_m_type (t : EType) (s : Selection) : Selection :=
  mkSelection (m_volumes s) (m_model s) (m_mode s) t (m_valid s)
    (m_list s) (m_cache s) (m_bounding_box s) (m_bounding_box_dirty s)
    (m_unscaled_instance_bounding_box_dirty s)
    (m_scaled_instance_bounding_box_dirty s) (app s).
Definition set_m_valid (b : bool) (s : Selection) : Selection :=
  mkSelection (m_volumes s) (m_model s) (m_mode s) (m_type s) b
    (m_list s) (m_cache s) (m_bounding_box s) (m_bounding_box_dirty s)
    (m_unscaled_instance_bounding_box_dirty s)
    (m_scaled_instance_bounding_box_dirty s) (app s).
Definition set_m_list (l : gset nat) (s : Selection) : Selection :=
  mkSelection (m_volumes s) (m_model s) (m_mode s) (m_type s) (m_valid s)
    l (m_cache s) (m_bounding_box s) (m_bounding_box_dirty s)
    (m_unscaled_instance_bounding_box_dirty s)
    (m_scaled_instance_bounding_box_dirty s) (app s).
Definition set_m_cache (c : Cache) (s : Selection) : Selection :=
  mkSelection (m_volumes s) (m_model s) (m_mode s) (m_type s) (m_valid s)
    (m_list s) c (m_bounding_box s) (m_bounding_box_dirty s)
    (m_unscaled_instance_bounding_box_dirty s)
    (m_scaled_instance_bounding_box_dirty s) (app s).
Definition set_m_bounding_box (b : BoundingBoxf3) (dirty : bool) (s : Selection) : Selection :=
  mkSelection (m_volumes s) (m_model s) (m_mode s) (m_type s) (m_valid s)
    (m_list s) (m_cache s) b dirty
    (m_unscaled_instance_bounding_box_dirty s)
    (m_scaled_instance_bounding_box_dirty s) (app s).
Definition set_app (a : App) (s : Selection) : Selection :=
  mkSelection (m_volumes s) (m_model s) (m_mode s) (m_type s) (m_valid s)
    (m_list s) (m_cache s) (m_bounding_box s) (m_bounding_box_dirty s)
    (m_unscaled_instance_bounding_box_dirty s)
    (m_scaled_instance_bounding_box_dirty s) a.

(** [*m_volumes] and [m_model->objects].  The mutators and the
    transformations read them behind an [m_valid] test; where a pointer is
    null the model reads an empty list.  [instances_changed] and
    [volumes_changed] only assert validity before they read the volume
    list: there a null [m_volumes] is a case of its own. *)
Definition the_volumes (s : Selection) : list GLVolume := default [] (m_volumes s).
Definition the_objects (s : Selection) : list ModelObject :=
  from_option objects [] (m_model s).

(** The iteration order of [m_list], a [std::set<unsigned int>]: ascending. *)
Definition m_list_order (s : Selection) : list nat :=
  merge_sort Nat.le (elements (m_list s)).

(** [Selection::Selection()]. *)
Definition Selection_new (a : App) : Selection :=
  mkSelection None None Instance Empty false ∅
    (mkCache ∅ ∅ Vec3d_Zero) BoundingBoxf3_default true true true a.

Definition update_valid (s : Selection) : Selection :=
  set_m_valid (bool_decide (is_Some (m_volumes s)) && bool_decide (is_Some (m_model s))) s.

Definition set_volumes (p : option (list GLVolume)) (s : Selection) : Selection :=
  update_valid (set_m_volumes p s).

Definition set_model (p : option Model) (s : Selection) : Selection :=
  update_valid (set_m_model p s).

(** Modelled from the spec: the inline members of [Selection.hpp], which
    is not among the sources.  The predicates on the kind of selection read
    the cached Selection Type; [contains_volume] looks the index up in the
    index set; [set_bounding_boxes_dirty] raises the three dirty flags. *)
Definition is_empty (s : Selection) : bool := bool_decide (m_type s = Empty).
Definition is_wipe_tower_selected (s : Selection) : bool := bool_decide (m_type s = WipeTower).
Definition is_single_modifier (s : Selection) : bool := bool_decide (m_type s = SingleModifier).
Definition is_multiple_modifier (s : Selection) : bool := bool_decide (m_type s = MultipleModifier).
Definition is_any_modifier (s : Selection) : bool :=
  is_single_modifier s || is_multiple_modifier s.
Definition is_single_volume (s : Selection) : bool := bool_decide (m_type s = SingleVolume).
Definition contains_volume (i : nat) (s : Selection) : bool := bool_decide (i ∈ m_list s).

Definition set_bounding_boxes_dirty (s : Selection) : Selection :=
  mkSelection (m_volumes s) (m_model s) (m_mode s) (m_type s) (m_valid s)
    (m_list s) (m_cache s) (m_bounding_box s) true true true (app s).

(** Modelled from the spec: [Plater::take_snapshot] and the
    [Plater::SuppressSnapshots] guard.  A request made while the guard is
    alive is marked suppressed. *)
Definition take_snapshot (label : string) (s : Selection) : Selection :=
  set_app
    (mkApp
       (snapshot_calls (app s) ++
          [mkSnapshotCall label (bool_decide (prevent_snapshots (app s) ≠ 0%nat))
             (m_mode s) (m_list s)])
       (prevent_snapshots (app s)) (obj_manipul_present (app s)) (ui_calls (app s)))
    s.

Definition suppress_snapshots (s : Selection) : Selection :=
  set_app
    (mkApp (snapshot_calls (app s)) (S (prevent_snapshots (app s)))
       (obj_manipul_present (app s)) (ui_calls (app s)))
    s.

Definition allow_snapshots (s : Selection) : Selection :=
  set_app
    (mkApp (snapshot_calls (app s)) (Nat.pred (prevent_snapshots (app s)))
       (obj_manipul_present (app s)) (ui_calls (app s)))
    s.

Definition ui_call (c : UiCall) (s : Selection) : Selection :=
  set_app
    (mkApp (snapshot_calls (app s)) (prevent_snapshots (app s))
       (obj_manipul_present (app s)) (ui_calls (app s) ++ [c]))
    s.

(** ** Sizes, lookups and searches *)

(** [(unsigned int)v.size()]. *)
Definition usize {A} (l : list A) : nat := Z.to_nat (u32 (Z.of_nat (length l))).

(** [m_model->objects[idx]].  The source indexes without a range check; a
    read outside the vector is undefined there and yields an object with
    no volumes and no instances here. *)
Definition objects_at (objs : list ModelObject) (idx : Z) : ModelObject :=
  if decide (0 ≤ idx) then default (mkModelObject [] []) (objs !! Z.to_nat idx)
  else mkModelObject [] [].

(** The number of elements of [l] satisfying [P], as the counting loops of
    the source compute it in an [unsigned int]. *)
Fixpoint count_where {A} (P : A → bool) (l : list A) : Z :=
  match l with
  | [] => 0
  | x :: l' => (if P x then 1 else 0) + count_where P l'
  end.

(** The indices [i < (unsigned int)vols.size()], ascending, whose volume
    satisfies [P]: the loops of [get_volume_idxs_from_*]. *)
Definition volume_idxs_where (P : GLVolume → bool) (vols : list GLVolume) : list nat :=
  List.filter (λ i, match vols !! i with Some v => P v | None => false end)
    (seq 0 (usize vols)).

(** [std::lower_bound] over a random-access range, by bisection: [len] is
    the length of the range still to search, [first] its start.  The
    recursion is on [fuel], which [lower_bound] sets to the length of the
    list, an upper bound of the number of halvings. *)
Fixpoint lower_bound_loop {A} (lt : A → A → bool) (l : list A) (val : A)
    (fuel first len : nat) : nat :=
  match fuel with
  | O => first
  | S fuel' =>
      if (len =? 0)%nat then first
      else
        let half := (len / 2)%nat in
        let middle := (first + half)%nat in
        match l !! middle with
        | Some x =>
            if lt x val
            then lower_bound_loop lt l val fuel' (middle + 1)%nat (len - half - 1)%nat
            else lower_bound_loop lt l val fuel' first half
        | None => first
        end
  end.

Definition lower_bound {A} (lt : A → A → bool) (l : list A) (val : A) : nat :=
  lower_bound_loop lt l val (length l) 0%nat (length l).

(** [std::binary_search]: the lower bound is inside the range and the
    value is not less than the element there. *)
Definition binary_search {A} (lt : A → A → bool) (l : list A) (val : A) : bool :=
  match l !! lower_bound lt l val with
  | Some x => negb (lt val x)
  | None => false
  end.

(** [operator<] of [std::pair<size_t, size_t>]. *)
Definition pair_lt (a b : N * N) : bool :=
  (a.1 <? b.1)%N || (negb (b.1 <? a.1)%N && (a.2 <? b.2)%N).

(** ** Queries on the index set *)

Definition contains_all_volumes (idxs : list nat) (s : Selection) : bool :=
  forallb (λ i, bool_decide (i ∈ m_list s)) idxs.

Definition contains_any_volume (idxs : list nat) (s : Selection) : bool :=
  existsb (λ i, bool_decide (i ∈ m_list s)) idxs.

(** [matches]: every index is selected, and as many indices were counted
    as the set holds. *)
Definition matches (idxs : list nat) (s : Selection) : bool :=
  forallb (λ i, bool_decide (i ∈ m_list s)) idxs
  && (u32 (Z.of_nat (length idxs)) =? u32 (Z.of_nat (size (m_list s)))).

Definition get_object_idx (s : Selection) : Z :=
  match map_to_list (content (m_cache s)) with
  | [(obj, _)] => obj
  | _ => -1
  end.

Definition get_instance_idx (s : Selection) : Z :=
  match map_to_list (content (m_cache s)) with
  | [(_, idxs)] => match elements idxs with [i] => i | _ => -1 end
  | _ => -1
  end.

Definition get_volume_idxs_from_object (object_idx' : Z) (s : Selection) : list nat :=
  volume_idxs_where (λ v, object_idx v =? int_cast object_idx') (the_volumes s).

Definition get_volume_idxs_from_instance (object_idx' instance_idx' : Z) (s : Selection)
  : list nat :=
  volume_idxs_where
    (λ v, (object_idx v =? int_cast object_idx') && (instance_idx v =? int_cast instance_idx'))
    (the_volumes s).

(** The third parameter is received as an [unsigned int] and cast back. *)
Definition get_volume_idxs_from_volume (object_idx' instance_idx' volume_idx' : Z)
    (s : Selection) : list nat :=
  volume_idxs_where
    (λ v, (object_idx v =? int_cast object_idx') && (volume_idx v =? int_cast volume_idx')
          && (negb (int_cast instance_idx' =? -1) && (instance_idx v =? int_cast instance_idx')))
    (the_volumes s).

(** ** The classifier *)

(** The first loop of [update_type]: the Content Map, from object index to
    the instance indices present in the selection. *)
Definition update_type_content (s : Selection) : gmap Z (gset Z) :=
  foldl
    (λ c i,
       match the_volumes s !! i with
       | Some volume =>
           let c1 :=
             match c !! object_idx volume with
             | None => <[object_idx volume := ∅]> c
             | Some _ => c
             end in
           alter (λ idxs, {[instance_idx volume]} ∪ idxs) (object_idx volume) c1
       | None => c
       end)
    ∅ (m_list_order s).

(** The classification cascade of [update_type], read on a state whose
    Content Map is up to date: the Selection Type, the mode after the
    "ensures the correct mode is selected" assignments, and the local
    [requires_disable]. *)
Definition update_type_classify (s : Selection) : EType * EMode * bool :=
  let vols := the_volumes s in
  let list_size := u32 (Z.of_nat (size (m_list s))) in
  if negb (m_valid s) then (Invalid, m_mode s, false)
  else if bool_decide (m_list s = ∅) then (Empty, m_mode s, false)
  else if bool_decide (size (m_list s) = 1%nat) then
    match vols !! default 0%nat (head (m_list_order s)) with
    | Some first =>
        if is_wipe_tower first then (WipeTower, m_mode s, false)
        else if is_modifier first then (SingleModifier, m_mode s, true)
        else
          let model_object := objects_at (the_objects s) (object_idx first) in
          let volumes_count := Z.of_nat (usize (volumes model_object)) in
          let instances_count := Z.of_nat (usize (instances model_object)) in
          if u32 (volumes_count * instances_count) =? 1
          then (SingleFullObject, Instance, false)
          else if volumes_count =? 1
          then (SingleFullInstance, Instance, false)
          else (SingleVolume, m_mode s, true)
    | None => (Mixed, m_mode s, false)
    end
  else
    let sla_volumes_count :=
      u32 (count_where
             (λ i, match vols !! i with Some v => volume_idx v <? 0 | None => false end)
             (m_list_order s)) in
    match map_to_list (content (m_cache s)) with
    | [(obj, insts)] =>
        let model_object := objects_at (the_objects s) obj in
        let model_volumes_count := Z.of_nat (usize (volumes model_object)) in
        let instances_count := Z.of_nat (usize (instances model_object)) in
        let selected_instances_count := u32 (Z.of_nat (size insts)) in
        if u32 (model_volumes_count * instances_count + sla_volumes_count) =? list_size
        then (SingleFullObject, Instance, false)
        else if selected_instances_count =? 1 then
          if u32 (model_volumes_count + sla_volumes_count) =? list_size
          then (SingleFullInstance, Instance, false)
          else
            let modifiers_count :=
              u32 (count_where
                     (λ i, match vols !! i with Some v => is_modifier v | None => false end)
                     (m_list_order s)) in
            (if modifiers_count =? 0 then MultipleVolume
             else if modifiers_count =? list_size then MultipleModifier
             else Mixed,
             m_mode s, true)
        else if (1 <? selected_instances_count)
                && (u32 (selected_instances_count * model_volumes_count + sla_volumes_count)
                    =? list_size)
        then (MultipleFullInstance, Instance, false)
        else (Mixed, m_mode s, false)
    | entries =>
        let sels_cntr :=
          foldl
            (λ cntr (e : Z * gset Z),
               let model_object := objects_at (the_objects s) e.1 in
               u32 (cntr + u32 (Z.of_nat (usize (volumes model_object))
                                * Z.of_nat (usize (instances model_object)))))
            0 entries in
        if u32 (sels_cntr + sla_volumes_count) =? list_size
        then (MultipleFullObject, Instance, false)
        else (Mixed, m_mode s, false)
    end.

Definition update_type (s : Selection) : Selection :=
  let s1 :=
    set_m_cache
      (mkCache (volumes_data (m_cache s)) (update_type_content s)
         (dragging_center (m_cache s)))
      s in
  let '(type, mode, requires_disable) := update_type_classify s1 in
  let s2 := set_m_mode mode (set_m_type type s1) in
  let object_idx' := get_object_idx s2 in
  let instance_idx' := get_instance_idx s2 in
  with_volumes
    (fmap (λ v,
       set_disabled
         (if requires_disable
          then negb (object_idx v =? object_idx') || negb (instance_idx v =? instance_idx')
          else false)
         v))
    s2.

(** ** Primitive membership changes *)

(** [do_add_volume]: every caller has checked the index against the size
    of the volume list. *)
Definition do_add_volume (i : nat) (s : Selection) : Selection :=
  with_volumes (alter (set_selected true) i) (set_m_list ({[i]} ∪ m_list s) s).

Definition do_add_volumes (idxs : list nat) (s : Selection) : Selection :=
  foldl
    (λ s i, if (i <? usize (the_volumes s))%nat then do_add_volume i s else s)
    s idxs.

Definition do_remove_volume (i : nat) (s : Selection) : Selection :=
  if decide (i ∈ m_list s)
  then with_volumes (alter (set_selected false) i) (set_m_list (m_list s ∖ {[i]}) s)
  else s.

(** The loop shared by [do_remove_instance], [do_remove_object] and
    [remove_volume]: every index of the volume list, ascending, whose
    volume satisfies [P] is removed. *)
Definition do_remove_where (P : GLVolume → bool) (s : Selection) : Selection :=
  foldl
    (λ s i,
       match the_volumes s !! i with
       | Some v => if P v then do_remove_volume i s else s
       | None => s
       end)
    s (seq 0 (usize (the_volumes s))).

Definition do_remove_instance (object_idx' instance_idx' : Z) (s : Selection) : Selection :=
  do_remove_where
    (λ v, (object_idx v =? int_cast object_idx') && (instance_idx v =? int_cast instance_idx'))
    s.

Definition do_remove_object (object_idx' : Z) (s : Selection) : Selection :=
  do_remove_where (λ v, object_idx v =? int_cast object_idx') s.

(** ** Mutators *)

Definition clear (s : Selection) : Selection :=
  if negb (m_valid s) then s
  else if bool_decide (m_list s = ∅) then s
  else
    let s1 :=
      foldl (λ s i, with_volumes (alter (set_selected false) i) s) s (m_list_order s) in
    let s2 := set_m_list ∅ s1 in
    let s3 := set_bounding_boxes_dirty (update_type s2) in
    if negb (obj_manipul_present (app s3)) then s3
    else ui_call SidebarFocusEvent (ui_call ResetCache s3).

Definition add_object (object_idx' : Z) (as_single_selection : bool) (s : Selection)
  : Selection :=
  if negb (m_valid s) then s
  else
    let volume_idxs := get_volume_idxs_from_object object_idx' s in
    if (negb as_single_selection && contains_all_volumes volume_idxs s)
       || (as_single_selection && matches volume_idxs s)
    then s
    else
      let s1 := take_snapshot "Selection-Add Object" s in
      let s2 := if as_single_selection then clear s1 else s1 in
      let s3 := set_m_mode Instance s2 in
      set_bounding_boxes_dirty (update_type (do_add_volumes volume_idxs s3)).

Definition remove_object (object_idx' : Z) (s : Selection) : Selection :=
  if negb (m_valid s) then s
  else
    let s1 := take_snapshot "Selection-Remove Object" s in
    set_bounding_boxes_dirty (update_type (do_remove_object object_idx' s1)).

Definition add_instance (object_idx' instance_idx' : Z) (as_single_selection : bool)
    (s : Selection) : Selection :=
  if negb (m_valid s) then s
  else
    let volume_idxs := get_volume_idxs_from_instance object_idx' instance_idx' s in
    if (negb as_single_selection && contains_all_volumes volume_idxs s)
       || (as_single_selection && matches volume_idxs s)
    then s
    else
      let s1 := take_snapshot "Selection-Add Instance" s in
      let s2 := if as_single_selection then clear s1 else s1 in
      let s3 := set_m_mode Instance s2 in
      set_bounding_boxes_dirty (update_type (do_add_volumes volume_idxs s3)).

Definition remove_instance (object_idx' instance_idx' : Z) (s : Selection) : Selection :=
  if negb (m_valid s) then s
  else
    let s1 := take_snapshot "Selection-Remove Instance" s in
    set_bounding_boxes_dirty (update_type (do_remove_instance object_idx' instance_idx' s1)).

Definition add_volume (object_idx' volume_idx' instance_idx' : Z)
    (as_single_selection : bool) (s : Selection) : Selection :=
  if negb (m_valid s) then s
  else
    let volume_idxs :=
      get_volume_idxs_from_volume object_idx' (unsigned_cast instance_idx') volume_idx' s in
    if (negb as_single_selection && contains_all_volumes volume_idxs s)
       || (as_single_selection && matches volume_idxs s)
    then s
    else
      let s1 := if as_single_selection then clear s else s in
      let s2 := set_m_mode Volume s1 in
      set_bounding_boxes_dirty (update_type (do_add_volumes volume_idxs s2)).

Definition remove_volume (object_idx' volume_idx' : Z) (s : Selection) : Selection :=
  if negb (m_valid s) then s
  else
    set_bounding_boxes_dirty
      (update_type
         (do_remove_where
            (λ v, (object_idx v =? int_cast object_idx') && (volume_idx v =? int_cast volume_idx'))
            s)).

Definition add_volumes (mode : EMode) (volume_idxs : list nat) (as_single_selection : bool)
    (s : Selection) : Selection :=
  if negb (m_valid s) then s
  else if (negb as_single_selection && contains_all_volumes volume_idxs s)
          || (as_single_selection && matches volume_idxs s)
  then s
  else
    let s1 := if as_single_selection then clear s else s in
    let s2 := set_m_mode mode s1 in
    set_bounding_boxes_dirty (update_type (do_add_volumes volume_idxs s2)).

Definition remove_volumes (mode : EMode) (volume_idxs : list nat) (s : Selection)
  : Selection :=
  if negb (m_valid s) then s
  else
    let s1 := set_m_mode mode s in
    let s2 :=
      foldl
        (λ s i, if (i <? usize (the_volumes s))%nat then do_remove_volume i s else s)
        s1 volume_idxs in
    set_bounding_boxes_dirty (update_type s2).

Definition add (i : nat) (as_single_selection check_for_already_contained : bool)
    (s : Selection) : Selection :=
  if negb (m_valid s) || (usize (the_volumes s) <=? i)%nat then s
  else
    match the_volumes s !! i with
    | None => s
    | Some volume =>
        if is_wipe_tower_selected s && is_wipe_tower volume then s
        else
          let keep_instance_mode :=
            bool_decide (m_mode s = Instance) && negb as_single_selection in
          let already_contained := check_for_already_contained && contains_volume i s in
          let needs_reset :=
            (as_single_selection && negb already_contained)
            || is_wipe_tower volume
            || (is_wipe_tower_selected s && negb (is_wipe_tower volume))
            || (as_single_selection && negb (is_any_modifier s) && is_modifier volume)
            || (is_any_modifier s && negb (is_modifier volume)) in
          if negb already_contained || needs_reset then
            let s1 := take_snapshot "Selection-Add" s in
            let s2 := if needs_reset then clear s1 else s1 in
            let s3 :=
              if keep_instance_mode then s2
              else set_m_mode (if is_modifier volume then Volume else Instance) s2 in
            let s4 :=
              match m_mode s3 with
              | Volume =>
                  if (0 <=? volume_idx volume)
                     && (is_empty s3 || (instance_idx volume =? get_instance_idx s3))
                  then do_add_volume i s3
                  else s3
              | Instance =>
                  allow_snapshots
                    (add_instance (unsigned_cast (object_idx volume))
                       (unsigned_cast (instance_idx volume)) as_single_selection
                       (suppress_snapshots s3))
              end in
            set_bounding_boxes_dirty (update_type s4)
          else s
    end.

Definition remove (i : nat) (s : Selection) : Selection :=
  if negb (m_valid s) || (usize (the_volumes s) <=? i)%nat then s
  else if negb (contains_volume i s) then s
  else
    let s1 := take_snapshot "Selection-Remove" s in
    match the_volumes s1 !! i with
    | None => s1
    | Some volume =>
        let s2 :=
          match m_mode s1 with
          | Volume => do_remove_volume i s1
          | Instance =>
              do_remove_instance (unsigned_cast (object_idx volume))
                (unsigned_cast (instance_idx volume)) s1
          end in
        set_bounding_boxes_dirty (update_type s2)
    end.

Definition add_all (s : Selection) : Selection :=
  if negb (m_valid s) then s
  else
    let count :=
      u32 (count_where (λ v, negb (is_wipe_tower v))
             (take (usize (the_volumes s)) (the_volumes s))) in
    if u32 (Z.of_nat (size (m_list s))) =? count then s
    else
      let s1 := take_snapshot "Selection-Add All" s in
      let s2 := clear (set_m_mode Instance s1) in
      let s3 :=
        foldl
          (λ s i,
             match the_volumes s !! i with
             | Some v => if negb (is_wipe_tower v) then do_add_volume i s else s
             | None => s
             end)
          s2 (seq 0 (usize (the_volumes s2))) in
      set_bounding_boxes_dirty (update_type s3).

Definition remove_all (s : Selection) : Selection :=
  if negb (m_valid s) then s
  else if is_empty s then s
  else clear (set_m_mode Instance (take_snapshot "Selection-Remove All" s)).

Definition set_deserialized (mode : EMode) (volumes_and_instances : list (N * N))
    (s : Selection) : Selection :=
  if negb (m_valid s) then s
  else
    let s1 := set_m_mode mode s in
    let s2 :=
      foldl (λ s i, with_volumes (alter (set_selected false) i) s) s1 (m_list_order s1) in
    let s3 := set_m_list ∅ s2 in
    let s4 :=
      foldl
        (λ s i,
           match the_volumes s !! i with
           | Some v =>
               if binary_search pair_lt volumes_and_instances (geometry_id v)
               then do_add_volume i s
               else s
           | None => s
           end)
        s3 (seq 0 (usize (the_volumes s3))) in
    set_bounding_boxes_dirty (update_type s4).

(** ** The geometry library and assertions *)

(** Modelled from the spec: [TransformationType] of
    [Selection.hpp], the descriptor of a transformation: world or local
    frame, relative or absolute, joint or independent pivot. *)
Record TransformationType := mkTransformationType {
  tt_world : bool;
  tt_relative : bool;
  tt_joint : bool
}.
Definition tt_local (t : TransformationType) : bool := negb (tt_world t).
Definition tt_absolute (t : TransformationType) : bool := negb (tt_relative t).
Definition tt_independent (t : TransformationType) : bool := negb (tt_joint t).

(** The operations of Eigen and of [Geometry.cpp], [BoundingBox.hpp] and
    [3DScene.cpp] that the transform engine calls; none of them is part of
    the source file, so the engine is stated over any implementation.
    A setter of [Geometry::Transformation] works axis by axis: [store_*]
    gives the value kept for an axis from the value held and the value
    requested. *)
Class Geometry := {
  Transform3d : Type;
  assemble_transform : Vec3d → Vec3d → Vec3d → Vec3d → Transform3d;
  get_matrix : Transformation → bool → bool → bool → bool → Transform3d;
  transform_mul : Transform3d → Transform3d → Transform3d;
  transform_inverse : Transform3d → Transform3d;
  transform_apply : Transform3d → Vec3d → Vec3d;
  transform_col_norms : Transform3d → Vec3d;
  transform_transpose_apply : Transform3d → Vec3d → Vec3d;
  extract_euler_angles : Transform3d → Vec3d;
  rotation_diff_z : Vec3d → Vec3d → float;
  rotation_xyz_diff_angle_axis : Vec3d → Vec3d → Vec3d * float;
  angle_axis_z : float → Vec3d → Vec3d;
  is_rotation_ninety_degrees : Vec3d → bool;
  vec_isApprox : Vec3d → Vec3d → bool;
  is_approx : float → float → bool;
  EPSILON : float;
  store_offset : Axis → float → float → float;
  store_rotation : Axis → float → float → float;
  store_scaling_factor : Axis → float → float → float;
  store_mirror : Axis → float → float → float;
  transformed_convex_hull_bounding_box : GLVolume → BoundingBoxf3;
  transformed_bounding_box : GLVolume → BoundingBoxf3;
  bb_merge : BoundingBoxf3 → BoundingBoxf3 → BoundingBoxf3;
  bb_center : BoundingBoxf3 → Vec3d
}.

(** The result of a member function that contains [assert]s: it returns,
    or the process aborts on a failed assertion, or, in a function that
    reads the volume list without a validity test, the read goes through a
    null [m_volumes]: behaviour the language leaves undefined. *)
Inductive Outcome (A : Type) :=
| Done (a : A)
| AssertionFailed
| NullDereference.
Arguments Done {A} a.
Arguments AssertionFailed {A}.
Arguments NullDereference {A}.

#[global] Instance Outcome_ret : MRet Outcome := λ A a, Done a.
#[global] Instance Outcome_bind : MBind Outcome :=
  λ A B f m,
    match m with
    | Done a => f a
    | AssertionFailed => AssertionFailed
    | NullDereference => NullDereference
    end.

Fixpoint foldlM {A B} (f : A → B → Outcome A) (a : A) (l : list B) : Outcome A :=
  match l with
  | [] => Done a
  | b :: l' => a' ← f a b; foldlM f a' l'
  end.

(** The literal [1e-8] of the rotation checks, as the nearest double. *)
Definition tolerance_1e_8 : float := 0x1.5798ee2308c3ap-27%float.

(** [DBL_MAX]. *)
Definition DBL_MAX : float := 0x1.fffffffffffffp+1023%float.

(** [std::min(a, b)]. *)
Definition std_min (a b : float) : float := if (b <? a)%float then b else a.

(** [v.cwiseAbs().maxCoeff(&idx)]: the index of the first largest
    coefficient. *)
Definition maxCoeff_index (a : Vec3d) : nat :=
  let '(m, i) := if (vx a <? vy a)%float then (vy a, 1%nat) else (vx a, 0%nat) in
  if (m <? vz a)%float then 2%nat else i.

Inductive SyncRotationType :=
| SYNC_ROTATION_NONE | SYNC_ROTATION_FULL | SYNC_ROTATION_GENERAL.

Section TransformEngine.

Context {G : Geometry}.

(** [NDEBUG]: whether the build compiles assertions out. *)
Variable NDEBUG : bool.

(** [assert(b)]. *)
Definition assert (b : bool) : Outcome unit :=
  if NDEBUG then Done tt else if b then Done tt else AssertionFailed.

(** *** Setters of a transformation *)

Definition store3 (store : Axis → float → float → float) (old new : Vec3d) : Vec3d :=
  mkVec3d (store X (vx old) (vx new)) (store Y (vy old) (vy new))
    (store Z_axis (vz old) (vz new)).

Definition Transformation_set_offset (o : Vec3d) (t : Transformation) : Transformation :=
  mkTransformation (store3 store_offset (t_offset t) o) (t_rotation t)
    (t_scaling_factor t) (t_mirror t).
Definition Transformation_set_rotation (r : Vec3d) (t : Transformation) : Transformation :=
  mkTransformation (t_offset t) (store3 store_rotation (t_rotation t) r)
    (t_scaling_factor t) (t_mirror t).
Definition Transformation_set_scaling_factor (f : Vec3d) (t : Transformation)
  : Transformation :=
  mkTransformation (t_offset t) (t_rotation t)
    (store3 store_scaling_factor (t_scaling_factor t) f) (t_mirror t).
Definition Transformation_set_mirror (m : Vec3d) (t : Transformation) : Transformation :=
  mkTransformation (t_offset t) (t_rotation t) (t_scaling_factor t)
    (store3 store_mirror (t_mirror t) m).
Definition Transformation_set_offset_axis (ax : Axis) (d : float) (t : Transformation)
  : Transformation :=
  mkTransformation
    (vec_set (t_offset t) ax (store_offset ax (vec_get (t_offset t) ax) d))
    (t_rotation t) (t_scaling_factor t) (t_mirror t).
Definition Transformation_set_mirror_axis (ax : Axis) (d : float) (t : Transformation)
  : Transformation :=
  mkTransformation (t_offset t) (t_rotation t) (t_scaling_factor t)
    (vec_set (t_mirror t) ax (store_mirror ax (vec_get (t_mirror t) ax) d)).

Definition get_instance_offset (v : GLVolume) := t_offset (instance_transformation v).
Definition get_instance_rotation (v : GLVolume) := t_rotation (instance_transformation v).
Definition get_instance_scaling_factor (v : GLVolume) :=
  t_scaling_factor (instance_transformation v).
Definition get_instance_mirror (v : GLVolume) := t_mirror (instance_transformation v).
Definition get_volume_offset (v : GLVolume) := t_offset (volume_transformation v).
Definition get_volume_rotation (v : GLVolume) := t_rotation (volume_transformation v).
Definition get_volume_scaling_factor (v : GLVolume) :=
  t_scaling_factor (volume_transformation v).
Definition get_volume_mirror (v : GLVolume) := t_mirror (volume_transformation v).

(** The setters of the volume at index [i] of the volume list. *)
Definition on_instance (f : Transformation → Transformation) (i : nat) (s : Selection)
  : Selection :=
  with_volumes
    (alter (λ v, set_instance_transformation (f (instance_transformation v)) v) i) s.
Definition on_volume (f : Transformation → Transformation) (i : nat) (s : Selection)
  : Selection :=
  with_volumes
    (alter (λ v, set_volume_transformation (f (volume_transformation v)) v) i) s.

Definition set_instance_offset i o := on_instance (Transformation_set_offset o) i.
Definition set_instance_rotation i r := on_instance (Transformation_set_rotation r) i.
Definition set_instance_scaling_factor i f :=
  on_instance (Transformation_set_scaling_factor f) i.
Definition set_instance_mirror i m := on_instance (Transformation_set_mirror m) i.
Definition set_volume_offset i o := on_volume (Transformation_set_offset o) i.
Definition set_volume_rotation i r := on_volume (Transformation_set_rotation r) i.
Definition set_volume_scaling_factor i f :=
  on_volume (Transformation_set_scaling_factor f) i.
Definition set_volume_mirror i m := on_volume (Transformation_set_mirror m) i.

(** *** The transform cache *)

(** [m_cache.volumes_data[i]]: [operator[]] of [std::map] inserts a
    default-constructed entry where the key is missing. *)
Definition touch_cache (i : nat) (s : Selection) : Selection :=
  match volumes_data (m_cache s) !! i with
  | Some _ => s
  | None =>
      set_m_cache
        (mkCache (<[i := VolumeCache_default]> (volumes_data (m_cache s)))
           (content (m_cache s)) (dragging_center (m_cache s)))
        s
  end.

Definition cache_at (i : nat) (s : Selection) : VolumeCache :=
  default VolumeCache_default (volumes_data (m_cache s) !! i).

Definition rotation_matrix_of (t : Transformation) : Transform3d :=
  assemble_transform Vec3d_Zero (t_rotation t) Vec3d_Ones Vec3d_Ones.
Definition scale_matrix_of (t : Transformation) : Transform3d :=
  assemble_transform Vec3d_Zero Vec3d_Zero (t_scaling_factor t) Vec3d_Ones.
Definition mirror_matrix_of (t : Transformation) : Transform3d :=
  assemble_transform Vec3d_Zero Vec3d_Zero Vec3d_Ones (t_mirror t).
Definition full_matrix_of (t : Transformation) : Transform3d :=
  get_matrix t false false false false.

(** *** Bounding box of the selection *)

Definition calc_bounding_box (s : Selection) : Selection :=
  let box :=
    if m_valid s then
      foldl
        (λ box i,
           match the_volumes s !! i with
           | Some v => bb_merge box (transformed_convex_hull_bounding_box v)
           | None => box
           end)
        BoundingBoxf3_default (m_list_order s)
    else BoundingBoxf3_default in
  set_m_bounding_box box false s.

(** [get_bounding_box] refreshes the cached box when it is dirty; the
    state is returned with the box. *)
Definition get_bounding_box (s : Selection) : BoundingBoxf3 * Selection :=
  let s' := if m_bounding_box_dirty s then calc_bounding_box s else s in
  (m_bounding_box s', s').

Definition set_caches (s : Selection) : Selection :=
  let data :=
    foldl
      (λ (d : gmap nat VolumeCache) i,
         match the_volumes s !! i with
         | Some v =>
             match d !! i with
             | None =>
                 <[i := mkVolumeCache (volume_transformation v) (instance_transformation v)]> d
             | Some _ => d
             end
         | None => d
         end)
      ∅ (seq 0 (usize (the_volumes s))) in
  let s1 := set_m_cache (mkCache data (content (m_cache s)) (dragging_center (m_cache s))) s in
  let '(box, s2) := get_bounding_box s1 in
  set_m_cache (mkCache (volumes_data (m_cache s2)) (content (m_cache s2)) (bb_center box)) s2.

Definition start_dragging (s : Selection) : Selection :=
  if negb (m_valid s) then s else set_caches s.

(** *** Queries of the transform engine *)

Definition is_single_full_instance (s : Selection) : bool :=
  if bool_decide (m_type s = SingleFullInstance) then true
  else if bool_decide (m_type s = SingleFullObject)
  then negb (get_instance_idx s =? -1)
  else if bool_decide (m_list s = ∅) || bool_decide (the_volumes s = []) then false
  else
    let object_idx' := if m_valid s then get_object_idx s else -1 in
    if (object_idx' <? 0) || (int_cast (Z.of_nat (length (the_objects s))) <=? object_idx')
    then false
    else
      match the_volumes s !! default 0%nat (head (m_list_order s)) with
      | None => false
      | Some first =>
          let instance_idx' := instance_idx first in
          if forallb
               (λ i,
                  match the_volumes s !! i with
                  | Some v =>
                      (object_idx' =? object_idx v) && (instance_idx' =? instance_idx v)
                  | None => false
                  end)
               (m_list_order s)
          then
            let volumes_idxs : gset Z :=
              foldl
                (λ acc i,
                   match the_volumes s !! i with
                   | Some v => if 0 <=? volume_idx v then {[volume_idx v]} ∪ acc else acc
                   | None => acc
                   end)
                ∅ (m_list_order s) in
            bool_decide
              (length (volumes (objects_at (the_objects s) object_idx')) = size volumes_idxs)
          else false
      end.

Definition is_from_fully_selected_instance (i : nat) (s : Selection) : bool :=
  if (usize (the_volumes s) <=? i)%nat then false
  else
    match the_volumes s !! i with
    | None => false
    | Some volume =>
        if int_cast (Z.of_nat (length (the_objects s))) <=? object_idx volume then false
        else
          let count :=
            u32 (count_where
                   (λ k,
                      match the_volumes s !! k with
                      | Some v =>
                          (0 <=? volume_idx v) && (object_idx v =? object_idx volume)
                          && (instance_idx v =? instance_idx volume)
                      | None => false
                      end)
                   (m_list_order s)) in
          count =? Z.of_nat (usize (volumes (objects_at (the_objects s) (object_idx volume))))
    end.

(** *** Debug-only consistency checks *)

(** These two functions exist only in builds without [NDEBUG]; every call
    site is an [assert] or sits under [#ifndef NDEBUG]. *)
Definition is_rotation_xy_synchronized (rot_xyz_from rot_xyz_to : Vec3d) : Outcome bool :=
  let '(axis, angle) := rotation_xyz_diff_angle_axis rot_xyz_from rot_xyz_to in
  if (abs angle <? tolerance_1e_8)%float then Done true
  else
    _ ← assert (abs (vx axis) <? tolerance_1e_8)%float;
    _ ← assert (abs (vy axis) <? tolerance_1e_8)%float;
    _ ← assert (abs (abs (vz axis) - 1) <? tolerance_1e_8)%float;
    Done ((abs (vx axis) <? tolerance_1e_8)%float && (abs (vy axis) <? tolerance_1e_8)%float
          && (abs (abs (vz axis) - 1) <? tolerance_1e_8)%float).

Definition assert_rotation_xy_synchronized (from to : Vec3d) : Outcome unit :=
  if NDEBUG then Done tt
  else b ← is_rotation_xy_synchronized from to; assert b.

Definition verify_instances_rotation_synchronized (s : Selection) : Outcome unit :=
  let vols := the_volumes s in
  foldlM
    (λ _ idx_object,
       match
         List.find
           (λ i, match vols !! i with
                 | Some v => object_idx v =? Z.of_nat idx_object
                 | None => false
                 end)
           (seq 0 (length vols))
       with
       | None => assert false
       | Some idx_volume_first =>
           let rotation0 :=
             from_option get_instance_rotation Vec3d_Zero (vols !! idx_volume_first) in
           foldlM
             (λ _ i,
                match vols !! i with
                | Some v =>
                    if object_idx v =? Z.of_nat idx_object
                    then assert_rotation_xy_synchronized (get_instance_rotation v) rotation0
                    else Done tt
                | None => Done tt
                end)
             tt (seq (S idx_volume_first) (length vols - S idx_volume_first))
       end)
    tt (seq 0 (length (the_objects s))).

(** *** The synchronizer *)

Definition synchronize_unselected_instances (sync_rotation_type : SyncRotationType)
    (s : Selection) : Outcome Selection :=
  r ← foldlM
    (λ '(s, done) i,
       if bool_decide (size (done : gset nat) = length (the_volumes s)) then Done (s, done)
       else
         match the_volumes s !! i with
         | None => Done (s, done)
         | Some volume =>
             if 1000 <=? object_idx volume then Done (s, done)
             else
               let rotation := get_instance_rotation volume in
               let scaling_factor := get_instance_scaling_factor volume in
               let mirror := get_instance_mirror volume in
               foldlM
                 (λ '(s, done) j,
                    if bool_decide (size (done : gset nat) = length (the_volumes s))
                    then Done (s, done)
                    else if decide (j ∈ done) then Done (s, done)
                    else
                      match the_volumes s !! j with
                      | None => Done (s, done)
                      | Some v =>
                          if negb (object_idx v =? object_idx volume)
                             || (instance_idx v =? instance_idx volume)
                          then Done (s, done)
                          else
                            s ← (if NDEBUG then Done s
                                 else
                                   let s := touch_cache j (touch_cache i s) in
                                   _ ← assert_rotation_xy_synchronized
                                         (t_rotation (vc_instance (cache_at i s)))
                                         (t_rotation (vc_instance (cache_at j s)));
                                   Done s);
                            s ← match sync_rotation_type with
                                | SYNC_ROTATION_NONE =>
                                    _ ← assert_rotation_xy_synchronized rotation
                                          (get_instance_rotation v);
                                    Done s
                                | SYNC_ROTATION_FULL =>
                                    Done (set_instance_rotation j
                                            (mkVec3d (vx rotation) (vy rotation) (vz rotation)) s)
                                | SYNC_ROTATION_GENERAL =>
                                    let s := touch_cache j (touch_cache i s) in
                                    let z_diff :=
                                      rotation_diff_z
                                        (t_rotation (vc_instance (cache_at i s)))
                                        (t_rotation (vc_instance (cache_at j s))) in
                                    Done (set_instance_rotation j
                                            (mkVec3d (vx rotation) (vy rotation)
                                               (vz rotation + z_diff)) s)
                                end;
                            let s := set_instance_scaling_factor j scaling_factor s in
                            let s := set_instance_mirror j mirror s in
                            Done (s, {[j]} ∪ done)
                      end)
                 (s, done) (seq 0 (usize (the_volumes s)))
         end)
    (s, m_list s) (m_list_order s);
  _ ← (if NDEBUG then Done tt else verify_instances_rotation_synchronized r.1);
  Done r.1.

Definition synchronize_unselected_volumes (s : Selection) : Selection :=
  foldl
    (λ s i,
       match the_volumes s !! i with
       | None => s
       | Some volume =>
           if 1000 <=? object_idx volume then s
           else
             foldl
               (λ s j,
                  if (j =? i)%nat then s
                  else
                    match the_volumes s !! j with
                    | None => s
                    | Some v =>
                        if negb (object_idx v =? object_idx volume)
                           || negb (volume_idx v =? volume_idx volume)
                        then s
                        else
                          set_volume_mirror j (get_volume_mirror volume)
                            (set_volume_scaling_factor j (get_volume_scaling_factor volume)
                               (set_volume_rotation j (get_volume_rotation volume)
                                  (set_volume_offset j (get_volume_offset volume) s)))
                    end)
               s (seq 0 (usize (the_volumes s)))
       end)
    s (m_list_order s).

(** [ensure_on_bed]: the lowest hull point of every instance, over its
    volumes that are neither modifiers nor the wipe tower, then the shift
    of the instance offset of every volume of an instance so measured. *)
Definition ensure_on_bed_min_z (vols : list GLVolume) : gmap (Z * Z) float :=
  foldl
    (λ (instances_min_z : gmap (Z * Z) float) volume,
       if negb (is_wipe_tower volume) && negb (is_modifier volume) then
         let min_z := vz (bb_min (transformed_convex_hull_bounding_box volume)) in
         let instance := (object_idx volume, instance_idx volume) in
         let m1 :=
           match instances_min_z !! instance with
           | None => <[instance := DBL_MAX]> instances_min_z
           | Some _ => instances_min_z
           end in
         alter (λ z, std_min z min_z) instance m1
       else instances_min_z)
    ∅ vols.

Definition ensure_on_bed (s : Selection) : Selection :=
  let instances_min_z := ensure_on_bed_min_z (the_volumes s) in
  with_volumes
    (fmap (λ volume,
       match instances_min_z !! (object_idx volume, instance_idx volume) with
       | Some z =>
           set_instance_transformation
             (Transformation_set_offset_axis Z_axis
                (vz (get_instance_offset volume) - z)%float
                (instance_transformation volume))
             volume
       | None => volume
       end))
    s.

(** *** The transform engine *)

(** The synchronization that closes [translate], [rotate], [scale] and
    [mirror]; [DISABLE_INSTANCES_SYNCH] is 0. *)
Definition synchronize (mode : EMode) (sync_rotation_type : SyncRotationType)
    (s : Selection) : Outcome Selection :=
  match mode with
  | Instance => synchronize_unselected_instances sync_rotation_type s
  | Volume => Done (synchronize_unselected_volumes s)
  end.

(** The displacement expressed in the local axes of the cached instance. *)
Definition local_displacement (c : VolumeCache) (displacement : Vec3d) : Vec3d :=
  transform_apply
    (transform_inverse
       (transform_mul
          (transform_mul (rotation_matrix_of (vc_instance c)) (scale_matrix_of (vc_instance c)))
          (mirror_matrix_of (vc_instance c))))
    displacement.

Definition translate (displacement : Vec3d) (local : bool) (s : Selection)
  : Outcome Selection :=
  if negb (m_valid s) then Done s
  else
    let '(s1, translation_type) :=
      foldl
        (λ '(s, translation_type) i,
           match the_volumes s !! i with
           | None => (s, translation_type)
           | Some v =>
               if bool_decide (m_mode s = Volume) || is_wipe_tower v then
                 let s := touch_cache i s in
                 let c := cache_at i s in
                 if local
                 then (set_volume_offset i (vec_add (t_offset (vc_volume c)) displacement) s,
                       translation_type)
                 else (set_volume_offset i
                         (vec_add (t_offset (vc_volume c)) (local_displacement c displacement)) s,
                       translation_type)
               else if bool_decide (m_mode s = Instance) then
                 if is_from_fully_selected_instance i s then
                   let s := touch_cache i s in
                   let c := cache_at i s in
                   (set_instance_offset i (vec_add (t_offset (vc_instance c)) displacement) s,
                    translation_type)
                 else
                   let s := touch_cache i s in
                   let c := cache_at i s in
                   (set_volume_offset i
                      (vec_add (t_offset (vc_volume c)) (local_displacement c displacement)) s,
                    Volume)
               else (s, translation_type)
           end)
        (s, m_mode s) (m_list_order s) in
    s2 ← synchronize translation_type SYNC_ROTATION_NONE s1;
    Done (set_bounding_boxes_dirty s2).

(** [object_instance_first] of [rotate]: a vector of [int], one slot per
    object of the model, initially -1. *)
Definition first_at (object_instance_first : list Z) (obj : Z) : Z :=
  if decide (0 ≤ obj) then default (-1) (object_instance_first !! Z.to_nat obj) else -1.
Definition first_set (object_instance_first : list Z) (obj : Z) (i : nat) : list Z :=
  if decide (0 ≤ obj) then <[Z.to_nat obj := Z.of_nat i]> object_instance_first
  else object_instance_first.

(** The lambda [rotate_instance] of [rotate]. *)
Definition rotate_instance (rotation : Vec3d) (rot_axis_max : nat)
    (transformation_type : TransformationType) (i : nat)
    (st : Selection * list Z) : Outcome (Selection * list Z) :=
  let '(s, object_instance_first) := st in
  match the_volumes s !! i with
  | None => Done st
  | Some volume =>
      let first_volume_idx := first_at object_instance_first (object_idx volume) in
      if negb (rot_axis_max =? 2)%nat && negb (first_volume_idx =? -1) then
        _ ← assert (is_approx (vz rotation) 0);
        let first_rotation :=
          from_option get_instance_rotation Vec3d_Zero
            (the_volumes s !! Z.to_nat first_volume_idx) in
        let s := touch_cache i (touch_cache (Z.to_nat first_volume_idx) s) in
        let z_diff :=
          rotation_diff_z
            (t_rotation (vc_instance (cache_at (Z.to_nat first_volume_idx) s)))
            (t_rotation (vc_instance (cache_at i s))) in
        Done (set_instance_rotation i
                (mkVec3d (vx first_rotation) (vy first_rotation)
                   (vz first_rotation + z_diff)) s,
              object_instance_first)
      else
        let s := touch_cache i s in
        let c := cache_at i s in
        let new_rotation :=
          if tt_world transformation_type
          then extract_euler_angles
                 (transform_mul
                    (assemble_transform Vec3d_Zero rotation Vec3d_Ones Vec3d_Ones)
                    (rotation_matrix_of (vc_instance c)))
          else if tt_absolute transformation_type then rotation
          else vec_add rotation (t_rotation (vc_instance c)) in
        let s :=
          if (rot_axis_max =? 2)%nat && tt_joint transformation_type then
            let z_diff := rotation_diff_z (t_rotation (vc_instance c)) new_rotation in
            set_instance_offset i
              (vec_add (dragging_center (m_cache s))
                 (angle_axis_z z_diff
                    (vec_sub (t_offset (vc_instance c)) (dragging_center (m_cache s)))))
              s
          else s in
        Done (set_instance_rotation i new_rotation s,
              first_set object_instance_first (object_idx volume) i)
  end.

(** The body of the loop of [rotate] for a rotation that is not a reset,
    for the selected index [i]; the state carries [object_instance_first]. *)
Definition rotate_step (rotation : Vec3d) (rot_axis_max : nat)
    (transformation_type : TransformationType)
    (st : Selection * list Z) (i : nat) : Outcome (Selection * list Z) :=
  let '(s, object_instance_first) := st in
  if is_single_full_instance s then
    rotate_instance rotation rot_axis_max transformation_type i (s, object_instance_first)
  else if is_single_volume s || is_single_modifier s then
    if tt_independent transformation_type then
      Done
        (set_volume_rotation i
           (vec_add (from_option get_volume_rotation Vec3d_Zero (the_volumes s !! i))
              rotation) s,
         object_instance_first)
    else
      let m := assemble_transform Vec3d_Zero rotation Vec3d_Ones Vec3d_Ones in
      let s := touch_cache i s in
      let new_rotation :=
        extract_euler_angles
          (transform_mul m (rotation_matrix_of (vc_volume (cache_at i s)))) in
      Done (set_volume_rotation i new_rotation s, object_instance_first)
  else
    match m_mode s with
    | Instance =>
        rotate_instance rotation rot_axis_max transformation_type i
          (s, object_instance_first)
    | Volume =>
        let m := assemble_transform Vec3d_Zero rotation Vec3d_Ones Vec3d_Ones in
        let s := touch_cache i s in
        let c := cache_at i s in
        let new_rotation :=
          extract_euler_angles (transform_mul m (rotation_matrix_of (vc_volume c))) in
        let s :=
          if tt_joint transformation_type then
            let local_pivot :=
              transform_apply (transform_inverse (full_matrix_of (vc_instance c)))
                (dragging_center (m_cache s)) in
            let offset :=
              transform_apply m (vec_sub (t_offset (vc_volume c)) local_pivot) in
            set_volume_offset i (vec_add local_pivot offset) s
          else s in
        Done (set_volume_rotation i new_rotation s, object_instance_first)
    end.

(** The reset of [rotate], for a rotation that is approximately zero:
    the cached rotation and position are restored. *)
Definition rotate_reset (s : Selection) : Selection :=
  foldl
    (λ s i,
       match m_mode s with
       | Instance =>
           let s := touch_cache i s in
           let c := cache_at i s in
           set_instance_offset i (t_offset (vc_instance c))
             (set_instance_rotation i (t_rotation (vc_instance c)) s)
       | Volume =>
           let s := touch_cache i s in
           let c := cache_at i s in
           set_volume_offset i (t_offset (vc_volume c))
             (set_volume_rotation i (t_rotation (vc_volume c)) s)
       end)
    s (m_list_order s).

(** The wipe tower, alone in the selection, turns about the centre of its
    bounding box. *)
Definition rotate_wipe_tower (rotation : Vec3d) (s : Selection) : Selection :=
  let i := default 0%nat (head (m_list_order s)) in
  match the_volumes s !! i with
  | None => s
  | Some volume =>
      let center_local :=
        vec_sub (bb_center (transformed_bounding_box volume)) (get_volume_offset volume) in
      let center_local_new :=
        angle_axis_z (vz rotation - vz (get_volume_rotation volume)) center_local in
      let s := set_volume_rotation i rotation s in
      let offset := from_option get_volume_offset Vec3d_Zero (the_volumes s !! i) in
      set_volume_offset i (vec_sub (vec_add offset center_local) center_local_new) s
  end.

Definition rotate (rotation : Vec3d) (transformation_type : TransformationType)
    (s : Selection) : Outcome Selection :=
  if negb (m_valid s) then Done s
  else
    _ ← assert (negb (tt_world transformation_type) || tt_relative transformation_type);
    s' ←
      (if negb (is_wipe_tower_selected s) then
         r ←
           (if vec_isApprox rotation Vec3d_Zero then Done (rotate_reset s, 0%nat)
            else
              let rot_axis_max := maxCoeff_index (vec_cwiseAbs rotation) in
              r ← foldlM (rotate_step rotation rot_axis_max transformation_type)
                    (s, replicate (length (the_objects s)) (-1)) (m_list_order s);
              Done (r.1, rot_axis_max));
         synchronize (m_mode r.1)
           (if (r.2 =? 2)%nat then SYNC_ROTATION_NONE else SYNC_ROTATION_GENERAL) r.1
       else Done (rotate_wipe_tower rotation s));
    Done (set_bounding_boxes_dirty s').

(** The body of the loop of [scale], for the selected index [i].  Where
    factors are composed with the cached ones, the new factors are read
    back as the norms of the columns of the composed matrix. *)
Definition scale_step (scale : Vec3d) (transformation_type : TransformationType)
    (s : Selection) (i : nat) : Outcome Selection :=
  match the_volumes s !! i with
  | None => Done s
  | Some volume =>
      let m := assemble_transform Vec3d_Zero Vec3d_Zero scale Vec3d_Ones in
      if is_single_full_instance s then
        if tt_relative transformation_type then
          let s := touch_cache i s in
          let c := cache_at i s in
          let new_scale :=
            transform_col_norms (transform_mul m (scale_matrix_of (vc_instance c))) in
          let s :=
            if tt_joint transformation_type then
              set_instance_offset i
                (vec_add (dragging_center (m_cache s))
                   (transform_apply m
                      (vec_sub (t_offset (vc_instance c)) (dragging_center (m_cache s)))))
                s
            else s in
          Done (set_instance_scaling_factor i new_scale s)
        else if tt_world transformation_type
                && ((EPSILON <? abs (vx scale - vy scale))%float
                    || (EPSILON <? abs (vx scale - vz scale))%float)
        then
          _ ← assert (is_rotation_ninety_degrees (get_instance_rotation volume));
          Done
            (set_instance_scaling_factor i
               (vec_cwiseAbs
                  (transform_transpose_apply
                     (get_matrix (instance_transformation volume) true false true true)
                     scale))
               s)
        else Done (set_instance_scaling_factor i scale s)
      else if is_single_volume s || is_single_modifier s then
        Done (set_volume_scaling_factor i scale s)
      else
        match m_mode s with
        | Instance =>
            let s := touch_cache i s in
            let c := cache_at i s in
            let new_scale :=
              transform_col_norms (transform_mul m (scale_matrix_of (vc_instance c))) in
            let s :=
              if tt_joint transformation_type then
                set_instance_offset i
                  (vec_add (dragging_center (m_cache s))
                     (transform_apply m
                        (vec_sub (t_offset (vc_instance c)) (dragging_center (m_cache s)))))
                  s
              else s in
            Done (set_instance_scaling_factor i new_scale s)
        | Volume =>
            let s := touch_cache i s in
            let c := cache_at i s in
            let new_scale :=
              transform_col_norms (transform_mul m (scale_matrix_of (vc_volume c))) in
            let s :=
              if tt_joint transformation_type then
                let offset :=
                  transform_apply m
                    (vec_sub (vec_add (t_offset (vc_volume c)) (t_offset (vc_instance c)))
                       (dragging_center (m_cache s))) in
                set_volume_offset i
                  (vec_add (vec_sub (dragging_center (m_cache s)) (t_offset (vc_instance c)))
                     offset)
                  s
              else s in
            Done (set_volume_scaling_factor i new_scale s)
        end
  end.

(** [scale]: the loop over the selection, the synchronization, and the
    drop onto the bed. *)
Definition scale (scale : Vec3d) (transformation_type : TransformationType)
    (s : Selection) : Outcome Selection :=
  if negb (m_valid s) then Done s
  else
    s1 ← foldlM (scale_step scale transformation_type) s (m_list_order s);
    s2 ← synchronize (m_mode s1) SYNC_ROTATION_NONE s1;
    Done (set_bounding_boxes_dirty (ensure_on_bed s2)).

Definition mirror (axis : Axis) (s : Selection) : Outcome Selection :=
  if negb (m_valid s) then Done s
  else
    let single_full_instance := is_single_full_instance s in
    let s1 :=
      foldl
        (λ s i,
           if single_full_instance then
             on_instance
               (λ t, Transformation_set_mirror_axis axis (- vec_get (t_mirror t) axis)%float t)
               i s
           else if bool_decide (m_mode s = Volume) then
             on_volume
               (λ t, Transformation_set_mirror_axis axis (- vec_get (t_mirror t) axis)%float t)
               i s
           else s)
        s (m_list_order s) in
    s2 ← synchronize (m_mode s1) SYNC_ROTATION_NONE s1;
    Done (set_bounding_boxes_dirty s2).

(** *** Rebuilds driven from outside *)

(** [instances_changed] and [volumes_changed] only assert validity.  Past
    the assertions both read the volume list whatever the state is:
    [instances_changed] by [m_volumes->size()] at the head of its loop, and
    [volumes_changed] at the latest in the final loop of [update_type] over
    [*m_volumes].  With no volume list bound the read goes through a null
    pointer. *)
Definition instances_changed (instance_ids_selected : list N) (s : Selection)
  : Outcome Selection :=
  _ ← assert (m_valid s);
  _ ← assert (bool_decide (m_mode s = Instance));
  match m_volumes s with
  | None => NullDereference
  | Some _ =>
      let s1 := set_m_list ∅ s in
      let s2 :=
        foldl
          (λ s i,
             match the_volumes s !! i with
             | Some volume =>
                 match instance_ids_selected
                       !! lower_bound N.ltb instance_ids_selected (geometry_id volume).2 with
                 | Some id =>
                     if (id =? (geometry_id volume).2)%N then do_add_volume i s else s
                 | None => s
                 end
             | None => s
             end)
          s1 (seq 0 (usize (the_volumes s1))) in
      Done (set_bounding_boxes_dirty (update_type s2))
  end.

(** [size_t(-1)], the mark of a removed volume. *)
Definition size_t_max : N := (2 ^ 64 - 1)%N.

Definition volumes_changed (map_volume_old_to_new : list N) (s : Selection)
  : Outcome Selection :=
  _ ← assert (m_valid s);
  _ ← assert (bool_decide (m_mode s = Volume));
  match m_volumes s with
  | None => NullDereference
  | Some _ =>
      let '(s1, list_new) :=
        foldl
          (λ '(s, list_new) idx,
             match map_volume_old_to_new !! idx with
             | Some new =>
                 if negb (new =? size_t_max)%N then
                   let new_idx := Z.to_nat (u32 (Z.of_N new)) in
                   (with_volumes (alter (set_selected true) new_idx) s,
                    ({[new_idx]} ∪ list_new : gset nat))
                 else (s, list_new)
             | None => (s, list_new)
             end)
          (s, ∅) (m_list_order s) in
      Done (set_bounding_boxes_dirty (update_type (set_m_list list_new s1)))
  end.

End TransformEngine.

(** ** Calls of the public mutators *)

(** One constructor per member function that changes selection
    membership, with its arguments. *)
Inductive Call :=
| CallAdd (i : nat) (as_single_selection check_for_already_contained : bool)
| CallRemove (i : nat)
| CallAddObject (object_idx' : Z) (as_single_selection : bool)
| CallRemoveObject (object_idx' : Z)
| CallAddInstance (object_idx' instance_idx' : Z) (as_single_selection : bool)
| CallRemoveInstance (object_idx' instance_idx' : Z)
| CallAddVolume (object_idx' volume_idx' instance_idx' : Z) (as_single_selection : bool)
| CallRemoveVolume (object_idx' volume_idx' : Z)
| CallAddVolumes (mode : EMode) (volume_idxs : list nat) (as_single_selection : bool)
| CallRemoveVolumes (mode : EMode) (volume_idxs : list nat)
| CallAddAll
| CallRemoveAll
| CallClear
| CallSetDeserialized (mode : EMode) (volumes_and_instances : list (N * N)).

Definition run_call (c : Call) (s : Selection) : Selection :=
  match c with
  | CallAdd i single check => add i single check s
  | CallRemove i => remove i s
  | CallAddObject o single => add_object o single s
  | CallRemoveObject o => remove_object o s
  | CallAddInstance o n single => add_instance o n single s
  | CallRemoveInstance o n => remove_instance o n s
  | CallAddVolume o v n single => add_volume o v n single s
  | CallRemoveVolume o v => remove_volume o v s
  | CallAddVolumes mode idxs single => add_volumes mode idxs single s
  | CallRemoveVolumes mode idxs => remove_volumes mode idxs s
  | CallAddAll => add_all s
  | CallRemoveAll => remove_all s
  | CallClear => clear s
  | CallSetDeserialized mode ids => set_deserialized mode ids s
  end.

Definition run_calls (calls : list Call) (s : Selection) : Selection :=
  foldl (λ s c, run_call c s) s calls.

(** The mutators that request an undo snapshot themselves; the four that
    work from a list of volume indices leave it to their caller, and
    [clear] and [set_deserialized] serve the undo machinery. *)
Definition requests_snapshot (c : Call) : bool :=
  match c with
  | CallAdd _ _ _ | CallRemove _ | CallAddObject _ _ | CallRemoveObject _
  | CallAddInstance _ _ _ | CallRemoveInstance _ _ | CallAddAll | CallRemoveAll => true
  | _ => false
  end.

(** ** Properties of states *)

(** The selected flags follow the index set: index [i] is in [m_list]
    exactly when the volume list has a volume at [i] whose flag is set. *)
Definition selection_invariant (s : Selection) : Prop :=
  ∀ i : nat, i ∈ m_list s ↔ (selected <$> the_volumes s) !! i = Some true.

(** The volume list is short enough for its size and its indices to fit
    an [unsigned int]. *)
Definition volumes_fit (s : Selection) : Prop :=
  (Z.of_nat (length (the_volumes s)) < 2 ^ 32)%Z.

(** A cached box that is not marked dirty is the default box when nothing
    is selected. *)
Definition empty_box_settled (s : Selection) : Prop :=
  m_bounding_box_dirty s = false → m_list s = ∅ → m_bounding_box s = BoundingBoxf3_default.

(** From [s] to [s'] the cached box was marked dirty, or the box, its mark
    and the index set are the same. *)
Definition box_kept (s s' : Selection) : Prop :=
  m_bounding_box_dirty s' = true
  ∨ (m_list s' = m_list s ∧ m_bounding_box s' = m_bounding_box s
     ∧ m_bounding_box_dirty s' = m_bounding_box_dirty s).

(** The order of [std::pair<size_t, size_t>], as a relation. *)
Definition pair_le (a b : N * N) : Prop := pair_lt b a = false.

#[global] Instance pair_le_dec : RelDecision pair_le.
Proof. intros a b. unfold pair_le. apply _. Defined.

(** Modelled from the spec: the selection as the undo machinery persists
    it, "the (mode, sorted list of stable identifiers) pair"; the
    identifiers are the geometry ids of the selected volumes. *)
Definition selection_record (s : Selection) : EMode * list (N * N) :=
  (m_mode s,
   merge_sort pair_le
     (omap (λ i, geometry_id <$> the_volumes s !! i) (m_list_order s))).


(** ** Further operations *)

(** [get_missing_volume_idxs_from]: the selected indices, in the order of
    the set, that [std::find] does not find in the list. *)
Definition get_missing_volume_idxs_from (volume_idxs : list nat) (s : Selection) : list nat :=
  filter (λ i, i ∉ volume_idxs) (m_list_order s).

(** [get_unselected_volume_idxs_from]: the indices of the list, in its
    order, that are not selected. *)
Definition get_unselected_volume_idxs_from (volume_idxs : list nat) (s : Selection)
  : list nat :=
  filter (λ i, i ∉ m_list s) volume_idxs.

Section ObjectTranslation.
Context {G : Geometry}.

(** [v->set_instance_offset(v->get_instance_offset() + displacement)] on
    the volume at index [i]. *)
Definition move_instance (displacement : Vec3d) (i : nat) (v : GLVolume) (s : Selection)
  : Selection :=
  set_instance_offset i (vec_add (get_instance_offset v) displacement) s.

(** The two overloads of [translate] that move an object or one of its
    instances, which differ in their two tests only: [moves v] on a
    selected volume, and [follows volume v] on a volume [v] that is not
    selected, for the selected volume [volume] of the outer loop.  The set
    [done] prevents processing a volume twice.  The source reads the
    volume list without a range check; an index outside it is skipped
    here. *)
Definition translate_where (moves : GLVolume → bool) (follows : GLVolume → GLVolume → bool)
    (displacement : Vec3d) (s : Selection) : Selection :=
  if negb (m_valid s) then s
  else
    let s1 :=
      foldl
        (λ s i,
           match the_volumes s !! i with
           | None => s
           | Some v => if moves v then move_instance displacement i v s else s
           end)
        s (m_list_order s) in
    let '(s2, _) :=
      foldl
        (λ '(s, done) i,
           if bool_decide (size (done : gset nat) = length (the_volumes s)) then (s, done)
           else
             match the_volumes s !! i with
             | None => (s, done)
             | Some volume =>
                 if 1000 <=? object_idx volume then (s, done)
                 else
                   foldl
                     (λ '(s, done) j,
                        if bool_decide (size (done : gset nat) = length (the_volumes s))
                        then (s, done)
                        else if decide (j ∈ done) then (s, done)
                        else
                          match the_volumes s !! j with
                          | None => (s, done)
                          | Some v =>
                              if negb (follows volume v) then (s, done)
                              else (move_instance displacement j v s, {[j]} ∪ done)
                          end)
                     (s, done) (seq 0 (usize (the_volumes s)))
             end)
        (s1, m_list s) (m_list_order s) in
    set_bounding_boxes_dirty s2.

(** [translate(unsigned int object_idx, const Vec3d& displacement)]. *)
Definition translate_object (object_idx' : Z) (displacement : Vec3d) (s : Selection)
  : Selection :=
  translate_where (λ v, object_idx v =? int_cast object_idx')
    (λ volume v, object_idx v =? object_idx volume) displacement s.

(** [translate(unsigned int object_idx, unsigned int instance_idx,
    const Vec3d& displacement)]. *)
Definition translate_instance (object_idx' instance_idx' : Z) (displacement : Vec3d)
    (s : Selection) : Selection :=
  translate_where
    (λ v, (object_idx v =? int_cast object_idx') && (instance_idx v =? int_cast instance_idx'))
    (λ volume v,
       (object_idx v =? object_idx volume) && (instance_idx v =? int_cast instance_idx'))
    displacement s.

End ObjectTranslation.

(** ** Runs of requests *)

(** The member functions a client calls on a selection, with their
    arguments: the two that bind the volume list and the model, the
    mutators, the bounding box, the start of a drag, the transformations,
    the two translations of an object or of an instance, and the rebuilds
    driven from outside. *)
Inductive Request :=
| RequestSetVolumes (volumes : option (list GLVolume))
| RequestSetModel (model : option Model)
| RequestCall (c : Call)
| RequestGetBoundingBox
| RequestStartDragging
| RequestTranslate (displacement : Vec3d) (local : bool)
| RequestRotate (rotation : Vec3d) (transformation_type : TransformationType)
| RequestScale (scale : Vec3d) (transformation_type : TransformationType)
| RequestMirror (axis : Axis)
| RequestTranslateObject (object_idx : Z) (displacement : Vec3d)
| RequestTranslateInstance (object_idx instance_idx : Z) (displacement : Vec3d)
| RequestInstancesChanged (instance_ids_selected : list N)
| RequestVolumesChanged (map_volume_old_to_new : list N).

Section Requests.
Context {G : Geometry}.
Variable NDEBUG : bool.

Definition run_request (r : Request) (s : Selection) : Outcome Selection :=
  match r with
  | RequestSetVolumes volumes => Done (set_volumes volumes s)
  | RequestSetModel model => Done (set_model model s)
  | RequestCall c => Done (run_call c s)
  | RequestGetBoundingBox => Done (get_bounding_box s).2
  | RequestStartDragging => Done (start_dragging s)
  | RequestTranslate displacement local => translate NDEBUG displacement local s
  | RequestRotate rotation transformation_type =>
      rotate NDEBUG rotation transformation_type s
  | RequestScale scale' transformation_type => scale NDEBUG scale' transformation_type s
  | RequestMirror axis => mirror NDEBUG axis s
  | RequestTranslateObject object_idx' displacement =>
      Done (translate_object object_idx' displacement s)
  | RequestTranslateInstance object_idx' instance_idx' displacement =>
      Done (translate_instance object_idx' instance_idx' displacement s)
  | RequestInstancesChanged instance_ids_selected =>
      instances_changed NDEBUG instance_ids_selected s
  | RequestVolumesChanged map_volume_old_to_new =>
      volumes_changed NDEBUG map_volume_old_to_new s
  end.

(** A run of requests: the state it reaches, unless one of the requests
    does not return. *)
Definition run_requests (requests : list Request) (s : Selection) : Outcome Selection :=
  foldlM (λ s r, run_request r s) s requests.

End Requests.

(** ** A geometry for concrete scenes *)

(** An implementation of the geometry interface on which the engine can
    be run: exact for transformations without rotation (a transform is a
    diagonal and a translation), with rotation differences taken about Z
    and turns about Z computed from truncated power series.  The
    theorems below hold for every implementation; this one serves the
    examples. *)
Module ExampleGeometry.

Definition vec_mul (a b : Vec3d) : Vec3d :=
  mkVec3d (vx a * vx b) (vy a * vy b) (vz a * vz b).
Definition vec_div (a b : Vec3d) : Vec3d :=
  mkVec3d (vx a / vx b) (vy a / vy b) (vz a / vz b).
Definition vec_opp (a : Vec3d) : Vec3d := mkVec3d (- vx a) (- vy a) (- vz a).
Definition squaredNorm (a : Vec3d) : float := vx a * vx a + vy a * vy a + vz a * vz a.

Definition cos_series (a : float) : float :=
  let x := (a * a)%float in
  (1 - x / 2 * (1 - x / 12 * (1 - x / 30 * (1 - x / 56 * (1 - x / 90)))))%float.
Definition sin_series (a : float) : float :=
  let x := (a * a)%float in
  (a * (1 - x / 6 * (1 - x / 20 * (1 - x / 42 * (1 - x / 72 * (1 - x / 110))))))%float.

Definition hull_box (offset : Vec3d) (hull : list Vec3d) : BoundingBoxf3 :=
  foldl
    (λ box p,
       let q := vec_add p offset in
       if bb_defined box then
         mkBB true
           (mkVec3d (std_min (vx (bb_min box)) (vx q)) (std_min (vy (bb_min box)) (vy q))
              (std_min (vz (bb_min box)) (vz q)))
           (mkVec3d (if (vx (bb_max box) <? vx q)%float then vx q else vx (bb_max box))
              (if (vy (bb_max box) <? vy q)%float then vy q else vy (bb_max box))
              (if (vz (bb_max box) <? vz q)%float then vz q else vz (bb_max box)))
       else mkBB true q q)
    BoundingBoxf3_default hull.

Definition merge (a b : BoundingBoxf3) : BoundingBoxf3 :=
  if bb_defined b then
    if bb_defined a then
      mkBB true
        (mkVec3d (std_min (vx (bb_min a)) (vx (bb_min b)))
           (std_min (vy (bb_min a)) (vy (bb_min b)))
           (std_min (vz (bb_min a)) (vz (bb_min b))))
        (mkVec3d
           (if (vx (bb_max a) <? vx (bb_max b))%float then vx (bb_max b) else vx (bb_max a))
           (if (vy (bb_max a) <? vy (bb_max b))%float then vy (bb_max b) else vy (bb_max a))
           (if (vz (bb_max a) <? vz (bb_max b))%float then vz (bb_max b) else vz (bb_max a)))
    else b
  else a.

Definition world_box (v : GLVolume) : BoundingBoxf3 :=
  hull_box
    (vec_add (t_offset (instance_transformation v)) (t_offset (volume_transformation v)))
    (convex_hull v).

#[export] Instance geometry : Geometry := {|
  Transform3d := Vec3d * Vec3d;
  assemble_transform t r s m := (vec_mul s m, t);
  get_matrix T dont_translate dont_rotate dont_scale dont_mirror :=
    (vec_mul (if dont_scale then Vec3d_Ones else t_scaling_factor T)
       (if dont_mirror then Vec3d_Ones else t_mirror T),
     if dont_translate then Vec3d_Zero else t_offset T);
  transform_mul a b := (vec_mul a.1 b.1, vec_add (vec_mul a.1 b.2) a.2);
  transform_inverse a := (vec_div Vec3d_Ones a.1, vec_opp (vec_div a.2 a.1));
  transform_apply a v := vec_add (vec_mul a.1 v) a.2;
  transform_col_norms a := vec_cwiseAbs a.1;
  transform_transpose_apply a v := vec_mul a.1 v;
  extract_euler_angles a := Vec3d_Zero;
  rotation_diff_z from to := (vz to - vz from)%float;
  rotation_xyz_diff_angle_axis from to := (mkVec3d 0 0 1, (vz to - vz from)%float);
  angle_axis_z a v :=
    mkVec3d (cos_series a * vx v - sin_series a * vy v)
      (sin_series a * vx v + cos_series a * vy v) (vz v);
  is_rotation_ninety_degrees r :=
    (abs (vx r) <? 0x1.0624dd2f1a9fcp-10)%float
    && (abs (vy r) <? 0x1.0624dd2f1a9fcp-10)%float
    && (abs (vz r) <? 0x1.0624dd2f1a9fcp-10)%float;
  vec_isApprox a b :=
    (squaredNorm (vec_sub a b)
     <=? 0x1.357c299a88ea7p-80 * std_min (squaredNorm a) (squaredNorm b))%float;
  is_approx x y := (abs (x - y) <? 0x1.a36e2eb1c432dp-14)%float;
  EPSILON := 0x1.a36e2eb1c432dp-14%float;
  store_offset ax old new := new;
  store_rotation ax old new := new;
  store_scaling_factor ax old new := new;
  store_mirror ax old new := new;
  transformed_convex_hull_bounding_box := world_box;
  transformed_bounding_box := world_box;
  bb_merge := merge;
  bb_center b :=
    mkVec3d ((vx (bb_min b) + vx (bb_max b)) / 2) ((vy (bb_min b) + vy (bb_max b)) / 2)
      ((vz (bb_min b) + vz (bb_max b)) / 2)
|}.

End ExampleGeometry.

(** * Vocabulary of the statements *)

(** The selected flags, as a list. *)
Definition flags (s : Selection) : list bool := selected <$> the_volumes s.

(** The invariant together with the length of the volume list, which no
    mutator changes. *)
Definition inv_n (n : nat) (s : Selection) : Prop :=
  selection_invariant s ∧ length (the_volumes s) = n.

(** The first snapshot request a call makes records the selection as the
    call found it. *)
Definition snapshot_first (s s' : Selection) : Prop :=
  ∃ call rest,
    snapshot_calls (app s') = snapshot_calls (app s) ++ call :: rest
    ∧ sc_list call = m_list s ∧ sc_mode call = m_mode s.


(** A volume without its two flags; the mutators change nothing else. *)
Definition unflagged (v : GLVolume) : GLVolume := set_disabled false (set_selected false v).

Definition scene (s : Selection) : list GLVolume := unflagged <$> the_volumes s.

(** A test on a volume that does not read its flags. *)
Definition flag_blind (Q : GLVolume → bool) : Prop := ∀ v, Q (unflagged v) = Q v.

(** The loops that add every volume passing a test. *)
Definition add_where (Q : GLVolume → bool) (s : Selection) (l : list nat) : Selection :=
  foldl
    (λ s i,
       match the_volumes s !! i with
       | Some v => if Q v then do_add_volume i s else s
       | None => s
       end)
    s l.

(** Volumes that carry the same geometry identifier belong to the same
    object. *)
Definition geometry_ids_name_objects (s : Selection) : Prop :=
  ∀ i j vi vj,
    the_volumes s !! i = Some vi → the_volumes s !! j = Some vj →
    geometry_id vi = geometry_id vj → object_idx vi = object_idx vj.

(** The order a comparison [lt] sorts by: [a] is not after [b]. *)
Definition sorted_le {A : Type} (lt : A → A → bool) (a b : A) : Prop := lt b a = false.

Section EngineVocabulary.
Context {G : Geometry}.

(** What a step of the transform engine leaves alone: everything but the
    transformations of the volumes and the presence of cache entries. *)
Record engine_frame (s s' : Selection) : Prop := {
  ef_model : m_model s' = m_model s;
  ef_mode : m_mode s' = m_mode s;
  ef_type : m_type s' = m_type s;
  ef_valid : m_valid s' = m_valid s;
  ef_list : m_list s' = m_list s;
  ef_content : content (m_cache s') = content (m_cache s);
  ef_center : dragging_center (m_cache s') = dragging_center (m_cache s);
  ef_cache : ∀ k, cache_at k s' = cache_at k s;
  ef_ids : composite_id <$> the_volumes s' = composite_id <$> the_volumes s
}.

(** [v'] is [v] with another instance transformation that has the same
    offset, and the same rotation when the policy is NONE. *)
Definition kept (t : SyncRotationType) (v v' : GLVolume) : Prop :=
  ∃ T, v' = set_instance_transformation T v
       ∧ t_offset T = t_offset (instance_transformation v)
       ∧ (t = SYNC_ROTATION_NONE → t_rotation T = t_rotation (instance_transformation v)).

Definition sync_inv (t : SyncRotationType) (s : Selection) (st : Selection * gset nat)
  : Prop :=
  m_list s ⊆ st.2
  ∧ engine_frame s st.1
  ∧ ∀ k v, the_volumes s !! k = Some v →
           ∃ v', the_volumes st.1 !! k = Some v' ∧ kept t v v' ∧ (k ∈ m_list s → v' = v).

(** The factors [scale] stores for an instance in that case. *)
Definition world_scaling_factor (factors : Vec3d) (v : GLVolume) : Vec3d :=
  vec_cwiseAbs
    (transform_transpose_apply
       (get_matrix (instance_transformation v) true false true true) factors).




(** The lowest hull points of the volumes of instance [(o, n)] that are
    neither modifiers nor the wipe tower, in the order of the volume list. *)
Definition instance_hull_min_zs (vols : list GLVolume) (o n : Z) : list float :=
  omap
    (λ volume,
       if negb (is_wipe_tower volume) && negb (is_modifier volume)
          && bool_decide ((object_idx volume, instance_idx volume) = (o, n))
       then Some (vz (bb_min (transformed_convex_hull_bounding_box volume)))
       else None)
    vols.

(** The minimum [ensure_on_bed] measures for an instance: none when the
    instance owns no such volume. *)
Definition instance_min_z (vols : list GLVolume) (o n : Z) : option float :=
  match instance_hull_min_zs vols o n with
  | [] => None
  | zs => Some (foldl std_min DBL_MAX zs)
  end.

(** The lowest hull point of a volume, as [ensure_on_bed] measures it. *)
Definition hull_min_z (volume : GLVolume) : float :=
  vz (bb_min (transformed_convex_hull_bounding_box volume)).

(** The volume counts for the minimum of instance [(o, n)]: it belongs to
    the instance and is neither the wipe tower nor a modifier. *)
Definition counted_in (o n : Z) (volume : GLVolume) : bool :=
  negb (is_wipe_tower volume) && negb (is_modifier volume)
  && bool_decide ((object_idx volume, instance_idx volume) = (o, n)).

(** The volume with the Z offset of its instance lowered by [z]. *)
Definition lowered (z : float) (volume : GLVolume) : GLVolume :=
  set_instance_transformation
    (Transformation_set_offset_axis Z_axis (vz (get_instance_offset volume) - z)%float
       (instance_transformation volume))
    volume.

End EngineVocabulary.

(** ** Vocabulary of the further statements *)

(** The values of an [int]. *)
Definition int_range (z : Z) : Prop := - 2 ^ 31 ≤ z < 2 ^ 31.

(** The instance indices, in the order of [l], of the volumes at the
    indices of [l] that belong to object [o]. *)
Definition instances_listed (vols : list GLVolume) (l : list nat) (o : Z) : list Z :=
  omap
    (λ i, match vols !! i with
          | Some v => if object_idx v =? o then Some (instance_idx v) else None
          | None => None
          end)
    l.

(** The types of a selection that covers whole objects or instances. *)
Definition is_full_type (t : EType) : bool :=
  match t with
  | SingleFullObject | SingleFullInstance | MultipleFullObject | MultipleFullInstance => true
  | _ => false
  end.



(** A volume without its two transformations; the transform engine
    changes nothing else of a volume. *)
Definition untransformed (v : GLVolume) : GLVolume :=
  set_volume_transformation Transformation_default
    (set_instance_transformation Transformation_default v).

(** The volumes of [s'] are those of [s] up to their transformations. *)
Definition same_parts (s s' : Selection) : Prop :=
  untransformed <$> the_volumes s' = untransformed <$> the_volumes s.

(** [v] is a copy of the part [u] in an object of the model: same object
    and same part index. *)
Definition same_part (u v : GLVolume) : Prop :=
  object_idx v = object_idx u ∧ volume_idx v = volume_idx u ∧ object_idx u < 1000.

Section FurtherVocabulary.
Context {G : Geometry}.

(** The instance transformation [translate] stores for a volume of a
    fully selected instance: the cached position moved by the
    displacement. *)
Definition moved_from_cache (displacement : Vec3d) (c : VolumeCache) (T : Transformation)
  : Transformation :=
  Transformation_set_offset (vec_add (t_offset (vc_instance c)) displacement) T.

(** The volume transformation of [dst] after the four setters were given
    the offset, rotation, scaling factor and mirror of [src]. *)
Definition copied_volume_transformation (src dst : Transformation) : Transformation :=
  Transformation_set_mirror (t_mirror src)
    (Transformation_set_scaling_factor (t_scaling_factor src)
       (Transformation_set_rotation (t_rotation src)
          (Transformation_set_offset (t_offset src) dst))).

(** One pass of [synchronize_unselected_volumes] over the volume list, for
    the selected index [i]: every volume at another index with the object
    index and the part index of the volume at [i] is given the offset,
    rotation, scaling factor and mirror of its volume transformation;
    nothing is done for an object index of 1000 or more. *)
Definition sync_pass (i : nat) (vols : list GLVolume) : list GLVolume :=
  match vols !! i with
  | None => vols
  | Some volume =>
      if 1000 <=? object_idx volume then vols
      else
        imap
          (λ j v,
             if (j =? i)%nat then v
             else if negb (object_idx v =? object_idx volume)
                     || negb (volume_idx v =? volume_idx volume)
             then v
             else set_volume_transformation
                    (copied_volume_transformation (volume_transformation volume)
                       (volume_transformation v)) v)
          vols
  end.

(** The volume [v] with its instance offset moved by the displacement. *)
Definition moved_by (displacement : Vec3d) (v : GLVolume) : GLVolume :=
  set_instance_transformation
    (Transformation_set_offset (vec_add (get_instance_offset v) displacement)
       (instance_transformation v))
    v.

(** The test [follows] of the selected volume [u] on index [k] of the
    volume list. *)
Definition follows_at (follows : GLVolume → GLVolume → bool) (vols : list GLVolume)
    (u : GLVolume) (k : nat) : bool :=
  match vols !! k with Some v => follows u v | None => false end.

(** Some selected volume of [l], of an object of the model, is followed by
    index [k]. *)
Definition followed (follows : GLVolume → GLVolume → bool) (vols : list GLVolume)
    (l : list nat) (k : nat) : bool :=
  existsb
    (λ i, match vols !! i with
          | Some u => negb (1000 <=? object_idx u) && follows_at follows vols u k
          | None => false
          end)
    l.

End FurtherVocabulary.

(** * Concrete platers *)

Module Example.
Import ExampleGeometry.

(** The application services before any request. *)
Definition services : App := mkApp [] 0 true [].

(** A printable part or a modifier: a box from [low] to [(1, 1, 1)]
    placed at [offset]. *)
Definition part (o v i : Z) (id : N * N) (modifier wipe_tower : bool)
    (low offset : Vec3d) : GLVolume :=
  mkGLVolume (mkCompositeID o v i) id false false modifier wipe_tower
    (mkTransformation offset Vec3d_Zero Vec3d_Ones Vec3d_Ones) Transformation_default
    [low; mkVec3d 1 1 1].

Definition object_of (volume_count instance_count : nat) : ModelObject :=
  mkModelObject (replicate volume_count (mkModelVolume 0))
    (replicate instance_count (mkModelInstance 0)).

(** A plater with three instances of a one-part object, one instance of
    another and the wipe tower. *)
Definition plater : list GLVolume :=
  [ part 0 0 0 (1, 11)%N false false Vec3d_Zero Vec3d_Zero;
    part 0 0 1 (1, 12)%N false false Vec3d_Zero (mkVec3d 10 0 0);
    part 0 0 2 (1, 13)%N false false Vec3d_Zero (mkVec3d 20 0 0);
    part 1 0 0 (2, 21)%N false false Vec3d_Zero (mkVec3d 0 10 0);
    part 1000 0 0 (0, 0)%N false true Vec3d_Zero (mkVec3d 50 50 0) ].

Definition plater_model : Model := mkModel [object_of 1 3; object_of 1 1].

(** The selection bound to the plater, nothing selected. *)
Definition bound : Selection :=
  set_model (Some plater_model) (set_volumes (Some plater) (Selection_new services)).

(** The selection bound to the volumes only: the model is still missing. *)
Definition half_bound : Selection := set_volumes (Some plater) (Selection_new services).

(** Two of the three instances selected and a drag started. *)
Definition two_instances_dragged : Selection :=
  start_dragging (add_instance 0 1 false (add_instance 0 0 true bound)).

Definition world_absolute_joint : TransformationType := mkTransformationType true false true.

(** An instance turned by half a radian about Z, alone on the plater and
    selected. *)
Definition turned_plater : list GLVolume :=
  [ set_instance_transformation
      (mkTransformation Vec3d_Zero (mkVec3d 0 0 0.5) Vec3d_Ones Vec3d_Ones)
      (part 0 0 0 (1, 11)%N false false Vec3d_Zero Vec3d_Zero) ].

Definition turned_instance : Selection :=
  start_dragging
    (add_instance 0 0 true
       (set_model (Some (mkModel [object_of 1 2]))
          (set_volumes (Some turned_plater) (Selection_new services)))).

(** A part and the wipe tower, the wipe tower selected. *)
Definition tower_plater : list GLVolume :=
  [ part 0 0 0 (1, 11)%N false false Vec3d_Zero Vec3d_Zero;
    part 1000 0 0 (0, 0)%N false true Vec3d_Zero (mkVec3d 50 50 0) ].

Definition tower_selected : Selection :=
  add 1 true true
    (set_model (Some (mkModel [object_of 1 1]))
       (set_volumes (Some tower_plater) (Selection_new services))).

(** A part whose lowest point is a tenth above its origin, lifted by two
    tenths. *)
Definition lifted_plater : list GLVolume :=
  [ part 0 0 0 (1, 11)%N false false (mkVec3d 0 0 0x1.999999999999ap-4)
      (mkVec3d 0 0 0x1.999999999999ap-3) ].

Definition lifted : Selection :=
  set_model (Some (mkModel [object_of 1 1]))
    (set_volumes (Some lifted_plater) (Selection_new services)).

(** Two parts of one instance, the lower one half above its origin, both
    lifted by a quarter: numbers on which the arithmetic is exact. *)
Definition raised_plater : list GLVolume :=
  [ part 0 0 0 (1, 11)%N false false (mkVec3d 0 0 0.5) (mkVec3d 0 0 0.25);
    part 0 1 0 (2, 11)%N false false (mkVec3d 0 0 0.75) (mkVec3d 0 0 0.25) ].

Definition raised : Selection :=
  set_model (Some (mkModel [object_of 2 1]))
    (set_volumes (Some raised_plater) (Selection_new services)).

(** Three instances of a one-part object whose parts were moved apart
    inside their instances, the first two instances selected. *)
Definition copies_plater : list GLVolume :=
  [ set_volume_transformation
      (mkTransformation (mkVec3d 1 0 0) Vec3d_Zero Vec3d_Ones Vec3d_Ones)
      (part 0 0 0 (1, 11)%N false false Vec3d_Zero Vec3d_Zero);
    set_volume_transformation
      (mkTransformation (mkVec3d 2 0 0) Vec3d_Zero Vec3d_Ones Vec3d_Ones)
      (part 0 0 1 (1, 12)%N false false Vec3d_Zero (mkVec3d 10 0 0));
    set_volume_transformation
      (mkTransformation (mkVec3d 3 0 0) Vec3d_Zero Vec3d_Ones Vec3d_Ones)
      (part 0 0 2 (1, 13)%N false false Vec3d_Zero (mkVec3d 20 0 0)) ].

Definition two_copies : Selection :=
  add_instance 0 1 false
    (add_instance 0 0 true
       (set_model (Some (mkModel [object_of 1 3]))
          (set_volumes (Some copies_plater) (Selection_new services)))).

(** The first instance selected by one of its volumes. *)
Definition one_instance : Selection := add 0 true true bound.

(** The first instance selected and a drag started. *)
Definition one_instance_dragged : Selection := start_dragging (add_instance 0 0 true bound).

End Example.

(** * Proofs *)

(** Projections of the state after its setters. *)
Ltac proj_simpl :=
  cbn [m_volumes m_model m_mode m_type m_valid m_list m_cache m_bounding_box
       m_bounding_box_dirty m_unscaled_instance_bounding_box_dirty
       m_scaled_instance_bounding_box_dirty app set_m_volumes set_m_model
       set_m_mode set_m_type set_m_valid set_m_list set_m_cache
       set_m_bounding_box set_app set_bounding_boxes_dirty with_volumes
       take_snapshot suppress_snapshots allow_snapshots ui_call
       snapshot_calls prevent_snapshots obj_manipul_present ui_calls] in *.

Lemma the_volumes_with_volumes f s :
  f [] = [] → the_volumes (with_volumes f s) = f (the_volumes s).
Proof. intros Hf. unfold the_volumes, with_volumes. simpl. by destruct (m_volumes s). Qed.

Lemma elem_of_m_list_order s i : i ∈ m_list_order s ↔ i ∈ m_list s.
Proof.
  unfold m_list_order. rewrite merge_sort_Permutation. apply elem_of_elements.
Qed.

Lemma NoDup_m_list_order s : NoDup (m_list_order s).
Proof.
  unfold m_list_order. rewrite merge_sort_Permutation. apply NoDup_elements.
Qed.

Lemma m_list_order_empty s : m_list s = ∅ → m_list_order s = [].
Proof. intros H. unfold m_list_order. rewrite H. reflexivity. Qed.

Lemma usize_le {A} (l : list A) : (usize l ≤ length l)%nat.
Proof.
  unfold usize, u32.
  pose proof (Z.mod_le (Z.of_nat (length l)) (2 ^ 32)) as H.
  pose proof (Z.mod_pos_bound (Z.of_nat (length l)) (2 ^ 32)).
  lia.
Qed.

Lemma usize_fit {A} (l : list A) : Z.of_nat (length l) < 2 ^ 32 → usize l = length l.
Proof.
  intros H. unfold usize, u32. rewrite Z.mod_small by lia. lia.
Qed.

Lemma flags_alter_selected b i (l : list GLVolume) :
  selected <$> alter (set_selected b) i l = alter (λ _, b) i (selected <$> l).
Proof.
  apply list_fmap_alter, Forall_forall. by intros.
Qed.

Lemma update_type_m_list s : m_list (update_type s) = m_list s.
Proof. unfold update_type. by destruct (update_type_classify _) as [[??]?]. Qed.

Lemma update_type_flags s : flags (update_type s) = flags s.
Proof.
  unfold update_type, flags. destruct (update_type_classify _) as [[??]?].
  rewrite the_volumes_with_volumes by done. simpl.
  rewrite <-list_fmap_compose. apply list_fmap_ext. by intros ? [].
Qed.

Lemma length_flags s : length (flags s) = length (the_volumes s).
Proof. apply length_fmap. Qed.

Lemma update_type_length s : length (the_volumes (update_type s)) = length (the_volumes s).
Proof. rewrite <-!length_flags. by rewrite update_type_flags. Qed.

Lemma flags_set_selected b i s :
  flags (with_volumes (alter (set_selected b) i) s) = alter (λ _, b) i (flags s).
Proof.
  unfold flags. rewrite the_volumes_with_volumes by done. apply flags_alter_selected.
Qed.

Lemma inv_n_same n s s' :
  m_list s' = m_list s → flags s' = flags s → inv_n n s → inv_n n s'.
Proof.
  intros Hl Hf [Hinv Hn]. split.
  - intros i. fold (flags s'). rewrite Hl, Hf. apply Hinv.
  - rewrite <-length_flags, Hf, length_flags. done.
Qed.

Lemma inv_n_update_type n s : inv_n n s → inv_n n (update_type s).
Proof. apply inv_n_same; [apply update_type_m_list | apply update_type_flags]. Qed.

Lemma inv_n_do_add_volume n i s : (i < n)%nat → inv_n n s → inv_n n (do_add_volume i s).
Proof.
  intros Hi [Hinv Hn]. unfold do_add_volume. split.
  - intros j. fold (flags (with_volumes (alter (set_selected true) i) (set_m_list ({[i]} ∪ m_list s) s))).
    rewrite flags_set_selected. simpl.
    change (flags (set_m_list ({[i]} ∪ m_list s) s)) with (flags s).
    rewrite elem_of_union, elem_of_singleton, list_lookup_alter.
    specialize (Hinv j). fold (flags s) in Hinv.
    destruct (decide (i = j)) as [->|Hne].
    + destruct (flags s !! j) eqn:E; simpl.
      * naive_solver.
      * apply lookup_ge_None in E. rewrite length_flags in E. lia.
    + rewrite <-Hinv. naive_solver.
  - rewrite the_volumes_with_volumes by done. rewrite length_alter. done.
Qed.

Lemma inv_n_do_remove_volume n i s : inv_n n s → inv_n n (do_remove_volume i s).
Proof.
  intros [Hinv Hn]. unfold do_remove_volume. destruct (decide (i ∈ m_list s)); [|done].
  split.
  - intros j. fold (flags (with_volumes (alter (set_selected false) i) (set_m_list (m_list s ∖ {[i]}) s))).
    rewrite flags_set_selected. simpl.
    change (flags (set_m_list (m_list s ∖ {[i]}) s)) with (flags s).
    rewrite elem_of_difference, elem_of_singleton, list_lookup_alter.
    specialize (Hinv j). fold (flags s) in Hinv.
    destruct (decide (i = j)) as [->|Hne].
    + destruct (flags s !! j); simpl; naive_solver.
    + rewrite <-Hinv. naive_solver.
  - rewrite the_volumes_with_volumes by done. rewrite length_alter. done.
Qed.

Lemma foldl_preserves {A B} (P : A → Prop) (f : A → B → A) l a :
  (∀ a b, b ∈ l → P a → P (f a b)) → P a → P (foldl f a l).
Proof.
  revert a. induction l as [|b l IH]; intros a Hf Ha; simpl; [done|].
  apply IH.
  - intros a' b' Hb'. apply Hf. by right.
  - apply Hf; [by left | done].
Qed.

(** Clearing the flags listed in [l]. *)
Lemma flags_clear_list l s :
  flags (foldl (λ s i, with_volumes (alter (set_selected false) i) s) s l)
  = foldl (λ f i, alter (λ _, false) i f) (flags s) l.
Proof.
  revert s. induction l as [|i l IH]; intros s; simpl; [done|].
  rewrite IH. by rewrite flags_set_selected.
Qed.

Lemma m_list_clear_list l s :
  m_list (foldl (λ s i, with_volumes (alter (set_selected false) i) s) s l) = m_list s.
Proof. revert s. induction l as [|i l IH]; intros s; simpl; [done|]. by rewrite IH. Qed.

Lemma lookup_clear_list (l : list nat) (f : list bool) j :
  foldl (λ f i, alter (λ _, false) i f) f l !! j = Some true
  ↔ f !! j = Some true ∧ j ∉ l.
Proof.
  revert f. induction l as [|i l IH]; intros f; simpl.
  - rewrite elem_of_nil. naive_solver.
  - rewrite IH, list_lookup_alter, not_elem_of_cons.
    destruct (decide (i = j)) as [->|]; [|naive_solver].
    destruct (f !! j); simpl; naive_solver.
Qed.

Lemma length_clear_list (l : list nat) (f : list bool) :
  length (foldl (λ f i, alter (λ _, false) i f) f l) = length f.
Proof. revert f. induction l as [|i l IH]; intros f; simpl; [done|]. by rewrite IH, length_alter. Qed.

Lemma inv_n_clear_flags n s :
  inv_n n s →
  inv_n n (set_m_list ∅
             (foldl (λ s i, with_volumes (alter (set_selected false) i) s) s (m_list_order s))).
Proof.
  intros [Hinv Hn]. split.
  - intros j. simpl.
    match goal with |- _ ↔ ?f !! j = _ =>
      change f with (flags (foldl (λ s i, with_volumes (alter (set_selected false) i) s) s (m_list_order s)))
    end.
    rewrite flags_clear_list, lookup_clear_list, elem_of_m_list_order.
    specialize (Hinv j). fold (flags s) in Hinv. set_solver.
  - rewrite <-length_flags.
    change (flags (set_m_list ∅ ?x)) with (flags x).
    rewrite flags_clear_list, length_clear_list, length_flags. done.
Qed.

Lemma inv_n_clear n s : inv_n n s → inv_n n (clear s).
Proof.
  intros H. unfold clear.
  destruct (negb (m_valid s)); [done|].
  case_bool_decide; [done|].
  assert (inv_n n (set_bounding_boxes_dirty (update_type (set_m_list ∅
     (foldl (λ s i, with_volumes (alter (set_selected false) i) s) s (m_list_order s)))))) as H'.
  { eapply inv_n_same; [| |apply inv_n_update_type, inv_n_clear_flags, H]; done. }
  destruct (negb _); [done|].
  eapply inv_n_same; [| |apply H']; done.
Qed.

Lemma inv_n_do_add_volumes n idxs s : inv_n n s → inv_n n (do_add_volumes idxs s).
Proof.
  intros H. unfold do_add_volumes. apply foldl_preserves; [|done].
  intros s' i _ Hs'. destruct (_ <? _)%nat eqn:E; [|done].
  apply Nat.ltb_lt in E. pose proof (usize_le (the_volumes s')).
  apply inv_n_do_add_volume; [|done]. destruct Hs' as [_ <-]. lia.
Qed.

Lemma inv_n_do_remove_where n P s : inv_n n s → inv_n n (do_remove_where P s).
Proof.
  intros H. unfold do_remove_where. apply foldl_preserves; [|done].
  intros s' i _ Hs'. destruct (_ !! _); [|done]. destruct (P _); [|done].
  by apply inv_n_do_remove_volume.
Qed.

Lemma inv_n_frame n s s' :
  m_list s' = m_list s → m_volumes s' = m_volumes s → inv_n n s → inv_n n s'.
Proof. intros Hl Hv. apply inv_n_same; [done|]. unfold flags, the_volumes. by rewrite Hv. Qed.

Ltac inv_frame := eapply inv_n_frame; [reflexivity | reflexivity | ].

Lemma inv_n_add_instance n o i single s : inv_n n s → inv_n n (add_instance o i single s).
Proof.
  intros H. unfold add_instance.
  destruct (negb (m_valid s)); [done|]. destruct (_ || _); [done|].
  inv_frame. apply inv_n_update_type, inv_n_do_add_volumes. inv_frame.
  destruct single; [apply inv_n_clear|]; by inv_frame.
Qed.

Lemma inv_n_run_call n c s : inv_n n s → inv_n n (run_call c s).
Proof.
  intros H. destruct c; simpl.
  - (* add *)
    unfold add. destruct (_ || _); [done|].
    destruct (the_volumes s !! i) as [volume|] eqn:Ev; [|done].
    destruct (_ && _); [done|].
    match goal with |- inv_n _ (if ?c then _ else _) => destruct c; [|done] end.
    inv_frame. apply inv_n_update_type.
    assert (i < n)%nat as Hi.
    { destruct H as [_ <-]. by eapply lookup_lt_Some. }
    match goal with
    | |- inv_n _ (match m_mode (if ?k then ?a else set_m_mode ?m ?a) with _ => _ end) =>
        assert (inv_n n a) as H2;
        [ destruct (_ || _); [apply inv_n_clear|]; by inv_frame
        | assert (inv_n n (if k then a else set_m_mode m a)) as H3;
          [ destruct k; [done | by inv_frame] | ];
          generalize dependent (if k then a else set_m_mode m a) ]
    end.
    intros s3 H3. destruct (m_mode s3).
    + match goal with |- inv_n _ (if ?c then _ else _) => destruct c end; [|done].
      by apply inv_n_do_add_volume.
    + inv_frame. apply inv_n_add_instance. by inv_frame.
  - (* remove *)
    unfold remove. destruct (_ || _); [done|]. destruct (negb _); [done|].
    destruct (_ !! _) as [volume|]; [|by inv_frame].
    inv_frame. apply inv_n_update_type.
    destruct (m_mode _).
    + apply inv_n_do_remove_volume. by inv_frame.
    + apply inv_n_do_remove_where. by inv_frame.
  - (* add_object *)
    unfold add_object.
    destruct (negb (m_valid s)); [done|]. destruct (_ || _); [done|].
    inv_frame. apply inv_n_update_type, inv_n_do_add_volumes. inv_frame.
    destruct as_single_selection; [apply inv_n_clear|]; by inv_frame.
  - (* remove_object *)
    unfold remove_object. destruct (negb (m_valid s)); [done|].
    inv_frame. apply inv_n_update_type, inv_n_do_remove_where. by inv_frame.
  - by apply inv_n_add_instance.
  - (* remove_instance *)
    unfold remove_instance. destruct (negb (m_valid s)); [done|].
    inv_frame. apply inv_n_update_type, inv_n_do_remove_where. by inv_frame.
  - (* add_volume *)
    unfold add_volume.
    destruct (negb (m_valid s)); [done|]. destruct (_ || _); [done|].
    inv_frame. apply inv_n_update_type, inv_n_do_add_volumes. inv_frame.
    destruct as_single_selection; [apply inv_n_clear|]; done.
  - (* remove_volume *)
    unfold remove_volume. destruct (negb (m_valid s)); [done|].
    inv_frame. by apply inv_n_update_type, inv_n_do_remove_where.
  - (* add_volumes *)
    unfold add_volumes.
    destruct (negb (m_valid s)); [done|]. destruct (_ || _); [done|].
    inv_frame. apply inv_n_update_type, inv_n_do_add_volumes. inv_frame.
    destruct as_single_selection; [apply inv_n_clear|]; done.
  - (* remove_volumes *)
    unfold remove_volumes. destruct (negb (m_valid s)); [done|].
    inv_frame. apply inv_n_update_type. apply foldl_preserves; [|by inv_frame].
    intros s' i _ Hs'. destruct (_ <? _)%nat; [|done]. by apply inv_n_do_remove_volume.
  - (* add_all *)
    unfold add_all. destruct (negb (m_valid s)); [done|]. destruct (_ =? _); [done|].
    inv_frame. apply inv_n_update_type. apply foldl_preserves.
    + intros s' i _ Hs'. destruct (the_volumes s' !! i) eqn:E; [|done].
      destruct (negb _); [|done]. apply inv_n_do_add_volume; [|done].
      destruct Hs' as [_ <-]. by eapply lookup_lt_Some.
    + apply inv_n_clear. by inv_frame.
  - (* remove_all *)
    unfold remove_all. destruct (negb (m_valid s)); [done|]. destruct (is_empty s); [done|].
    apply inv_n_clear. by inv_frame.
  - by apply inv_n_clear.
  - (* set_deserialized *)
    unfold set_deserialized. destruct (negb (m_valid s)); [done|].
    inv_frame. apply inv_n_update_type. apply foldl_preserves.
    + intros s' i _ Hs'. destruct (the_volumes s' !! i) eqn:E; [|done].
      destruct (binary_search _ _ _); [|done]. apply inv_n_do_add_volume; [|done].
      destruct Hs' as [_ <-]. by eapply lookup_lt_Some.
    + apply (inv_n_clear_flags n (set_m_mode mode s)). by inv_frame.
Qed.

(** C1. Along every sequence of calls of the selection mutators ([add],
    [remove], [add_object], [remove_object], [add_instance],
    [remove_instance], [add_volume], [remove_volume], [add_volumes],
    [remove_volumes], [add_all], [remove_all], [clear],
    [set_deserialized]) that starts in a state where the selected flags
    follow the index set, they still do afterwards: a volume's flag is set
    exactly when its index is in [m_list]. *)
Theorem selection_invariant_preserved (calls : list Call) (s : Selection) :
  selection_invariant s → selection_invariant (run_calls calls s).
Proof.
  intros H.
  assert (inv_n (length (the_volumes s)) (run_calls calls s)) as [? _]; [|done].
  unfold run_calls. apply foldl_preserves; [|by split].
  intros s' c _. apply inv_n_run_call.
Qed.

(** ** Snapshot requests *)

Local Notation calls s := (snapshot_calls (app s)) (only parsing).

Lemma app_update_type s : app (update_type s) = app s.
Proof. unfold update_type. by destruct (update_type_classify _) as [[??]?]. Qed.

Lemma app_do_add_volumes idxs s : app (do_add_volumes idxs s) = app s.
Proof.
  unfold do_add_volumes. apply (foldl_preserves (λ s', app s' = app s)); [|done].
  intros s' i _ Hs'. by destruct (_ <? _)%nat.
Qed.

Lemma app_do_remove_volume i s : app (do_remove_volume i s) = app s.
Proof. unfold do_remove_volume. by destruct (decide _). Qed.

Lemma app_do_remove_where P s : app (do_remove_where P s) = app s.
Proof.
  unfold do_remove_where. apply (foldl_preserves (λ s', app s' = app s)); [|done].
  intros s' i _ Hs'. destruct (_ !! _); [|done]. destruct (P _); [|done].
  by rewrite app_do_remove_volume.
Qed.

Lemma app_clear_list l s :
  app (foldl (λ s i, with_volumes (alter (set_selected false) i) s) s l) = app s.
Proof. by apply (foldl_preserves (λ s', app s' = app s)). Qed.

Lemma calls_clear s : calls (clear s) = calls s.
Proof.
  unfold clear. destruct (negb (m_valid s)); [done|].
  case_bool_decide; [done|].
  destruct (negb _); proj_simpl; rewrite app_update_type; proj_simpl; by rewrite app_clear_list.
Qed.

Lemma calls_take_snapshot label s :
  calls (take_snapshot label s)
  = calls s ++ [mkSnapshotCall label (bool_decide (prevent_snapshots (app s) ≠ 0%nat))
                  (m_mode s) (m_list s)].
Proof. done. Qed.

Lemma calls_add_instance o i single s :
  calls (add_instance o i single s) = calls s
  ∨ ∃ c, calls (add_instance o i single s) = calls s ++ [c].
Proof.
  unfold add_instance. destruct (negb (m_valid s)); [by left|].
  destruct (_ || _); [by left|]. right. eexists.
  proj_simpl. rewrite app_update_type, app_do_add_volumes. proj_simpl.
  destruct single; [rewrite calls_clear|]; reflexivity.
Qed.

Lemma snapshot_first_intro label s s' rest :
  calls s' = calls (take_snapshot label s) ++ rest → snapshot_first s s'.
Proof.
  intros H. rewrite calls_take_snapshot, <-app_assoc in H.
  eexists _, rest. split; [exact H | done].
Qed.

Lemma snapshot_first_or_unchanged c s :
  requests_snapshot c = true → run_call c s = s ∨ snapshot_first s (run_call c s).
Proof.
  destruct c; simpl; try discriminate; intros _.
  - (* add *)
    unfold add. destruct (_ || _); [by left|].
    destruct (the_volumes s !! i) as [volume|]; [|by left].
    destruct (_ && _); [by left|].
    match goal with |- (if ?c then _ else _) = _ ∨ _ => destruct c; [|by left] end.
    right.
    match goal with
    | |- snapshot_first _ (_ (_ (match m_mode (if ?k then ?a else set_m_mode ?m ?a) with _ => _ end))) =>
        assert (calls a = calls (take_snapshot "Selection-Add" s)) as H2
          by (match goal with |- context [if ?c then _ else _] => destruct c end;
              [apply calls_clear | done]);
        assert (calls (if k then a else set_m_mode m a) = calls a) as H3 by (by destruct k);
        generalize dependent (if k then a else set_m_mode m a); intros s3 H3
    end.
    destruct (m_mode s3).
    + apply (snapshot_first_intro "Selection-Add" _ _ []). rewrite app_nil_r, <-H2, <-H3.
      proj_simpl. rewrite app_update_type.
      match goal with |- context [if ?c then _ else _] => by destruct c end.
    + destruct (calls_add_instance (unsigned_cast (object_idx volume))
                  (unsigned_cast (instance_idx volume)) as_single_selection
                  (suppress_snapshots s3)) as [E|[c E]].
      * apply (snapshot_first_intro "Selection-Add" _ _ []). rewrite app_nil_r, <-H2, <-H3.
        proj_simpl. rewrite app_update_type. proj_simpl. apply E.
      * apply (snapshot_first_intro "Selection-Add" _ _ [c]). rewrite <-H2, <-H3.
        proj_simpl. rewrite app_update_type. proj_simpl. apply E.
  - (* remove *)
    unfold remove. destruct (_ || _); [by left|]. destruct (negb _); [by left|]. right.
    apply (snapshot_first_intro "Selection-Remove" _ _ []). rewrite app_nil_r.
    destruct (_ !! _) as [volume|]; [|done].
    proj_simpl. rewrite app_update_type.
    destruct (m_mode s) eqn:Em; [rewrite app_do_remove_volume|];
      unfold do_remove_instance; rewrite ?app_do_remove_where; proj_simpl; by rewrite Em.
  - (* add_object *)
    unfold add_object. destruct (negb (m_valid s)); [by left|].
    destruct (_ || _); [by left|]. right.
    apply (snapshot_first_intro "Selection-Add Object" _ _ []). rewrite app_nil_r.
    proj_simpl. rewrite app_update_type, app_do_add_volumes. simpl.
    destruct as_single_selection; [apply calls_clear | done].
  - (* remove_object *)
    unfold remove_object. destruct (negb (m_valid s)); [by left|]. right.
    apply (snapshot_first_intro "Selection-Remove Object" _ _ []). rewrite app_nil_r.
    unfold do_remove_object. proj_simpl.
    by rewrite app_update_type, app_do_remove_where.
  - (* add_instance *)
    unfold add_instance. destruct (negb (m_valid s)); [by left|].
    destruct (_ || _); [by left|]. right.
    apply (snapshot_first_intro "Selection-Add Instance" _ _ []). rewrite app_nil_r.
    proj_simpl. rewrite app_update_type, app_do_add_volumes. simpl.
    destruct as_single_selection; [apply calls_clear | done].
  - (* remove_instance *)
    unfold remove_instance. destruct (negb (m_valid s)); [by left|]. right.
    apply (snapshot_first_intro "Selection-Remove Instance" _ _ []). rewrite app_nil_r.
    unfold do_remove_instance. proj_simpl.
    by rewrite app_update_type, app_do_remove_where.
  - (* add_all *)
    unfold add_all. destruct (negb (m_valid s)); [by left|]. destruct (_ =? _); [by left|].
    right. apply (snapshot_first_intro "Selection-Add All" _ _ []). rewrite app_nil_r.
    proj_simpl. rewrite app_update_type.
    match goal with |- snapshot_calls (app (foldl ?f ?a ?l)) = _ =>
      transitivity (calls a);
      [ apply (foldl_preserves (λ s', snapshot_calls (app s') = calls a)); [|done] | ]
    end.
    + intros s' i _ Hs'. destruct (_ !! _); [|done]. by destruct (negb _).
    + apply calls_clear.
  - (* remove_all *)
    unfold remove_all. destruct (negb (m_valid s)); [by left|]. destruct (is_empty s); [by left|].
    right. apply (snapshot_first_intro "Selection-Remove All" _ _ []). rewrite app_nil_r.
    by rewrite calls_clear.
Qed.

Lemma calls_unchanged c s :
  requests_snapshot c = false → snapshot_calls (app (run_call c s)) = snapshot_calls (app s).
Proof.
  destruct c; simpl; try discriminate; intros _.
  - unfold add_volume. destruct (negb (m_valid s)); [done|]. destruct (_ || _); [done|].
    simpl. rewrite app_update_type, app_do_add_volumes. simpl.
    destruct as_single_selection; [apply calls_clear | done].
  - unfold remove_volume. destruct (negb (m_valid s)); [done|].
    simpl. by rewrite app_update_type, app_do_remove_where.
  - unfold add_volumes. destruct (negb (m_valid s)); [done|]. destruct (_ || _); [done|].
    simpl. rewrite app_update_type, app_do_add_volumes. simpl.
    destruct as_single_selection; [apply calls_clear | done].
  - unfold remove_volumes. destruct (negb (m_valid s)); [done|].
    simpl. rewrite app_update_type.
    apply (foldl_preserves (λ s', snapshot_calls (app s') = snapshot_calls (app s))); [|done].
    intros s' i _ Hs'. destruct (_ <? _)%nat; [|done]. by rewrite app_do_remove_volume.
  - apply calls_clear.
  - unfold set_deserialized. destruct (negb (m_valid s)); [done|].
    simpl. rewrite app_update_type.
    match goal with |- snapshot_calls (app (foldl ?f ?a ?l)) = _ =>
      transitivity (calls a);
      [ apply (foldl_preserves (λ s', snapshot_calls (app s') = calls a)); [|done] | ]
    end.
    + intros s' i _ Hs'. destruct (_ !! _); [|done]. by destruct (binary_search _ _ _).
    + proj_simpl. by rewrite app_clear_list.
Qed.

(** C3, amended. A call that changes the index set requests the undo
    snapshot first when it is one of [add], [remove], [add_object],
    [remove_object], [add_instance], [remove_instance], [add_all] and
    [remove_all]: the first request the call makes records the index set
    and the mode as the call found them. A call of [add_volume],
    [remove_volume], [add_volumes] or [remove_volumes] that changes the
    index set requests no snapshot at all (nor do [clear] and
    [set_deserialized], which serve the undo machinery): the request is
    left to their caller. *)
Theorem snapshot_precedes_membership_change (c : Call) (s : Selection) :
  m_list (run_call c s) ≠ m_list s →
  if requests_snapshot c
  then snapshot_first s (run_call c s)
  else snapshot_calls (app (run_call c s)) = snapshot_calls (app s).
Proof.
  intros Hne. destruct (requests_snapshot c) eqn:E.
  - destruct (snapshot_first_or_unchanged c s E) as [Heq|]; [|done].
    by rewrite Heq in Hne.
  - by apply calls_unchanged.
Qed.

(** ** The classifier on a single selected volume *)

Lemma m_list_order_singleton s i : m_list s = {[i]} → m_list_order s = [i].
Proof. intros H. unfold m_list_order. rewrite H, elements_singleton. reflexivity. Qed.




(** ** Operations on an unbound selection *)

(** C5, amended. On a selection that is not valid (not bound to both a
    volume list and a model), every mutator ([add], [remove],
    [add_object], [remove_object], [add_instance], [remove_instance],
    [add_volume], [remove_volume], [add_volumes], [remove_volumes],
    [add_all], [remove_all], [clear], [set_deserialized]),
    [start_dragging] and the transformations [translate], [rotate],
    [scale] and [mirror] return with the whole state unchanged. The two
    rebuilds driven from outside, [instances_changed] and
    [volumes_changed], are not among them: they assert validity instead of
    testing it, so that in a build with assertions a call on a selection
    that is not valid fails the assertion and does not return. *)
Theorem guarded_operations_noop_when_invalid `{Geometry} (NDEBUG : bool) (s : Selection) :
  m_valid s = false →
  (∀ c, run_call c s = s)
  ∧ start_dragging s = s
  ∧ (∀ displacement local, translate NDEBUG displacement local s = Done s)
  ∧ (∀ rotation transformation_type,
       rotate NDEBUG rotation transformation_type s = Done s)
  ∧ (∀ factors transformation_type, scale NDEBUG factors transformation_type s = Done s)
  ∧ (∀ axis, mirror NDEBUG axis s = Done s)
  ∧ (∀ instance_ids_selected,
       instances_changed false instance_ids_selected s = AssertionFailed)
  ∧ (∀ map_volume_old_to_new,
       volumes_changed false map_volume_old_to_new s = AssertionFailed).
Proof.
  intros Hv. repeat split.
  - intros []; simpl;
      unfold add, remove, add_object, remove_object, add_instance, remove_instance,
        add_volume, remove_volume, add_volumes, remove_volumes, add_all, remove_all,
        clear, set_deserialized;
      by rewrite Hv.
  - unfold start_dragging. by rewrite Hv.
  - intros. unfold translate. by rewrite Hv.
  - intros. unfold rotate. by rewrite Hv.
  - intros. unfold scale. by rewrite Hv.
  - intros. unfold mirror. by rewrite Hv.
  - intros. unfold instances_changed, assert. by rewrite Hv.
  - intros. unfold volumes_changed, assert. by rewrite Hv.
Qed.

(** ** [clear] *)

Lemma clear_m_list s : m_valid s = true → m_list (clear s) = ∅.
Proof.
  intros Hv. unfold clear. rewrite Hv. cbn [negb].
  case_bool_decide; [done|].
  destruct (negb _); proj_simpl; rewrite update_type_m_list; by proj_simpl.
Qed.

Lemma m_valid_update_type s : m_valid (update_type s) = m_valid s.
Proof. unfold update_type. by destruct (update_type_classify _) as [[??]?]. Qed.

Lemma m_valid_clear_list l s :
  m_valid (foldl (λ s i, with_volumes (alter (set_selected false) i) s) s l) = m_valid s.
Proof. by apply (foldl_preserves (λ s', m_valid s' = m_valid s)). Qed.

Lemma m_valid_clear s : m_valid (clear s) = m_valid s.
Proof.
  unfold clear. destruct (m_valid s) eqn:Hv; cbn [negb]; [|done].
  case_bool_decide; [done|].
  destruct (negb _); proj_simpl; rewrite m_valid_update_type; proj_simpl;
    by rewrite m_valid_clear_list.
Qed.

Lemma clear_idempotent s : clear (clear s) = clear s.
Proof.
  destruct (m_valid s) eqn:Hv.
  - unfold clear at 1. rewrite m_valid_clear, Hv. cbn [negb].
    by rewrite bool_decide_eq_true_2 by (by apply clear_m_list).
  - assert (clear s = s) as Hs by (unfold clear; by rewrite Hv). by rewrite !Hs.
Qed.

Lemma calc_bounding_box_empty `{Geometry} s :
  m_list s = ∅ → m_bounding_box (calc_bounding_box s) = BoundingBoxf3_default.
Proof.
  intros Hl. unfold calc_bounding_box. rewrite (m_list_order_empty s Hl).
  proj_simpl. by destruct (m_valid s).
Qed.

Lemma calc_bounding_box_invalid `{Geometry} s :
  m_valid s = false → m_bounding_box (calc_bounding_box s) = BoundingBoxf3_default.
Proof. intros Hv. unfold calc_bounding_box. by rewrite Hv. Qed.

Lemma clear_dirty s :
  m_valid s = true → m_list s ≠ ∅ → m_bounding_box_dirty (clear s) = true.
Proof.
  intros Hv Hl. unfold clear. rewrite Hv. cbn [negb].
  rewrite bool_decide_eq_false_2 by done. by destruct (negb _).
Qed.

(** ** What the mutators leave alone *)

Lemma scene_with_volumes f s :
  f [] = [] → (∀ l, unflagged <$> f l = unflagged <$> l) →
  scene (with_volumes f s) = scene s.
Proof. intros Hn Hf. unfold scene. rewrite the_volumes_with_volumes by done. apply Hf. Qed.

Lemma unflagged_alter_selected b i (l : list GLVolume) :
  unflagged <$> alter (set_selected b) i l = unflagged <$> l.
Proof.
  rewrite (list_fmap_alter unflagged (set_selected b) id).
  - by rewrite list_alter_id.
  - apply Forall_forall. by intros [].
Qed.

Lemma scene_set_selected b i s :
  scene (with_volumes (alter (set_selected b) i) s) = scene s.
Proof. apply scene_with_volumes; [done|]. intros. apply unflagged_alter_selected. Qed.

Lemma scene_update_type s : scene (update_type s) = scene s.
Proof.
  unfold update_type. destruct (update_type_classify _) as [[??]?].
  rewrite scene_with_volumes; [done..|].
  intros l. rewrite <-list_fmap_compose. apply list_fmap_ext. by intros ? [].
Qed.

Lemma scene_do_add_volume i s : scene (do_add_volume i s) = scene s.
Proof. unfold do_add_volume. by rewrite scene_set_selected. Qed.

Lemma scene_clear_list l s :
  scene (foldl (λ s i, with_volumes (alter (set_selected false) i) s) s l) = scene s.
Proof.
  apply (foldl_preserves (λ s', scene s' = scene s)); [|done].
  intros s' i _ Hs'. by rewrite scene_set_selected.
Qed.

Lemma scene_clear s : scene (clear s) = scene s.
Proof.
  unfold clear. destruct (negb (m_valid s)); [done|]. case_bool_decide; [done|].
  destruct (negb _);
    change (scene (ui_call _ (ui_call _ (set_bounding_boxes_dirty ?x)))) with (scene x);
    change (scene (set_bounding_boxes_dirty ?x)) with (scene x);
    rewrite scene_update_type;
    change (scene (set_m_list ∅ ?x)) with (scene x); apply scene_clear_list.
Qed.

Lemma scene_length s : length (scene s) = length (the_volumes s).
Proof. apply length_fmap. Qed.

Lemma scene_lookup_test Q s s' i :
  flag_blind Q → scene s' = scene s →
  (Q <$> the_volumes s' !! i) = (Q <$> the_volumes s !! i).
Proof.
  intros HQ Hs.
  assert (Q <$> scene s' !! i = Q <$> scene s !! i) as E by (by rewrite Hs).
  unfold scene in E. rewrite !list_lookup_fmap in E.
  destruct (the_volumes s' !! i), (the_volumes s !! i); simpl in *; try done.
  by rewrite !HQ in E.
Qed.

Lemma add_where_cons Q s i l :
  add_where Q s (i :: l)
  = add_where Q
      match the_volumes s !! i with
      | Some v => if Q v then do_add_volume i s else s
      | None => s
      end l.
Proof. done. Qed.

Lemma add_where_scene Q s l : scene (add_where Q s l) = scene s.
Proof.
  apply (foldl_preserves (λ s', scene s' = scene s)); [|done].
  intros s' i _ Hs'. destruct (_ !! _); [|done]. destruct (Q _); [|done].
  by rewrite scene_do_add_volume.
Qed.

Lemma add_where_m_list Q s l j :
  flag_blind Q →
  j ∈ m_list (add_where Q s l)
  ↔ j ∈ m_list s ∨ (j ∈ l ∧ Q <$> the_volumes s !! j = Some true).
Proof.
  intros HQ. revert s. induction l as [|i l IH]; intros s.
  - simpl. rewrite elem_of_nil. naive_solver.
  - rewrite add_where_cons.
    match goal with |- _ ∈ m_list (add_where Q ?s1 l) ↔ _ => set (s1' := s1) end.
    rewrite (IH s1').
    assert (scene s1' = scene s) as Hsc.
    { subst s1'. destruct (_ !! _); [|done]. destruct (Q _); [|done].
      apply scene_do_add_volume. }
    rewrite (scene_lookup_test Q s s1' j HQ Hsc). rewrite elem_of_cons.
    subst s1'. destruct (the_volumes s !! i) as [v|] eqn:Ev.
    + destruct (Q v) eqn:Eq.
      * unfold do_add_volume. proj_simpl. rewrite elem_of_union, elem_of_singleton.
        split; [|naive_solver]. intros [[->|?]|?]; [|naive_solver..].
        right. split; [by left|]. by rewrite Ev; simpl; rewrite Eq.
      * split; [naive_solver|]. intros [?|[[->|?] Hj]]; [naive_solver| |naive_solver].
        rewrite Ev in Hj. simpl in Hj. congruence.
    + split; [naive_solver|]. intros [?|[[->|?] Hj]]; [naive_solver| |naive_solver].
      by rewrite Ev in Hj.
Qed.

Lemma add_where_app Q s l : app (add_where Q s l) = app s.
Proof.
  apply (foldl_preserves (λ s', app s' = app s)); [|done].
  intros s' i _ Hs'. destruct (_ !! _); [|done]. by destruct (Q _).
Qed.

Lemma add_where_m_mode Q s l : m_mode (add_where Q s l) = m_mode s.
Proof.
  apply (foldl_preserves (λ s', m_mode s' = m_mode s)); [|done].
  intros s' i _ Hs'. destruct (_ !! _); [|done]. by destruct (Q _).
Qed.

(** The classifier keeps the mode or forces [Instance]. *)
Lemma update_type_classify_mode s :
  (update_type_classify s).1.2 = m_mode s ∨ (update_type_classify s).1.2 = Instance.
Proof.
  unfold update_type_classify.
  repeat (match goal with
          | |- context [if ?c then _ else _] => destruct c
          | |- context [match ?x with _ => _ end] => destruct x
          end; cbn [fst snd]; auto).
Qed.

Lemma update_type_m_mode_Instance s :
  m_mode s = Instance → m_mode (update_type s) = Instance.
Proof.
  intros Hm. unfold update_type.
  match goal with |- context [update_type_classify ?s1] =>
    pose proof (update_type_classify_mode s1) as Hc;
    destruct (update_type_classify s1) as [[??]?]
  end.
  cbn [fst snd] in Hc. proj_simpl. destruct Hc as [->| ->]; done.
Qed.

Lemma clear_m_mode_Instance s : m_mode s = Instance → m_mode (clear s) = Instance.
Proof.
  intros Hm. unfold clear. destruct (negb (m_valid s)); [done|]. case_bool_decide; [done|].
  destruct (negb _); proj_simpl; apply update_type_m_mode_Instance; proj_simpl;
    by apply (foldl_preserves (λ s', m_mode s' = Instance)).
Qed.

(** ** [add_all] *)

(** C10, amended. On a valid state [add_all] compares the size of the
    index set with the number of volumes that are not the wipe tower. When
    the two are equal it returns with the whole state unchanged, whatever
    the index set holds. Otherwise the index set afterwards holds exactly
    the indices of the volumes that are not the wipe tower, the mode is
    [Instance], and one snapshot, "Selection-Add All", was requested,
    recording the selection as the call found it. *)
Theorem add_all_selects_all_but_wipe_tower (s : Selection) :
  m_valid s = true → volumes_fit s →
  if u32 (Z.of_nat (size (m_list s)))
     =? count_where (λ v, negb (is_wipe_tower v)) (the_volumes s)
  then add_all s = s
  else
    (∀ i : nat,
       i ∈ m_list (add_all s)
       ↔ ∃ v, the_volumes s !! i = Some v ∧ is_wipe_tower v = false)
    ∧ m_mode (add_all s) = Instance
    ∧ snapshot_calls (app (add_all s))
      = snapshot_calls (app s)
        ++ [mkSnapshotCall "Selection-Add All"
              (bool_decide (prevent_snapshots (app s) ≠ 0%nat)) (m_mode s) (m_list s)].
Proof.
  intros Hv Hfit. unfold add_all. rewrite Hv. cbn [negb].
  rewrite (usize_fit _ Hfit), firstn_all.
  assert (u32 (count_where (λ v, negb (is_wipe_tower v)) (the_volumes s))
          = count_where (λ v, negb (is_wipe_tower v)) (the_volumes s)) as ->.
  { unfold u32. apply Z.mod_small. unfold volumes_fit in Hfit.
    assert (∀ l : list GLVolume,
              0 ≤ count_where (λ v, negb (is_wipe_tower v)) l ≤ Z.of_nat (length l)) as Hc.
    { induction l as [|v l IH]; simpl; [lia|]. destruct (negb _); lia. }
    specialize (Hc (the_volumes s)). lia. }
  destruct (_ =? _); [done|].
  set (s2 := clear (set_m_mode Instance (take_snapshot "Selection-Add All" s))).
  assert (scene s2 = scene s) as Hsc by (subst s2; by rewrite scene_clear).
  assert (length (the_volumes s2) = length (the_volumes s)) as Hlen.
  { by rewrite <-!scene_length, Hsc. }
  assert (usize (the_volumes s2) = length (the_volumes s)) as ->.
  { rewrite usize_fit; [done|]. rewrite Hlen. apply Hfit. }
  change (foldl _ s2 ?l) with (add_where (λ v, negb (is_wipe_tower v)) s2 l).
  assert (flag_blind (λ v, negb (is_wipe_tower v))) as HQ by (by intros []).
  split; [|split].
  - intros i. proj_simpl. rewrite update_type_m_list, (add_where_m_list _ _ _ _ HQ).
    rewrite (scene_lookup_test _ s s2 i HQ Hsc).
    assert (m_list s2 = ∅) as -> by (subst s2; by apply clear_m_list).
    rewrite elem_of_seq. split.
    + intros [?|[_ Hi]]; [set_solver|].
      destruct (the_volumes s !! i) as [v|]; [|done]. exists v. split; [done|].
      simpl in Hi. by destruct (is_wipe_tower v).
    + intros (v & Hi & Hw). right. split.
      * apply lookup_lt_Some in Hi. lia.
      * by rewrite Hi; simpl; rewrite Hw.
  - proj_simpl. apply update_type_m_mode_Instance. rewrite add_where_m_mode.
    subst s2. by apply clear_m_mode_Instance.
  - proj_simpl. rewrite app_update_type, add_where_app. subst s2. by rewrite calls_clear.
Qed.

(** ** Binary search on a sorted vector *)

Section BinarySearch.
Context {A : Type} (lt : A → A → bool).
Hypothesis lt_irrefl : ∀ a, lt a a = false.
Hypothesis lt_trans : ∀ a b c, lt a b = true → lt b c = true → lt a c = true.
Hypothesis lt_total : ∀ a b, lt a b = false → lt b a = false → a = b.

Local Notation le := (sorted_le lt).

Lemma le_lt_trans a b c : le a b → lt b c = true → lt a c = true.
Proof using lt_trans lt_total.
  unfold sorted_le. intros Hab Hbc. destruct (lt a c) eqn:Hac; [done|].
  destruct (lt c a) eqn:Hca.
  - by rewrite (lt_trans _ _ _ Hbc Hca) in Hab.
  - rewrite <-(lt_total _ _ Hac Hca) in Hbc. congruence.
Qed.

Lemma le_not_lt_trans a b c : le a b → lt a c = false → lt b c = false.
Proof using lt_trans lt_total.
  intros Hab Hac. destruct (lt b c) eqn:Hbc; [|done].
  by rewrite (le_lt_trans _ _ _ Hab Hbc) in Hac.
Qed.

Lemma sorted_lookup_le (l : list A) i j x y :
  StronglySorted le l → (i ≤ j)%nat → l !! i = Some x → l !! j = Some y → le x y.
Proof using lt_irrefl.
  intros Hs. revert i j. induction Hs as [|a l Hs IH Hall]; intros i j Hij Hi Hj; [done|].
  destruct i as [|i], j as [|j]; simpl in *; simplify_eq.
  - apply lt_irrefl.
  - rewrite Forall_forall in Hall. apply Hall. by eapply list_elem_of_lookup_2.
  - lia.
  - eapply (IH i j); [lia|done..].
Qed.

Lemma lower_bound_loop_S (l : list A) val fuel first len :
  lower_bound_loop lt l val (S fuel) first len
  = if (len =? 0)%nat then first
    else
      match l !! (first + len / 2)%nat with
      | Some x =>
          if lt x val
          then lower_bound_loop lt l val fuel (first + len / 2 + 1)%nat
                 (len - len / 2 - 1)%nat
          else lower_bound_loop lt l val fuel first (len / 2)%nat
      | None => first
      end.
Proof using Type. done. Qed.

Lemma lower_bound_loop_spec (l : list A) val fuel first len :
  StronglySorted le l →
  (len ≤ fuel)%nat → (first + len ≤ length l)%nat →
  (∀ k x, (k < first)%nat → l !! k = Some x → lt x val = true) →
  (∀ k x, (first + len ≤ k)%nat → l !! k = Some x → lt x val = false) →
  let r := lower_bound_loop lt l val fuel first len in
  (∀ k x, (k < r)%nat → l !! k = Some x → lt x val = true)
  ∧ (∀ k x, (r ≤ k)%nat → l !! k = Some x → lt x val = false).
Proof using lt_irrefl lt_trans lt_total.
  intros Hs. revert first len.
  induction fuel as [|fuel IH]; intros first len Hfuel Hlen Hlow Hhigh.
  - assert (len = 0)%nat as -> by lia. split; [done|].
    intros k x Hk. apply Hhigh. simpl in *. lia.
  - cbn zeta. rewrite lower_bound_loop_S. destruct (len =? 0)%nat eqn:E.
    + apply Nat.eqb_eq in E as ->. split; [done|]. intros k x Hk. apply Hhigh. lia.
    + apply Nat.eqb_neq in E.
      assert (len / 2 < len)%nat as Hhalf by (apply Nat.div_lt; lia).
      destruct (l !! (first + len / 2)%nat) as [x|] eqn:Ex.
      2:{ apply lookup_ge_None in Ex. lia. }
      destruct (lt x val) eqn:Elt.
      * apply IH; [lia|lia| |].
        -- intros k y Hk Hy. eapply le_lt_trans; [|exact Elt].
           eapply (sorted_lookup_le l k (first + len / 2)); [done|lia|done..].
        -- intros k y Hk. apply Hhigh. lia.
      * apply IH; [lia|lia|done|].
        intros k y Hk Hy. eapply le_not_lt_trans; [|exact Elt].
        eapply (sorted_lookup_le l (first + len / 2) k); [done|lia|done..].
Qed.

Lemma binary_search_sorted (l : list A) val :
  StronglySorted le l → binary_search lt l val = true ↔ val ∈ l.
Proof using lt_irrefl lt_trans lt_total.
  intros Hs. unfold binary_search, lower_bound.
  destruct (lower_bound_loop_spec l val (length l) 0 (length l) Hs) as [Hlow Hhigh];
    [lia|lia| intros; lia | |].
  { intros k x Hk Hx. apply lookup_lt_Some in Hx. lia. }
  set (r := lower_bound_loop lt l val (length l) 0 (length l)) in *.
  split.
  - destruct (l !! r) as [x|] eqn:Ex; [|done]. intros Hnlt.
    apply negb_true_iff in Hnlt.
    assert (x = val) as <-.
    { apply lt_total; [|done]. by eapply (Hhigh r). }
    by eapply list_elem_of_lookup_2.
  - intros Hin. apply list_elem_of_lookup in Hin as [p Hp].
    assert (r ≤ p)%nat as Hrp.
    { destruct (decide (r ≤ p)%nat); [done|].
      assert (lt val val = true) by (eapply (Hlow p); [lia|done]).
      by rewrite lt_irrefl in *. }
    destruct (l !! r) as [x|] eqn:Ex.
    + apply negb_true_iff. apply (sorted_lookup_le l r p x val Hs Hrp Ex Hp).
    + apply lookup_ge_None in Ex. apply lookup_lt_Some in Hp. lia.
Qed.
End BinarySearch.

Lemma pair_lt_irrefl a : pair_lt a a = false.
Proof. unfold pair_lt. destruct a as [a1 a2]. simpl. rewrite !N.ltb_irrefl. done. Qed.

Lemma pair_lt_spec a b :
  pair_lt a b = true ↔ (a.1 < b.1 ∨ (a.1 = b.1 ∧ a.2 < b.2))%N.
Proof.
  unfold pair_lt. rewrite orb_true_iff, andb_true_iff, negb_true_iff.
  rewrite !N.ltb_lt, N.ltb_ge. lia.
Qed.

Lemma pair_lt_trans a b c : pair_lt a b = true → pair_lt b c = true → pair_lt a c = true.
Proof. rewrite !pair_lt_spec. lia. Qed.

Lemma pair_lt_total a b : pair_lt a b = false → pair_lt b a = false → a = b.
Proof.
  intros Hab Hba. apply not_true_iff_false in Hab, Hba. rewrite pair_lt_spec in Hab, Hba.
  destruct a, b. simpl in *. f_equal; lia.
Qed.

#[local] Instance pair_le_trans : Transitive pair_le.
Proof.
  intros a b c Hab Hbc. unfold pair_le in *.
  apply not_true_iff_false. apply not_true_iff_false in Hab, Hbc.
  rewrite pair_lt_spec in *. lia.
Qed.

#[local] Instance pair_le_total : Total pair_le.
Proof.
  intros a b. unfold pair_le.
  destruct (pair_lt b a) eqn:E1; [|by left]. right.
  apply not_true_iff_false. apply pair_lt_spec in E1. rewrite pair_lt_spec. lia.
Qed.

Lemma binary_search_merge_sort (ids : list (N * N)) (val : N * N) :
  binary_search pair_lt (merge_sort pair_le ids) val = true ↔ val ∈ ids.
Proof.
  rewrite (binary_search_sorted pair_lt pair_lt_irrefl pair_lt_trans pair_lt_total).
  - by rewrite merge_sort_Permutation.
  - apply (StronglySorted_merge_sort pair_le).
Qed.

(** ** Restoring a recorded selection *)

Lemma the_volumes_do_add_volume i s :
  the_volumes (do_add_volume i s) = alter (set_selected true) i (the_volumes s).
Proof. unfold do_add_volume. by rewrite the_volumes_with_volumes. Qed.

Lemma do_add_volumes_m_list idxs s j :
  j ∈ m_list (do_add_volumes idxs s)
  ↔ j ∈ m_list s ∨ (j ∈ idxs ∧ (j < usize (the_volumes s))%nat).
Proof.
  revert s. induction idxs as [|i idxs IH]; intros s.
  - simpl. rewrite elem_of_nil. naive_solver.
  - change (do_add_volumes (i :: idxs) s)
      with (do_add_volumes idxs
              (if (i <? usize (the_volumes s))%nat then do_add_volume i s else s)).
    rewrite IH, elem_of_cons. destruct (i <? usize (the_volumes s))%nat eqn:E.
    + apply Nat.ltb_lt in E. rewrite the_volumes_do_add_volume.
      assert (usize (alter (set_selected true) i (the_volumes s)) = usize (the_volumes s)) as ->.
      { unfold usize. by rewrite length_alter. }
      unfold do_add_volume. proj_simpl. rewrite elem_of_union, elem_of_singleton.
      naive_solver.
    + apply Nat.ltb_ge in E. split; [naive_solver|].
      intros [?|[[->|?] ?]]; [naive_solver|lia|naive_solver].
Qed.

Lemma elem_of_volume_idxs_where P vols j :
  j ∈ volume_idxs_where P vols ↔ (j < usize vols)%nat ∧ P <$> vols !! j = Some true.
Proof.
  unfold volume_idxs_where. rewrite list_elem_of_In, filter_In, <-list_elem_of_In, elem_of_seq.
  destruct (vols !! j) as [v|]; simpl; [|naive_solver lia].
  split; [intros [? ->]; split; [lia|done] | intros [? [=->]]; split; [lia|done]].
Qed.

Lemma NoDup_volume_idxs_where P vols : NoDup (volume_idxs_where P vols).
Proof.
  unfold volume_idxs_where. apply NoDup_ListNoDup, List.NoDup_filter, NoDup_ListNoDup, NoDup_seq.
Qed.

Lemma invariant_bounds s i :
  selection_invariant s → i ∈ m_list s → (i < length (the_volumes s))%nat.
Proof.
  intros Hinv Hi. apply Hinv in Hi. apply lookup_lt_Some in Hi.
  by rewrite length_fmap in Hi.
Qed.

Lemma invariant_size s :
  selection_invariant s → (size (m_list s) ≤ length (the_volumes s))%nat.
Proof.
  intros Hinv.
  assert (m_list s ⊆ list_to_set (seq 0 (length (the_volumes s)))) as Hsub.
  { intros i Hi. apply elem_of_list_to_set, elem_of_seq.
    pose proof (invariant_bounds s i Hinv Hi). lia. }
  apply subseteq_size in Hsub.
  rewrite size_list_to_set in Hsub by apply NoDup_seq. by rewrite length_seq in Hsub.
Qed.

(** [matches] on a duplicate-free list: the selection is exactly the list. *)
Lemma matches_spec idxs s :
  NoDup idxs → Z.of_nat (length idxs) < 2 ^ 32 → Z.of_nat (size (m_list s)) < 2 ^ 32 →
  matches idxs s = true → m_list s = list_to_set idxs.
Proof.
  intros Hnd Hl Hs. unfold matches. rewrite andb_true_iff, forallb_forall, Z.eqb_eq.
  intros [Hall Hcount]. unfold u32 in Hcount. rewrite !Z.mod_small in Hcount by lia.
  symmetry. apply set_subseteq_size_eq.
  - intros i Hi. apply elem_of_list_to_set in Hi.
    apply list_elem_of_In, Hall in Hi. by apply bool_decide_eq_true in Hi.
  - rewrite size_list_to_set by done. lia.
Qed.

Lemma add_object_m_list O s j :
  m_valid s = true → selection_invariant s → volumes_fit s →
  j ∈ m_list (add_object O true s)
  ↔ ∃ v, the_volumes s !! j = Some v ∧ object_idx v = int_cast O.
Proof.
  intros Hv Hinv Hfit.
  assert (∀ j, j ∈ get_volume_idxs_from_object O s
               ↔ ∃ v, the_volumes s !! j = Some v ∧ object_idx v = int_cast O) as Hidx.
  { intros k. unfold get_volume_idxs_from_object. rewrite elem_of_volume_idxs_where.
    rewrite (usize_fit _ Hfit). split.
    - intros [_ Hk]. destruct (the_volumes s !! k) as [v|]; [|done].
      exists v. split; [done|]. simpl in Hk. apply Z.eqb_eq. congruence.
    - intros (v & Hk & Ho). split; [by eapply lookup_lt_Some|].
      rewrite Hk. simpl. f_equal. by apply Z.eqb_eq. }
  unfold add_object. rewrite Hv. cbn [negb andb orb].
  destruct (matches _ s) eqn:Em.
  - rewrite <-Hidx. apply matches_spec in Em.
    + rewrite Em. apply elem_of_list_to_set.
    + apply NoDup_volume_idxs_where.
    + unfold get_volume_idxs_from_object, volume_idxs_where.
      pose proof (List.filter_length_le
                    (λ i, match the_volumes s !! i with
                          | Some v => object_idx v =? int_cast O
                          | None => false
                          end) (seq 0 (usize (the_volumes s)))) as Hle.
      rewrite length_seq in Hle. pose proof (usize_le (the_volumes s)).
      unfold volumes_fit in Hfit. lia.
    + pose proof (invariant_size s Hinv). unfold volumes_fit in Hfit. lia.
  - proj_simpl. rewrite update_type_m_list, do_add_volumes_m_list. proj_simpl.
    rewrite clear_m_list by done.
    assert (usize (the_volumes (set_m_mode Instance (clear (take_snapshot "Selection-Add Object" s))))
            = length (the_volumes s)) as ->.
    { change (the_volumes (set_m_mode Instance ?x)) with (the_volumes x).
      rewrite usize_fit; rewrite <-scene_length, scene_clear, scene_length; [done|apply Hfit]. }
    rewrite <-Hidx. split; [|intros Hj].
    + intros [?|[? _]]; [set_solver|done].
    + right. split; [done|]. apply Hidx in Hj as (v & Hj & _). by eapply lookup_lt_Some.
Qed.

Lemma set_deserialized_m_list mode ids s j :
  m_valid s = true → volumes_fit s →
  j ∈ m_list (set_deserialized mode ids s)
  ↔ ∃ v, the_volumes s !! j = Some v ∧ binary_search pair_lt ids (geometry_id v) = true.
Proof.
  intros Hv Hfit. unfold set_deserialized. rewrite Hv. cbn [negb]. proj_simpl.
  rewrite update_type_m_list.
  set (Q := λ v, binary_search pair_lt ids (geometry_id v)).
  set (s3 := set_m_list ∅ _).
  assert (scene s3 = scene s) as Hsc.
  { subst s3. change (scene (set_m_list ∅ ?x)) with (scene x). by rewrite scene_clear_list. }
  assert (usize (the_volumes s3) = length (the_volumes s)) as ->.
  { rewrite usize_fit; rewrite <-scene_length, Hsc, scene_length; [done|apply Hfit]. }
  change (foldl _ s3 ?l) with (add_where Q s3 l).
  assert (flag_blind Q) as HQ by (by intros []).
  rewrite (add_where_m_list Q s3 _ j HQ), (scene_lookup_test Q s s3 j HQ Hsc), elem_of_seq.
  split.
  - intros [?|[_ Hj]]; [set_solver|].
    destruct (the_volumes s !! j) as [v|]; [|done]. exists v. split; [done|].
    simpl in Hj. injection Hj as Hj. exact Hj.
  - intros (v & Hj & Hb). right. split.
    + apply lookup_lt_Some in Hj. lia.
    + rewrite Hj. simpl. by f_equal.
Qed.

Lemma elem_of_selection_record s id :
  id ∈ (selection_record s).2
  ↔ ∃ i v, i ∈ m_list s ∧ the_volumes s !! i = Some v ∧ geometry_id v = id.
Proof.
  unfold selection_record. cbn [snd]. rewrite merge_sort_Permutation, list_elem_of_omap.
  split.
  - intros (i & Hi & Hid). apply elem_of_m_list_order in Hi.
    destruct (the_volumes s !! i) as [v|] eqn:Ev; [|done].
    exists i, v. simpl in Hid. naive_solver.
  - intros (i & v & Hi & Ev & <-). exists i. split; [by apply elem_of_m_list_order|].
    by rewrite Ev.
Qed.

Lemma binary_search_selection_record s id :
  binary_search pair_lt (selection_record s).2 id = true
  ↔ ∃ i v, i ∈ m_list s ∧ the_volumes s !! i = Some v ∧ geometry_id v = id.
Proof.
  rewrite <-elem_of_selection_record. unfold selection_record. cbn [snd].
  rewrite binary_search_merge_sort. by rewrite merge_sort_Permutation.
Qed.

Lemma scene_lookup s s' i v :
  scene s' = scene s → the_volumes s !! i = Some v →
  ∃ v', the_volumes s' !! i = Some v' ∧ unflagged v' = unflagged v.
Proof.
  intros Hs Hv.
  assert (scene s' !! i = scene s !! i) as E by (by rewrite Hs).
  unfold scene in E. rewrite !list_lookup_fmap, Hv in E.
  destruct (the_volumes s' !! i) as [v'|]; [|done]. exists v'. simpl in E.
  split; [done|]. by apply (inj Some).
Qed.

Lemma unflagged_geometry_id v v' : unflagged v' = unflagged v → geometry_id v' = geometry_id v.
Proof. intros H. by apply (f_equal geometry_id) in H. Qed.

Lemma m_valid_run_call c s : m_valid (run_call c s) = m_valid s.
Proof.
  assert (∀ l s, m_valid (do_add_volumes l s) = m_valid s) as Hadd.
  { intros l s'. apply (foldl_preserves (λ s'', m_valid s'' = m_valid s')); [|done].
    intros s'' i _ Hs''. by destruct (_ <? _)%nat. }
  assert (∀ i s, m_valid (do_remove_volume i s) = m_valid s) as Hrem.
  { intros i s'. unfold do_remove_volume. by destruct (decide _). }
  assert (∀ P s, m_valid (do_remove_where P s) = m_valid s) as Hremw.
  { intros P s'. apply (foldl_preserves (λ s'', m_valid s'' = m_valid s')); [|done].
    intros s'' i _ Hs''. destruct (_ !! _); [|done]. destruct (P _); [|done]. by rewrite Hrem. }
  assert (∀ Q s l, m_valid (add_where Q s l) = m_valid s) as Haddw.
  { intros Q s' l. apply (foldl_preserves (λ s'', m_valid s'' = m_valid s')); [|done].
    intros s'' i _ Hs''. destruct (_ !! _); [|done]. by destruct (Q _). }
  assert (∀ o n b s, m_valid (add_instance o n b s) = m_valid s) as Hinst.
  { intros o n b s'. unfold add_instance. destruct (negb (m_valid s')) eqn:E; [done|].
    destruct (_ || _); [done|]. proj_simpl. rewrite m_valid_update_type, Hadd. proj_simpl.
    destruct b; [by rewrite m_valid_clear|done]. }
  destruct c; simpl.
  - unfold add. destruct (_ || _); [done|]. destruct (_ !! _) as [volume|]; [|done].
    destruct (_ && _); [done|].
    match goal with |- m_valid (if ?c then _ else _) = _ => destruct c; [|done] end.
    proj_simpl. rewrite m_valid_update_type.
    match goal with
    | |- m_valid (match m_mode (if ?k then ?a else set_m_mode ?m ?a) with _ => _ end) = _ =>
        assert (m_valid a = m_valid s) as H2
          by (match goal with |- context [if ?c then _ else _] => destruct c end;
              [by rewrite m_valid_clear | done]);
        assert (m_valid (if k then a else set_m_mode m a) = m_valid a) as H3 by (by destruct k);
        rewrite <-H2, <-H3; generalize (if k then a else set_m_mode m a); intros s3
    end.
    destruct (m_mode s3).
    + match goal with |- context [if ?c then _ else _] => by destruct c end.
    + proj_simpl. by rewrite Hinst.
  - unfold remove. destruct (_ || _); [done|]. destruct (negb _); [done|].
    destruct (_ !! _); [|done]. proj_simpl. rewrite m_valid_update_type.
    destruct (m_mode s); [by rewrite Hrem|]. unfold do_remove_instance. by rewrite Hremw.
  - unfold add_object. destruct (negb (m_valid s)) eqn:E; [done|].
    destruct (_ || _); [done|]. proj_simpl. rewrite m_valid_update_type, Hadd. proj_simpl.
    destruct as_single_selection; [by rewrite m_valid_clear|done].
  - unfold remove_object. destruct (negb (m_valid s)) eqn:E; [done|].
    proj_simpl. unfold do_remove_object. by rewrite m_valid_update_type, Hremw.
  - apply Hinst.
  - unfold remove_instance. destruct (negb (m_valid s)) eqn:E; [done|].
    proj_simpl. unfold do_remove_instance. by rewrite m_valid_update_type, Hremw.
  - unfold add_volume. destruct (negb (m_valid s)) eqn:E; [done|].
    destruct (_ || _); [done|]. proj_simpl. rewrite m_valid_update_type, Hadd. proj_simpl.
    destruct as_single_selection; [by rewrite m_valid_clear|done].
  - unfold remove_volume. destruct (negb (m_valid s)) eqn:E; [done|].
    proj_simpl. by rewrite m_valid_update_type, Hremw.
  - unfold add_volumes. destruct (negb (m_valid s)) eqn:E; [done|].
    destruct (_ || _); [done|]. proj_simpl. rewrite m_valid_update_type, Hadd. proj_simpl.
    destruct as_single_selection; [by rewrite m_valid_clear|done].
  - unfold remove_volumes. destruct (negb (m_valid s)) eqn:E; [done|].
    proj_simpl. rewrite m_valid_update_type.
    apply (foldl_preserves (λ s', m_valid s' = m_valid s)); [|done].
    intros s' i _ Hs'. destruct (_ <? _)%nat; [|done]. by rewrite Hrem.
  - unfold add_all. destruct (negb (m_valid s)) eqn:E; [done|]. destruct (_ =? _); [done|].
    proj_simpl. rewrite m_valid_update_type.
    change (foldl _ ?a ?l) with (add_where (λ v, negb (is_wipe_tower v)) a l).
    by rewrite Haddw, m_valid_clear.
  - unfold remove_all. destruct (negb (m_valid s)) eqn:E; [done|]. destruct (is_empty s); [done|].
    by rewrite m_valid_clear.
  - apply m_valid_clear.
  - unfold set_deserialized. destruct (negb (m_valid s)) eqn:E; [done|].
    proj_simpl. rewrite m_valid_update_type.
    change (foldl _ ?a (seq ?x ?y))
      with (add_where (λ v, binary_search pair_lt volumes_and_instances (geometry_id v)) a (seq x y)).
    rewrite Haddw. proj_simpl. by rewrite m_valid_clear_list.
Qed.

Lemma scene_run_call c s : scene (run_call c s) = scene s.
Proof.
  assert (∀ i s, scene (do_remove_volume i s) = scene s) as Hrem.
  { intros i s'. unfold do_remove_volume. destruct (decide _); [|done].
    by rewrite scene_set_selected. }
  assert (∀ l s, scene (do_add_volumes l s) = scene s) as Hadd.
  { intros l s'. apply (foldl_preserves (λ s'', scene s'' = scene s')); [|done].
    intros s'' i _ Hs''. destruct (_ <? _)%nat; [|done]. by rewrite scene_do_add_volume. }
  assert (∀ P s, scene (do_remove_where P s) = scene s) as Hremw.
  { intros P s'. apply (foldl_preserves (λ s'', scene s'' = scene s')); [|done].
    intros s'' i _ Hs''. destruct (_ !! _); [|done]. destruct (P _); [|done]. by rewrite Hrem. }
  assert (∀ s, scene (set_bounding_boxes_dirty (update_type s)) = scene s) as Hfin.
  { intros s'. change (scene (set_bounding_boxes_dirty ?x)) with (scene x).
    apply scene_update_type. }
  assert (∀ o n b s, scene (add_instance o n b s) = scene s) as Hinst.
  { intros o n b s'. unfold add_instance. destruct (negb (m_valid s')) eqn:E; [done|].
    destruct (_ || _); [done|]. rewrite Hfin, Hadd.
    change (scene (set_m_mode Instance ?x)) with (scene x).
    destruct b; [by rewrite scene_clear|done]. }
  destruct c; simpl.
  - unfold add. destruct (_ || _); [done|]. destruct (_ !! _) as [volume|]; [|done].
    destruct (_ && _); [done|].
    match goal with |- scene (if ?c then _ else _) = _ => destruct c; [|done] end.
    rewrite Hfin.
    match goal with
    | |- scene (match m_mode (if ?k then ?a else set_m_mode ?m ?a) with _ => _ end) = _ =>
        assert (scene a = scene s) as H2
          by (match goal with |- context [if ?c then _ else _] => destruct c end;
              [by rewrite scene_clear | done]);
        assert (scene (if k then a else set_m_mode m a) = scene a) as H3 by (by destruct k);
        rewrite <-H2, <-H3; generalize (if k then a else set_m_mode m a); intros s3
    end.
    destruct (m_mode s3).
    + match goal with |- context [if ?c then _ else _] => destruct c end; [|done].
      apply scene_do_add_volume.
    + change (scene (allow_snapshots ?x)) with (scene x). by rewrite Hinst.
  - unfold remove. destruct (_ || _); [done|]. destruct (negb _); [done|].
    destruct (_ !! _); [|done]. rewrite Hfin.
    destruct (m_mode _); [by rewrite Hrem|]. unfold do_remove_instance. by rewrite Hremw.
  - unfold add_object. destruct (negb (m_valid s)) eqn:E; [done|].
    destruct (_ || _); [done|]. rewrite Hfin, Hadd.
    change (scene (set_m_mode Instance ?x)) with (scene x).
    destruct as_single_selection; [by rewrite scene_clear|done].
  - unfold remove_object. destruct (negb (m_valid s)) eqn:E; [done|].
    unfold do_remove_object. by rewrite Hfin, Hremw.
  - apply Hinst.
  - unfold remove_instance. destruct (negb (m_valid s)) eqn:E; [done|].
    unfold do_remove_instance. by rewrite Hfin, Hremw.
  - unfold add_volume. destruct (negb (m_valid s)) eqn:E; [done|].
    destruct (_ || _); [done|]. rewrite Hfin, Hadd.
    change (scene (set_m_mode Volume ?x)) with (scene x).
    destruct as_single_selection; [by rewrite scene_clear|done].
  - unfold remove_volume. destruct (negb (m_valid s)) eqn:E; [done|].
    by rewrite Hfin, Hremw.
  - unfold add_volumes. destruct (negb (m_valid s)) eqn:E; [done|].
    destruct (_ || _); [done|]. rewrite Hfin, Hadd.
    change (scene (set_m_mode mode ?x)) with (scene x).
    destruct as_single_selection; [by rewrite scene_clear|done].
  - unfold remove_volumes. destruct (negb (m_valid s)) eqn:E; [done|].
    rewrite Hfin. apply (foldl_preserves (λ s', scene s' = scene s)); [|done].
    intros s' i _ Hs'. destruct (_ <? _)%nat; [|done]. by rewrite Hrem.
  - unfold add_all. destruct (negb (m_valid s)) eqn:E; [done|]. destruct (_ =? _); [done|].
    rewrite Hfin.
    change (foldl _ ?a ?l) with (add_where (λ v, negb (is_wipe_tower v)) a l).
    by rewrite add_where_scene, scene_clear.
  - unfold remove_all. destruct (negb (m_valid s)) eqn:E; [done|]. destruct (is_empty s); [done|].
    by rewrite scene_clear.
  - apply scene_clear.
  - unfold set_deserialized. destruct (negb (m_valid s)) eqn:E; [done|].
    rewrite Hfin.
    change (foldl _ ?a (seq ?x ?y))
      with (add_where (λ v, binary_search pair_lt volumes_and_instances (geometry_id v)) a (seq x y)).
    rewrite add_where_scene. change (scene (set_m_list ∅ ?x)) with (scene x).
    by rewrite scene_clear_list.
Qed.

Lemma invariant_flags_eq s s' :
  selection_invariant s → selection_invariant s' →
  m_list s' = m_list s → length (the_volumes s') = length (the_volumes s) →
  selected <$> the_volumes s' = selected <$> the_volumes s.
Proof.
  intros Hinv Hinv' Hl Hlen. apply list_eq. intros i.
  specialize (Hinv i). specialize (Hinv' i). rewrite Hl in Hinv'.
  destruct ((selected <$> the_volumes s') !! i) as [b'|] eqn:E',
           ((selected <$> the_volumes s) !! i) as [b|] eqn:E.
  - destruct b, b'; try done; exfalso.
    + assert (i ∈ m_list s) as Hi by (by apply Hinv). by apply Hinv' in Hi.
    + assert (i ∈ m_list s) as Hi by (by apply Hinv'). by apply Hinv in Hi.
  - apply lookup_lt_Some in E'. apply lookup_ge_None in E. rewrite length_fmap in *. lia.
  - apply lookup_lt_Some in E. apply lookup_ge_None in E'. rewrite length_fmap in *. lia.
  - done.
Qed.

(** C6. Round trip through the undo record: in a valid state where the
    selected flags follow the index set and volumes with the same geometry
    identifier belong to the same object, after [add_object O], recording
    the selection as the mode and the sorted geometry identifiers of the
    selected volumes, [clear], and [set_deserialized] on the record, the
    index set and the selected flags are the ones recorded. *)
Theorem add_object_record_clear_restore (O : Z) (s : Selection) :
  m_valid s = true → selection_invariant s → volumes_fit s → geometry_ids_name_objects s →
  let s1 := add_object O true s in
  let record := selection_record s1 in
  let s3 := set_deserialized record.1 record.2 (clear s1) in
  m_list s3 = m_list s1 ∧ selected <$> the_volumes s3 = selected <$> the_volumes s1.
Proof.
  intros Hv Hinv Hfit Hids s1 record s3.
  assert (scene s1 = scene s) as Hsc1 by apply (scene_run_call (CallAddObject O true)).
  assert (m_valid s1 = true) as Hv1.
  { rewrite <-Hv. apply (m_valid_run_call (CallAddObject O true)). }
  assert (scene (clear s1) = scene s) as Hsc2 by (by rewrite scene_clear).
  assert (volumes_fit (clear s1)) as Hfit2.
  { unfold volumes_fit. rewrite <-scene_length, Hsc2, scene_length. apply Hfit. }
  assert (m_valid (clear s1) = true) as Hv2 by (by rewrite m_valid_clear).
  assert (m_list s3 = m_list s1) as Hl.
  { apply set_eq. intros j. subst s3.
    rewrite (set_deserialized_m_list _ _ _ _ Hv2 Hfit2).
    subst s1. rewrite (add_object_m_list O s j Hv Hinv Hfit).
    split.
    - intros (v2 & Hj2 & Hb). subst record.
      apply (binary_search_selection_record (add_object O true s)) in Hb
        as (i & vi & Hi & Hvi & Hid).
      apply (add_object_m_list O s i Hv Hinv Hfit) in Hi as (v & Hiv & Ho).
      destruct (scene_lookup _ _ _ _ Hsc1 Hiv) as (vi' & Hvi' & Hu). simplify_eq.
      destruct (the_volumes s !! j) as [vj|] eqn:Hj.
      2:{ apply lookup_ge_None in Hj. apply lookup_lt_Some in Hj2.
          rewrite <-scene_length, Hsc2, scene_length in Hj2. lia. }
      destruct (scene_lookup _ _ _ _ Hsc2 Hj) as (vj' & Hvj' & Hu'). simplify_eq.
      exists vj. split; [done|]. rewrite <-Ho.
      apply (Hids j i vj v Hj Hiv). congruence.
    - intros (v & Hj & Ho).
      destruct (scene_lookup _ _ _ _ Hsc2 Hj) as (v2 & Hj2 & Hu2).
      destruct (scene_lookup _ _ _ _ Hsc1 Hj) as (v1 & Hj1 & Hu1).
      exists v2. split; [done|]. subst record.
      apply (binary_search_selection_record (add_object O true s)).
      exists j, v1. split; [|split; [done|]].
      + apply (add_object_m_list O s j Hv Hinv Hfit). eauto.
      + rewrite (unflagged_geometry_id _ _ Hu1), (unflagged_geometry_id _ _ Hu2). done. }
  split; [done|].
  assert (inv_n (length (the_volumes s)) s1) as [Hinv1 Hlen1].
  { apply (inv_n_run_call _ (CallAddObject O true)). by split. }
  assert (inv_n (length (the_volumes s)) s3) as [Hinv3 Hlen3].
  { apply (inv_n_run_call _ (CallSetDeserialized record.1 record.2)).
    apply (inv_n_run_call _ CallClear). by split. }
  apply invariant_flags_eq; [done..|]. by rewrite Hlen1, Hlen3.
Qed.

(** ** The transform engine *)

Section EngineProofs.
Context {G : Geometry}.

Lemma engine_frame_refl s : engine_frame s s.
Proof. by split. Qed.

Lemma engine_frame_trans s1 s2 s3 :
  engine_frame s1 s2 → engine_frame s2 s3 → engine_frame s1 s3.
Proof.
  intros [] []. split; try congruence.
Qed.

Lemma cache_at_touch_cache k i s : cache_at k (touch_cache i s) = cache_at k s.
Proof.
  unfold touch_cache, cache_at. destruct (volumes_data (m_cache s) !! i) eqn:E; [done|].
  cbn [m_cache set_m_cache volumes_data]. rewrite lookup_insert.
  case_decide; [subst; by rewrite E | done].
Qed.

Lemma the_volumes_touch_cache i s : the_volumes (touch_cache i s) = the_volumes s.
Proof. unfold touch_cache. by destruct (_ !! _). Qed.

Lemma engine_frame_touch_cache i s : engine_frame s (touch_cache i s).
Proof.
  split; try (unfold touch_cache; by destruct (_ !! _)).
  intros k. apply cache_at_touch_cache.
Qed.

Lemma the_volumes_on_instance f i s :
  the_volumes (on_instance f i s)
  = alter (λ v, set_instance_transformation (f (instance_transformation v)) v) i
      (the_volumes s).
Proof. unfold on_instance. by rewrite the_volumes_with_volumes. Qed.

Lemma the_volumes_on_volume f i s :
  the_volumes (on_volume f i s)
  = alter (λ v, set_volume_transformation (f (volume_transformation v)) v) i (the_volumes s).
Proof. unfold on_volume. by rewrite the_volumes_with_volumes. Qed.

Lemma engine_frame_on_instance f i s : engine_frame s (on_instance f i s).
Proof.
  split; try done.
  rewrite the_volumes_on_instance.
  rewrite (list_fmap_alter composite_id _ id); [by rewrite list_alter_id|].
  apply Forall_forall. by intros.
Qed.

Lemma engine_frame_on_volume f i s : engine_frame s (on_volume f i s).
Proof.
  split; try done.
  rewrite the_volumes_on_volume.
  rewrite (list_fmap_alter composite_id _ id); [by rewrite list_alter_id|].
  apply Forall_forall. by intros.
Qed.

Lemma engine_frame_ids_lookup s s' k :
  engine_frame s s' →
  composite_id <$> the_volumes s' !! k = composite_id <$> the_volumes s !! k.
Proof. intros Hf. rewrite <-!list_lookup_fmap. by rewrite (ef_ids _ _ Hf). Qed.

Lemma engine_frame_match_ids {B} s s' k (F : CompositeID → B) (d : B) :
  engine_frame s s' →
  match the_volumes s' !! k with Some v => F (composite_id v) | None => d end
  = match the_volumes s !! k with Some v => F (composite_id v) | None => d end.
Proof.
  intros Hf. pose proof (engine_frame_ids_lookup s s' k Hf) as E.
  destruct (the_volumes s' !! k), (the_volumes s !! k); simpl in E; simplify_eq; congruence.
Qed.

Lemma m_list_order_frame s s' : engine_frame s s' → m_list_order s' = m_list_order s.
Proof. intros Hf. unfold m_list_order. by rewrite (ef_list _ _ Hf). Qed.

Lemma forallb_ext_in {A} (f g : A → bool) l :
  (∀ x, f x = g x) → forallb f l = forallb g l.
Proof. intros H. induction l; simpl; [done|]. by rewrite H, IHl. Qed.

Lemma foldl_ext_all {A B} (f g : A → B → A) l a :
  (∀ a b, f a b = g a b) → foldl f a l = foldl g a l.
Proof.
  intros H. revert a. induction l as [|b l IH]; intros a; simpl; [done|]. by rewrite H, IH.
Qed.

Lemma is_single_full_instance_frame s s' :
  engine_frame s s' → is_single_full_instance s' = is_single_full_instance s.
Proof.
  intros Hf. unfold is_single_full_instance, get_instance_idx, get_object_idx, the_objects.
  rewrite (ef_type _ _ Hf), (ef_content _ _ Hf), (ef_list _ _ Hf), (ef_valid _ _ Hf),
    (ef_model _ _ Hf), (m_list_order_frame _ _ Hf).
  assert (bool_decide (the_volumes s' = []) = bool_decide (the_volumes s = [])) as ->.
  { pose proof (ef_ids _ _ Hf) as E. apply (f_equal length) in E. rewrite !length_fmap in E.
    apply bool_decide_ext. split; intros H; rewrite H in E; simpl in E;
      [by destruct (the_volumes s) | by destruct (the_volumes s')]. }
  repeat (match goal with |- (if ?c then _ else _) = (if ?c then _ else _) =>
                            destruct c; [done|] end).
  set (obj := if m_valid s then _ else -1).
  pose proof (engine_frame_ids_lookup s s' (default 0%nat (head (m_list_order s))) Hf) as E.
  destruct (the_volumes s' !! _) as [first'|], (the_volumes s !! _) as [first|];
    simpl in E; simplify_eq; [|done].
  assert (instance_idx first' = instance_idx first) as -> by (unfold instance_idx; congruence).
  rewrite (forallb_ext_in _
             (λ i, match the_volumes s !! i with
                   | Some v => (obj =? object_idx v) && (instance_idx first =? instance_idx v)
                   | None => false
                   end)).
  2:{ intros i.
      apply (engine_frame_match_ids s s' i
               (λ c, (obj =? object_id c) && (instance_idx first =? instance_id c)) false Hf). }
  destruct (forallb _ _); [|done].
  match goal with |- bool_decide (_ = size ?a) = bool_decide (_ = size ?b) =>
    assert (a = b) as ->; [|done] end.
  apply foldl_ext_all. intros acc i.
  apply (engine_frame_match_ids s s' i
           (λ c, if 0 <=? volume_id c then {[volume_id c]} ∪ acc else acc) acc Hf).
Qed.

(** *** Monadic folds *)

Lemma bind_Done {A B} (m : Outcome A) (f : A → Outcome B) r :
  (m ≫= f) = Done r → ∃ a, m = Done a ∧ f a = Done r.
Proof. destruct m as [a| |]; [|done..]. intros H. by exists a. Qed.

Lemma foldlM_preserves {A B} (P : A → Prop) (f : A → B → Outcome A) l a r :
  (∀ a b a', b ∈ l → P a → f a b = Done a' → P a') →
  P a → foldlM f a l = Done r → P r.
Proof.
  revert a. induction l as [|b l IH]; intros a Hf Ha; simpl.
  - by intros [= <-].
  - intros H. apply bind_Done in H as (a' & Ha' & H).
    apply (IH a'); [|by eapply Hf; [left|..]|done].
    intros ??? Hin. apply Hf. by right.
Qed.

Lemma foldlM_total {A B} (f : A → B → Outcome A) l a :
  (∀ a b, ∃ a', f a b = Done a') → ∃ r, foldlM f a l = Done r.
Proof.
  intros Hf. revert a. induction l as [|b l IH]; intros a; simpl; [by eexists|].
  destruct (Hf a b) as [a' ->]. apply IH.
Qed.

(** A fold whose steps read through no null pointer reads through none. *)
Lemma foldlM_defined {A B} (f : A → B → Outcome A) l a :
  (∀ a b, f a b ≠ NullDereference) → foldlM f a l ≠ NullDereference.
Proof.
  intros Hf. revert a. induction l as [|b l IH]; intros a; [done|].
  simpl. pose proof (Hf a b). destruct (f a b); [apply IH | done..].
Qed.

(** *** The synchronizer keeps the selected volumes *)

Lemma kept_refl t v : kept t v v.
Proof. exists (instance_transformation v). by destruct v. Qed.

Lemma kept_trans t v1 v2 v3 : kept t v1 v2 → kept t v2 v3 → kept t v1 v3.
Proof.
  intros (T & -> & Ho & Hr) (T' & -> & Ho' & Hr'). exists T'. split; [done|].
  simpl in *. split; [congruence|]. intros Ht. rewrite Hr', Hr; done.
Qed.

Lemma sync_inv_touch t s s' done i :
  sync_inv t s (s', done) → sync_inv t s (touch_cache i s', done).
Proof.
  intros (Hsub & Hf & Hk). split; [done|]. split.
  - eapply engine_frame_trans; [done|apply engine_frame_touch_cache].
  - cbn [fst]. intros k v Hv. rewrite the_volumes_touch_cache. by apply Hk.
Qed.

Lemma sync_inv_on_instance t s s' done j f :
  j ∉ done →
  (∀ T, t_offset (f T) = t_offset T
        ∧ (t = SYNC_ROTATION_NONE → t_rotation (f T) = t_rotation T)) →
  sync_inv t s (s', done) → sync_inv t s (on_instance f j s', done).
Proof.
  intros Hj Hfr (Hsub & Hf & Hk). split; [done|]. split.
  - eapply engine_frame_trans; [done|apply engine_frame_on_instance].
  - cbn [fst] in *. intros k v Hv. destruct (Hk k v Hv) as (v' & Hv' & Hkept & Hsel).
    rewrite the_volumes_on_instance, list_lookup_alter.
    destruct (decide (j = k)) as [->|]; [|by exists v'].
    rewrite Hv'. eexists. split; [done|]. split; [|set_solver].
    eapply kept_trans; [done|]. eexists. split; [done|]. apply Hfr.
Qed.

Lemma sync_inv_mono t s s' done j : sync_inv t s (s', done) → sync_inv t s (s', {[j]} ∪ done).
Proof. intros (Hsub & ?). split; [set_solver|done]. Qed.

Lemma synchronize_unselected_instances_inv NDEBUG t s s' :
  synchronize_unselected_instances NDEBUG t s = Done s' →
  engine_frame s s'
  ∧ ∀ k v, the_volumes s !! k = Some v →
           ∃ v', the_volumes s' !! k = Some v' ∧ kept t v v' ∧ (k ∈ m_list s → v' = v).
Proof.
  unfold synchronize_unselected_instances. intros H.
  apply bind_Done in H as ([s1 done1] & Hfold & H).
  apply bind_Done in H as (_ & _ & [= <-]). cbn [fst].
  assert (sync_inv t s (s1, done1)) as (_ & Hf & Hk); [|by split].
  revert Hfold. apply foldlM_preserves.
  2:{ split; [done|]. split; [apply engine_frame_refl|]. intros k v Hv. exists v.
      split; [done|]. split; [apply kept_refl|done]. }
  intros [sa da] i [sb db] _ Ha. cbn beta iota.
  case_bool_decide; [by intros [= <- <-]|].
  destruct (the_volumes sa !! i) as [volume|]; [|by intros [= <- <-]].
  destruct (1000 <=? object_idx volume); [by intros [= <- <-]|].
  apply foldlM_preserves; [|done].
  clear Ha. intros [sc dc] j [sd dd] _ Hc. cbn beta iota.
  case_bool_decide; [by intros [= <- <-]|].
  destruct (decide (j ∈ dc)) as [|Hj]; [by intros [= <- <-]|].
  destruct (the_volumes sc !! j) as [v|]; [|by intros [= <- <-]].
  destruct (_ || _); [by intros [= <- <-]|].
  intros Hb. apply bind_Done in Hb as (se & He & Hb).
  apply bind_Done in Hb as (sf & Hsf & [= <- <-]).
  apply sync_inv_mono.
  unfold set_instance_mirror, set_instance_scaling_factor.
  apply sync_inv_on_instance; [done|by intros []|].
  apply sync_inv_on_instance; [done|by intros []|].
  assert (sync_inv t s (se, dc)) as Hse.
  { destruct NDEBUG; [by injection He as <-|].
    apply bind_Done in He as (_ & _ & [= <-]). by do 2 apply sync_inv_touch. }
  destruct t.
  - apply bind_Done in Hsf as (_ & _ & [= <-]). done.
  - injection Hsf as <-. unfold set_instance_rotation.
    apply sync_inv_on_instance; [done|by intros []|done].
  - injection Hsf as <-. unfold set_instance_rotation.
    apply sync_inv_on_instance; [done|by intros []|]. by do 2 apply sync_inv_touch.
Qed.

Lemma synchronize_unselected_instances_total t s :
  ∃ s', synchronize_unselected_instances true t s = Done s'.
Proof.
  unfold synchronize_unselected_instances.
  match goal with |- ∃ s', (foldlM ?f ?a ?l ≫= _) = _ =>
    destruct (foldlM_total f l a) as [r ->]; [|by eexists] end.
  intros [sa da] i. case_bool_decide; [by eexists|].
  destruct (the_volumes sa !! i) as [volume|]; [|by eexists].
  destruct (1000 <=? object_idx volume); [by eexists|].
  apply foldlM_total. intros [sc dc] j.
  case_bool_decide; [by eexists|].
  destruct (decide (j ∈ dc)); [by eexists|].
  destruct (the_volumes sc !! j) as [v|]; [|by eexists].
  destruct (_ || _); [by eexists|].
  destruct t; by eexists.
Qed.

(** *** Loops over the selected indices *)

(** A loop over distinct indices whose step at [i] rewrites the volume at
    [i] by [Gf i] and leaves the frame alone: afterwards every listed
    volume is rewritten once, the others are as before. *)
Lemma foldlM_indexed {St} (sel : St → Selection) (f : St → nat → Outcome St)
    (Gf : nat → GLVolume → GLVolume) (C : nat → GLVolume → Prop) l s0 st st' :
  NoDup l → engine_frame s0 (sel st) →
  (∀ sa i sb,
     engine_frame s0 (sel sa) → i ∈ l → f sa i = Done sb →
     engine_frame s0 (sel sb)
     ∧ the_volumes (sel sb) = alter (Gf i) i (the_volumes (sel sa))
     ∧ ∀ v, the_volumes (sel sa) !! i = Some v → C i v) →
  foldlM f st l = Done st' →
  engine_frame s0 (sel st')
  ∧ ∀ k v, the_volumes (sel st) !! k = Some v →
           ∃ v', the_volumes (sel st') !! k = Some v'
                 ∧ if decide (k ∈ l) then v' = Gf k v ∧ C k v else v' = v.
Proof.
  intros Hnd. revert st.
  induction Hnd as [|i l Hi Hnd IH]; intros st Hf Hstep; cbn [foldlM].
  - intros [= <-]. split; [done|]. intros k v Hv. exists v. split; [done|].
    rewrite decide_False; [done|apply not_elem_of_nil].
  - intros H. apply bind_Done in H as (sb & Hb & H).
    destruct (Hstep st i sb Hf (list_elem_of_here _ _) Hb) as (Hfb & Hvb & HC).
    destruct (IH sb Hfb) as [Hf' Hk']; [|done|].
    { intros sa j sc Hsa Hj. apply Hstep; [done|by right]. }
    split; [done|]. intros k v Hv.
    destruct (decide (k = i)) as [->|Hne].
    + destruct (Hk' i (Gf i v)) as (v' & Hv' & Hd).
      { by rewrite Hvb, list_lookup_alter_eq, Hv. }
      rewrite decide_False in Hd by done. subst v'.
      exists (Gf i v). split; [done|]. rewrite decide_True by (by left). split; [done|].
      by apply HC.
    + destruct (Hk' k v) as (v' & Hv' & Hd).
      { by rewrite Hvb, list_lookup_alter_ne. }
      exists v'. split; [done|].
      destruct (decide (k ∈ l)).
      * rewrite decide_True by (by right). done.
      * rewrite decide_False; [done|]. rewrite not_elem_of_cons. done.
Qed.

(** *** Synchronization of volumes and the drop onto the bed *)

Lemma synchronize_unselected_volumes_spec s :
  engine_frame s (synchronize_unselected_volumes s)
  ∧ ∀ k v, the_volumes s !! k = Some v →
           ∃ v', the_volumes (synchronize_unselected_volumes s) !! k = Some v'
                 ∧ instance_transformation v' = instance_transformation v.
Proof.
  unfold synchronize_unselected_volumes.
  set (P := λ s' : Selection,
         engine_frame s s'
         ∧ ∀ k v, the_volumes s !! k = Some v →
                  ∃ v', the_volumes s' !! k = Some v'
                        ∧ instance_transformation v' = instance_transformation v).
  assert (∀ s' j f, P s' → P (on_volume f j s')) as Hstep.
  { intros s' j f [Hf Hk]. split.
    - eapply engine_frame_trans; [done|apply engine_frame_on_volume].
    - intros k v Hv. destruct (Hk k v Hv) as (v' & Hv' & Ht).
      rewrite the_volumes_on_volume, list_lookup_alter.
      destruct (decide (j = k)) as [->|]; [|by exists v'].
      rewrite Hv'. by eexists. }
  apply (foldl_preserves P).
  - intros sa i _ Ha. destruct (the_volumes sa !! i) as [volume|]; [|done].
    destruct (1000 <=? object_idx volume); [done|].
    apply (foldl_preserves P); [|done].
    intros sb j _ Hb. destruct (j =? i)%nat; [done|].
    destruct (the_volumes sb !! j) as [v|]; [|done].
    destruct (_ || _); [done|].
    unfold set_volume_mirror, set_volume_scaling_factor, set_volume_rotation, set_volume_offset.
    by do 4 apply Hstep.
  - split; [apply engine_frame_refl|]. intros k v Hv. by exists v.
Qed.

Lemma ensure_on_bed_lookup s k v :
  the_volumes s !! k = Some v →
  ∃ v', the_volumes (ensure_on_bed s) !! k = Some v'
        ∧ t_scaling_factor (instance_transformation v')
          = t_scaling_factor (instance_transformation v)
        ∧ t_rotation (instance_transformation v') = t_rotation (instance_transformation v)
        ∧ v' =
          match ensure_on_bed_min_z (the_volumes s) !! (object_idx v, instance_idx v) with
          | Some z =>
              set_instance_transformation
                (Transformation_set_offset_axis Z_axis (vz (get_instance_offset v) - z)%float
                   (instance_transformation v))
                v
          | None => v
          end.
Proof.
  intros Hv. unfold ensure_on_bed. rewrite the_volumes_with_volumes by done.
  rewrite list_lookup_fmap, Hv. simpl. eexists. split; [done|].
  by destruct (ensure_on_bed_min_z _ !! _).
Qed.

(** *** [scale] in the world frame with absolute, non-uniform factors *)

Lemma alter_missing {A} (f : A → A) i (l : list A) : l !! i = None → alter f i l = l.
Proof.
  intros H. apply list_eq. intros k. rewrite list_lookup_alter.
  destruct (decide (i = k)) as [->|]; [by rewrite H|done].
Qed.

Lemma outcome_cases {A} (m : Outcome A) :
  m = AssertionFailed ∨ m = NullDereference ∨ ∃ a, m = Done a.
Proof. destruct m; eauto. Qed.

Lemma scale_world_loop NDEBUG factors tt s s1 :
  is_single_full_instance s = true → tt_relative tt = false → tt_world tt = true →
  (EPSILON <? abs (vx factors - vy factors))%float
  || (EPSILON <? abs (vx factors - vz factors))%float = true →
  foldlM (scale_step NDEBUG factors tt) s (m_list_order s) = Done s1 →
  engine_frame s s1
  ∧ ∀ k v, the_volumes s !! k = Some v →
      ∃ v', the_volumes s1 !! k = Some v'
            ∧ if decide (k ∈ m_list_order s)
              then v' = set_instance_transformation
                          (Transformation_set_scaling_factor (world_scaling_factor factors v)
                             (instance_transformation v)) v
                   ∧ (NDEBUG = false
                      → is_rotation_ninety_degrees (get_instance_rotation v) = true)
              else v' = v.
Proof.
  intros Hsfi Hrel Hworld Hnon.
  apply (foldlM_indexed id _
           (λ _ v, set_instance_transformation
                     (Transformation_set_scaling_factor (world_scaling_factor factors v)
                        (instance_transformation v)) v)
           (λ _ v, NDEBUG = false → is_rotation_ninety_degrees (get_instance_rotation v) = true));
    [apply NoDup_m_list_order | apply engine_frame_refl |].
  intros sa i sb Hf _. unfold id in *. unfold scale_step.
  destruct (the_volumes sa !! i) as [volume|] eqn:Ev.
  - rewrite (is_single_full_instance_frame _ _ Hf), Hsfi, Hrel, Hworld, Hnon. cbn [andb].
    intros H. apply bind_Done in H as ([] & Hassert & [= <-]).
    split; [|split].
    + eapply engine_frame_trans; [done|apply engine_frame_on_instance].
    + unfold set_instance_scaling_factor. rewrite the_volumes_on_instance.
      apply list_alter_ext; [|done]. intros v Hv. by simplify_eq.
    + intros v [= <-] Hdebug. unfold assert in Hassert. rewrite Hdebug in Hassert.
      by destruct (is_rotation_ninety_degrees _).
  - intros [= <-]. split; [done|]. split; [by rewrite alter_missing|done].
Qed.

Lemma scale_step_defined NDEBUG factors tt s i :
  scale_step NDEBUG factors tt s i ≠ NullDereference.
Proof.
  unfold scale_step, assert. destruct (the_volumes s !! i); [|done].
  repeat (match goal with |- context [if ?c then _ else _] => destruct c end; try done).
  all: destruct (m_mode s); done.
Qed.

Lemma scale_world_loop_total factors tt s :
  is_single_full_instance s = true → tt_relative tt = false → tt_world tt = true →
  (EPSILON <? abs (vx factors - vy factors))%float
  || (EPSILON <? abs (vx factors - vz factors))%float = true →
  ∃ s1, foldlM (scale_step true factors tt) s (m_list_order s) = Done s1.
Proof.
  intros. apply foldlM_total. intros sa i. unfold scale_step.
  destruct (the_volumes sa !! i); [|by eexists].
  repeat (match goal with |- context [if ?c then _ else _] => destruct c end;
          try by eexists).
  all: destruct (m_mode sa); by eexists.
Qed.

Lemma synchronize_instance_transformation NDEBUG mode s s' :
  synchronize NDEBUG mode SYNC_ROTATION_NONE s = Done s' →
  ∀ k v, k ∈ m_list s → the_volumes s !! k = Some v →
         ∃ v', the_volumes s' !! k = Some v'
               ∧ instance_transformation v' = instance_transformation v.
Proof.
  unfold synchronize. destruct mode.
  - intros [= <-] k v _ Hv.
    by apply (proj2 (synchronize_unselected_volumes_spec s)).
  - intros H k v Hk Hv.
    destruct (synchronize_unselected_instances_inv _ _ _ _ H) as [_ Hkept].
    destruct (Hkept k v Hv) as (v' & Hv' & _ & Hsel). exists v'. split; [done|].
    by rewrite (Hsel Hk).
Qed.

Lemma synchronize_total mode t s : ∃ s', synchronize true mode t s = Done s'.
Proof.
  unfold synchronize. destruct mode; [by eexists|].
  apply synchronize_unselected_instances_total.
Qed.

(** C8. [scale] on a single full instance with an absolute world-space
    transformation and factors that differ by more than [EPSILON]. The
    operation requires, by an assertion, the instance rotation to be a
    multiple of ninety degrees: in a build with assertions the call returns
    only when it is one, and then every selected volume has as instance
    scaling factors the absolute values of the factors taken through the
    transposed rotation matrix of its instance (the permutation of the
    factors the rotation implies); a selected volume whose rotation is not
    such a multiple makes the call fail the assertion instead of storing
    factors. Assertions are compiled into debug builds only: in a build
    without them ([NDEBUG]) the call always returns. *)
Theorem scale_world_absolute_non_uniform (NDEBUG : bool) (factors : Vec3d)
    (transformation_type : TransformationType) (s : Selection) :
  m_valid s = true → is_single_full_instance s = true →
  tt_relative transformation_type = false → tt_world transformation_type = true →
  (EPSILON <? abs (vx factors - vy factors))%float
  || (EPSILON <? abs (vx factors - vz factors))%float = true →
  (∀ s', scale NDEBUG factors transformation_type s = Done s' →
         ∀ i v, i ∈ m_list s → the_volumes s !! i = Some v →
                (NDEBUG = false
                 → is_rotation_ninety_degrees (get_instance_rotation v) = true)
                ∧ ∃ v', the_volumes s' !! i = Some v'
                        ∧ get_instance_scaling_factor v'
                          = store3 store_scaling_factor (get_instance_scaling_factor v)
                              (world_scaling_factor factors v))
  ∧ (NDEBUG = false →
     (∃ i v, i ∈ m_list s ∧ the_volumes s !! i = Some v
             ∧ is_rotation_ninety_degrees (get_instance_rotation v) = false) →
     scale NDEBUG factors transformation_type s = AssertionFailed)
  ∧ (NDEBUG = true → ∃ s', scale NDEBUG factors transformation_type s = Done s').
Proof.
  intros Hvalid Hsfi Hrel Hworld Hnon.
  assert (∀ s', scale NDEBUG factors transformation_type s = Done s' →
            ∀ i v, i ∈ m_list s → the_volumes s !! i = Some v →
                   (NDEBUG = false
                    → is_rotation_ninety_degrees (get_instance_rotation v) = true)
                   ∧ ∃ v', the_volumes s' !! i = Some v'
                           ∧ get_instance_scaling_factor v'
                             = store3 store_scaling_factor (get_instance_scaling_factor v)
                                 (world_scaling_factor factors v)) as Hdone.
  { intros s' H i v Hi Hv. unfold scale in H. rewrite Hvalid in H. cbn [negb] in H.
    apply bind_Done in H as (s1 & Hloop & H).
    apply bind_Done in H as (s2 & Hsync & [= <-]).
    destruct (scale_world_loop _ _ _ _ _ Hsfi Hrel Hworld Hnon Hloop) as [Hf Hk].
    destruct (Hk i v Hv) as (v1 & Hv1 & Hd).
    rewrite decide_True in Hd by (by apply elem_of_m_list_order).
    destruct Hd as [-> Hninety]. split; [done|].
    assert (i ∈ m_list s1) as Hi1 by (by rewrite (ef_list _ _ Hf)).
    destruct (synchronize_instance_transformation _ _ _ _ Hsync i _ Hi1 Hv1)
      as (v2 & Hv2 & Ht2).
    destruct (ensure_on_bed_lookup s2 i v2 Hv2) as (v3 & Hv3 & Hsc & _).
    exists v3. split; [done|].
    unfold get_instance_scaling_factor. by rewrite Hsc, Ht2. }
  split; [done|]. split.
  - intros Hdebug (i & v & Hi & Hv & Hn).
    destruct (outcome_cases (scale NDEBUG factors transformation_type s))
      as [|[Hnull|[s' Hs']]]; [done| |].
    + exfalso. unfold scale in Hnull. rewrite Hvalid in Hnull. cbn [negb] in Hnull.
      destruct (foldlM _ s (m_list_order s)) as [s1| |] eqn:Hloop; [|done|].
      * destruct (scale_world_loop _ _ _ _ _ Hsfi Hrel Hworld Hnon Hloop) as [_ Hk].
        destruct (Hk i v Hv) as (v1 & _ & Hd).
        rewrite decide_True in Hd by (by apply elem_of_m_list_order).
        destruct Hd as [_ Hninety]. rewrite (Hninety Hdebug) in Hn. done.
      * revert Hloop. apply foldlM_defined. intros sa k. apply scale_step_defined.
    + destruct (Hdone s' Hs' i v Hi Hv) as [Hninety _]. rewrite Hninety in Hn; done.
  - intros ->. unfold scale. rewrite Hvalid. cbn [negb].
    destruct (scale_world_loop_total factors transformation_type s) as [s1 ->]; [done..|].
    cbn [mbind Outcome_bind].
    destruct (synchronize_total (m_mode s1) SYNC_ROTATION_NONE s1) as [s2 ->].
    by eexists.
Qed.

(** *** [rotate] about Z with a joint pivot *)






(** *** [ensure_on_bed] *)

Lemma ensure_on_bed_min_z_from (m : gmap (Z * Z) float) vols o n :
  foldl
    (λ (instances_min_z : gmap (Z * Z) float) volume,
       if negb (is_wipe_tower volume) && negb (is_modifier volume) then
         let min_z := vz (bb_min (transformed_convex_hull_bounding_box volume)) in
         let instance := (object_idx volume, instance_idx volume) in
         let m1 :=
           match instances_min_z !! instance with
           | None => <[instance := DBL_MAX]> instances_min_z
           | Some _ => instances_min_z
           end in
         alter (λ z, std_min z min_z) instance m1
       else instances_min_z)
    m vols !! (o, n)
  = match instance_hull_min_zs vols o n with
    | [] => m !! (o, n)
    | zs => Some (foldl std_min (default DBL_MAX (m !! (o, n))) zs)
    end.
Proof.
  revert m. induction vols as [|volume vols IH]; intros m; [done|].
  cbn [foldl]. rewrite IH. unfold instance_hull_min_zs at 2. cbn [omap list_omap].
  fold (instance_hull_min_zs vols o n).
  destruct (negb (is_wipe_tower volume) && negb (is_modifier volume)) eqn:Eq; cbn [andb].
  - case_bool_decide as Hkey.
    + rewrite Hkey.
      assert (∀ m1 : gmap (Z * Z) float,
                alter (λ z, std_min z (vz (bb_min (transformed_convex_hull_bounding_box volume))))
                  (o, n) m1 !! (o, n)
                = (λ z, std_min z (vz (bb_min (transformed_convex_hull_bounding_box volume))))
                    <$> m1 !! (o, n)) as Halt by (intros; apply lookup_alter_eq).
      cbn zeta. rewrite Halt.
      destruct (m !! (o, n)) as [z|] eqn:Em.
      * rewrite Em. simpl. by destruct (instance_hull_min_zs vols o n).
      * rewrite lookup_insert_eq. simpl. by destruct (instance_hull_min_zs vols o n).
    + cbn zeta. rewrite lookup_alter_ne by done.
      destruct (m !! (object_idx volume, instance_idx volume)); [done|].
      by rewrite lookup_insert_ne.
  - done.
Qed.

Lemma ensure_on_bed_min_z_lookup vols o n :
  ensure_on_bed_min_z vols !! (o, n) = instance_min_z vols o n.
Proof.
  unfold ensure_on_bed_min_z, instance_min_z. rewrite ensure_on_bed_min_z_from.
  rewrite lookup_empty. done.
Qed.

(** X1, on [ensure_on_bed]. The minimum
    measured for an instance is the least of the lowest hull points of its
    volumes that are neither modifiers nor the wipe tower. [ensure_on_bed]
    replaces the Z offset of every volume of an instance that has such a
    minimum by the offset minus the minimum, and leaves every other volume
    as it is. *)
Theorem ensure_on_bed_shifts_by_minimum (s : Selection) :
  the_volumes (ensure_on_bed s)
  = (λ volume,
       match instance_min_z (the_volumes s) (object_idx volume) (instance_idx volume) with
       | Some z =>
           set_instance_transformation
             (Transformation_set_offset_axis Z_axis (vz (get_instance_offset volume) - z)%float
                (instance_transformation volume))
             volume
       | None => volume
       end) <$> the_volumes s.
Proof.
  unfold ensure_on_bed. rewrite the_volumes_with_volumes by done.
  apply list_fmap_ext. intros _ volume _. by rewrite ensure_on_bed_min_z_lookup.
Qed.

(** *** The minimum after [ensure_on_bed] *)

Lemma ensure_on_bed_lowers s k v :
  the_volumes s !! k = Some v →
  the_volumes (ensure_on_bed s) !! k
  = Some match instance_min_z (the_volumes s) (object_idx v) (instance_idx v) with
         | Some z => lowered z v
         | None => v
         end.
Proof.
  intros Hv. unfold ensure_on_bed. rewrite the_volumes_with_volumes by done.
  rewrite list_lookup_fmap, Hv. cbn [fmap option_fmap option_map].
  by rewrite ensure_on_bed_min_z_lookup.
Qed.

Lemma counted_in_lowered o n z v : counted_in o n (lowered z v) = counted_in o n v.
Proof. by destruct v. Qed.

Lemma instance_hull_min_zs_spec vols o n :
  instance_hull_min_zs vols o n
  = omap (λ volume, if counted_in o n volume then Some (hull_min_z volume) else None) vols.
Proof. done. Qed.

(** The lowest points measured after the call, when the hull boxes follow
    the offsets exactly. *)
Lemma instance_hull_min_zs_lowered (F : GLVolume → GLVolume) vols o n m :
  (∀ v, v ∈ vols → counted_in o n (F v) = counted_in o n v) →
  (∀ v, v ∈ vols → counted_in o n v = true →
        hull_min_z (F v) = (hull_min_z v - m)%float) →
  instance_hull_min_zs (F <$> vols) o n
  = (λ z, (z - m)%float) <$> instance_hull_min_zs vols o n.
Proof.
  rewrite !instance_hull_min_zs_spec. induction vols as [|v vols IH]; intros Hc Hz; [done|].
  cbn [fmap list_fmap omap list_omap].
  rewrite (Hc v) by left.
  rewrite IH by (intros; first [apply Hc | apply Hz]; by try right).
  destruct (counted_in o n v) eqn:Ev; [|done].
  cbn [fmap list_fmap]. f_equal. apply Hz; [left|done].
Qed.

Lemma elem_of_instance_hull_min_zs vols o n z :
  z ∈ instance_hull_min_zs vols o n
  → ∃ v, v ∈ vols ∧ counted_in o n v = true ∧ z = hull_min_z v.
Proof.
  rewrite instance_hull_min_zs_spec, list_elem_of_omap. intros (v & Hv & Hz).
  exists v. destruct (counted_in o n v); [|done]. by injection Hz as <-.
Qed.

(** [std::min] returns one of its arguments, and so does a fold of it. *)
Lemma foldl_std_min_elem a zs : foldl std_min a zs ∈ a :: zs.
Proof.
  revert a. induction zs as [|z zs IH]; intros a; [left|].
  cbn [foldl]. pose proof (IH (std_min a z)) as H. unfold std_min in *.
  destruct (z <? a)%float; apply elem_of_cons in H as [->|H];
    first [by left | by right; left | by right; right].
Qed.

Lemma float_pos_not_neg (w : float) : (0 <? w)%float = true → (w <? 0)%float = false.
Proof.
  rewrite !ltb_spec. change (Prim2SF 0) with (S754_zero false).
  destruct (Prim2SF w) as [| [|] | |[|] ? ?]; cbn; congruence.
Qed.

(** The least of differences that are zero or positive, one of them zero. *)
Lemma foldl_std_min_zero a ws :
  (a = 0%float ∨ (0 <? a)%float = true) →
  (∀ w, w ∈ ws → w = 0%float ∨ (0 <? w)%float = true) →
  (a = 0%float ∨ 0%float ∈ ws) →
  foldl std_min a ws = 0%float.
Proof.
  revert a. induction ws as [|w ws IH]; intros a Ha Hws Hzero.
  - destruct Hzero as [?|Hin]; [done|]. by apply elem_of_nil in Hin.
  - cbn [foldl]. assert (w = 0%float ∨ (0 <? w)%float = true) as Hw by (apply Hws; left).
    apply IH.
    + unfold std_min. by destruct (w <? a)%float.
    + intros w' Hw'. apply Hws. by right.
    + unfold std_min. destruct Ha as [->|Ha].
      * left. destruct Hw as [->|Hw]; [done|]. by rewrite (float_pos_not_neg w Hw).
      * destruct Hzero as [->|Hin]; [by vm_compute in Ha|].
        apply elem_of_cons in Hin as [<-|Hin]; [|by right].
        left. by rewrite Ha.
Qed.

(** C7, amended. For an instance that owns a volume that is neither a
    modifier nor the wipe tower, with [m] the least of the lowest hull
    points of such volumes before the call: [ensure_on_bed] lowers the Z
    offset of every volume of the instance by [m]. The least lowest point
    measured after the call is 0 when this arithmetic is exact: when every
    lowest point counted is below [DBL_MAX], the hull box of a lowered
    volume is lower by [m], the difference between a lowest point and [m]
    is computed as zero or positive, and [m - m] as zero. In double
    precision none of this is guaranteed and a rounding residue can stay. *)
Theorem ensure_on_bed_rests_on_bed (s : Selection) (o n : Z) (m : float) :
  instance_min_z (the_volumes s) o n = Some m →
  (∀ k v, the_volumes s !! k = Some v → object_idx v = o → instance_idx v = n →
          the_volumes (ensure_on_bed s) !! k = Some (lowered m v))
  ∧ ((∀ v, v ∈ the_volumes s → counted_in o n v = true →
           (hull_min_z v <? DBL_MAX)%float = true
           ∧ hull_min_z (lowered m v) = (hull_min_z v - m)%float
           ∧ ((hull_min_z v - m)%float = 0%float
              ∨ (0 <? hull_min_z v - m)%float = true)) →
     (m - m)%float = 0%float →
     instance_min_z (the_volumes (ensure_on_bed s)) o n = Some 0%float).
Proof.
  intros Hm. split.
  - intros k v Hv <- <-. by rewrite (ensure_on_bed_lowers s k v Hv), Hm.
  - intros Hexact Hmm.
    set (F := λ v, match instance_min_z (the_volumes s) (object_idx v) (instance_idx v) with
                   | Some z => lowered z v
                   | None => v
                   end).
    assert (the_volumes (ensure_on_bed s) = F <$> the_volumes s) as ->.
    { apply list_eq. intros k. rewrite list_lookup_fmap.
      destruct (the_volumes s !! k) as [v|] eqn:Ev.
      - by rewrite (ensure_on_bed_lowers s k v Ev).
      - apply lookup_ge_None. apply lookup_ge_None in Ev.
        unfold ensure_on_bed. rewrite the_volumes_with_volumes by done.
        by rewrite length_fmap. }
    pose proof Hm as Hmin. unfold instance_min_z in Hmin. unfold instance_min_z.
    rewrite (instance_hull_min_zs_lowered F _ o n m).
    + destruct (instance_hull_min_zs (the_volumes s) o n) as [|z zs] eqn:Ez; [done|].
      clear Hm. injection Hmin as Hm.
      assert (∀ z', z' ∈ z :: zs →
                    (z' <? DBL_MAX)%float = true
                    ∧ ((z' - m)%float = 0%float ∨ (0 <? z' - m)%float = true)) as Hzs.
      { intros z' Hz'. rewrite <-Ez in Hz'.
        apply elem_of_instance_hull_min_zs in Hz' as (v & Hv & Hc & ->).
        destruct (Hexact v Hv Hc) as (? & _ & ?). done. }
      assert (m ∈ z :: zs) as Hin.
      { rewrite <-Hm. cbn [foldl].
        assert (std_min DBL_MAX z = z) as ->.
        { unfold std_min. by rewrite (proj1 (Hzs z ltac:(left))). }
        apply foldl_std_min_elem. }
      cbn [fmap list_fmap]. f_equal.
      change (foldl std_min DBL_MAX ((z - m)%float :: ((λ z0, (z0 - m)%float) <$> zs)))
        with (foldl std_min DBL_MAX ((λ z0, (z0 - m)%float) <$> (z :: zs))).
      apply foldl_std_min_zero.
      * right. by vm_compute.
      * intros w (z' & -> & Hz')%list_elem_of_fmap. by apply Hzs.
      * right. apply list_elem_of_fmap. exists m. by split.
    + intros v _. unfold F.
      destruct (instance_min_z (the_volumes s) (object_idx v) (instance_idx v)); [|done].
      apply counted_in_lowered.
    + intros v Hv Hc. unfold F.
      assert ((object_idx v, instance_idx v) = (o, n)) as [= -> ->].
      { unfold counted_in in Hc. apply andb_true_iff in Hc as [_ Hc].
        by apply bool_decide_eq_true in Hc. }
      rewrite Hm. by apply Hexact.
Qed.

End EngineProofs.

(** ** The cached bounding box along runs of requests *)

Lemma box_kept_refl s : box_kept s s.
Proof. by right. Qed.

Lemma box_kept_trans s1 s2 s3 : box_kept s1 s2 → box_kept s2 s3 → box_kept s1 s3.
Proof.
  intros H12 [H|(Hl & Hb & Hd)]; [by left|].
  destruct H12 as [H|(Hl' & Hb' & Hd')]; [left; congruence|].
  right. repeat split; congruence.
Qed.

Lemma empty_box_settled_kept s s' : box_kept s s' → empty_box_settled s → empty_box_settled s'.
Proof.
  intros [H|(Hl & Hb & Hd)] Hs Hdirty Hlist; [congruence|].
  rewrite Hb. apply Hs; congruence.
Qed.

Lemma box_kept_clear s : box_kept s (clear s).
Proof.
  unfold clear. destruct (negb (m_valid s)); [by right|].
  case_bool_decide; [by right|]. cbv zeta. left. by destruct (negb _).
Qed.

Ltac box_kept_cases :=
  repeat match goal with
         | |- box_kept _ (if ?c then _ else _) => destruct c
         | |- box_kept _ (match ?x with _ => _ end) => destruct x
         end;
  first [by right | by left].

Lemma box_kept_run_call c s : box_kept s (run_call c s).
Proof.
  destruct c; cbn [run_call].
  - unfold add. cbv zeta. box_kept_cases.
  - unfold remove. cbv zeta. box_kept_cases.
  - unfold add_object. cbv zeta. box_kept_cases.
  - unfold remove_object. cbv zeta. box_kept_cases.
  - unfold add_instance. cbv zeta. box_kept_cases.
  - unfold remove_instance. cbv zeta. box_kept_cases.
  - unfold add_volume. cbv zeta. box_kept_cases.
  - unfold remove_volume. cbv zeta. box_kept_cases.
  - unfold add_volumes. cbv zeta. box_kept_cases.
  - unfold remove_volumes. cbv zeta. box_kept_cases.
  - unfold add_all. cbv zeta. box_kept_cases.
  - unfold remove_all. destruct (negb (m_valid s)); [by right|].
    destruct (is_empty s); [by right|].
    eapply box_kept_trans; [|apply box_kept_clear]. by right.
  - apply box_kept_clear.
  - unfold set_deserialized. cbv zeta. box_kept_cases.
Qed.
Section RequestProofs.
Context {G : Geometry}.
Variable NDEBUG : bool.

Ltac box_kept_done H :=
  repeat (apply bind_Done in H as (? & ? & H));
  injection H as <-; by left.

Lemma box_kept_translate displacement local s s' :
  translate NDEBUG displacement local s = Done s' → box_kept s s'.
Proof.
  unfold translate. destruct (negb (m_valid s)); [intros [= <-]; by right|].
  destruct (foldl _ _ _) as [s1 translation_type]. intros H. box_kept_done H.
Qed.

Lemma box_kept_rotate rotation transformation_type s s' :
  rotate NDEBUG rotation transformation_type s = Done s' → box_kept s s'.
Proof.
  unfold rotate. destruct (negb (m_valid s)); [intros [= <-]; by right|].
  intros H. apply bind_Done in H as (? & _ & H).
  apply bind_Done in H as (? & _ & H). injection H as <-. by left.
Qed.

Lemma box_kept_scale factors transformation_type s s' :
  scale NDEBUG factors transformation_type s = Done s' → box_kept s s'.
Proof.
  unfold scale. destruct (negb (m_valid s)); [intros [= <-]; by right|].
  intros H. box_kept_done H.
Qed.

Lemma box_kept_mirror axis s s' : mirror NDEBUG axis s = Done s' → box_kept s s'.
Proof.
  unfold mirror. destruct (negb (m_valid s)); [intros [= <-]; by right|].
  intros H. box_kept_done H.
Qed.

Lemma box_kept_translate_where moves follows displacement s :
  box_kept s (translate_where moves follows displacement s).
Proof.
  unfold translate_where. destruct (negb (m_valid s)); [by right|].
  cbv zeta. destruct (foldl _ _ _) as [s2 done']. by left.
Qed.

Lemma box_kept_instances_changed instance_ids_selected s s' :
  instances_changed NDEBUG instance_ids_selected s = Done s' → box_kept s s'.
Proof.
  unfold instances_changed. intros H.
  apply bind_Done in H as (? & _ & H). apply bind_Done in H as (? & _ & H).
  destruct (m_volumes s); [|done]. injection H as <-. by left.
Qed.

Lemma box_kept_volumes_changed map_volume_old_to_new s s' :
  volumes_changed NDEBUG map_volume_old_to_new s = Done s' → box_kept s s'.
Proof.
  unfold volumes_changed. intros H.
  apply bind_Done in H as (? & _ & H). apply bind_Done in H as (? & _ & H).
  destruct (m_volumes s); [|done]. destruct (foldl _ _ _) as [s1 list_new].
  injection H as <-. by left.
Qed.

Lemma empty_box_settled_get_bounding_box s :
  empty_box_settled s → empty_box_settled (get_bounding_box s).2.
Proof.
  intros Hs. unfold get_bounding_box. cbn [snd]. destruct (m_bounding_box_dirty s) eqn:Hd.
  - intros _ Hl. by apply calc_bounding_box_empty.
  - done.
Qed.

Lemma empty_box_settled_start_dragging s :
  empty_box_settled s → empty_box_settled (start_dragging s).
Proof.
  intros Hs. unfold start_dragging. destruct (negb (m_valid s)); [done|].
  unfold set_caches. cbv zeta.
  match goal with |- context [get_bounding_box ?x] =>
    pose proof (empty_box_settled_get_bounding_box x Hs) as H;
    destruct (get_bounding_box x) as [box s2]
  end.
  exact H.
Qed.

Lemma empty_box_settled_run_request r s s' :
  run_request NDEBUG r s = Done s' → empty_box_settled s → empty_box_settled s'.
Proof.
  destruct r; cbn [run_request].
  - by intros [= <-].
  - by intros [= <-].
  - intros [= <-]. apply empty_box_settled_kept, box_kept_run_call.
  - intros [= <-]. apply empty_box_settled_get_bounding_box.
  - intros [= <-]. apply empty_box_settled_start_dragging.
  - intros H. by eapply empty_box_settled_kept, box_kept_translate.
  - intros H. by eapply empty_box_settled_kept, box_kept_rotate.
  - intros H. by eapply empty_box_settled_kept, box_kept_scale.
  - intros H. by eapply empty_box_settled_kept, box_kept_mirror.
  - intros [= <-]. apply empty_box_settled_kept, box_kept_translate_where.
  - intros [= <-]. apply empty_box_settled_kept, box_kept_translate_where.
  - intros H. by eapply empty_box_settled_kept, box_kept_instances_changed.
  - intros H. by eapply empty_box_settled_kept, box_kept_volumes_changed.
Qed.

Lemma empty_box_settled_run_requests requests s s' :
  run_requests NDEBUG requests s = Done s' → empty_box_settled s → empty_box_settled s'.
Proof.
  intros H Hs. apply (foldlM_preserves empty_box_settled _ _ _ _ (λ a b a' _ Ha Hab,
    empty_box_settled_run_request b a a' Hab Ha) Hs H).
Qed.

(** C9, amended. [clear] is idempotent: a second call in a row changes
    nothing. And in every valid state that a run of requests reaches from
    a newly constructed selection, [get_bounding_box] called after
    [clear] returns the default-constructed box (not defined, both corners
    zero). On a selection that is not valid [clear] returns at once, and
    [get_bounding_box] still returns the box cached before. *)
Theorem clear_idempotent_and_empties_bounding_box (a : App) (requests : list Request)
    (s : Selection) :
  run_requests NDEBUG requests (Selection_new a) = Done s →
  clear (clear s) = clear s
  ∧ (m_valid s = true → (get_bounding_box (clear s)).1 = BoundingBoxf3_default)
  ∧ (m_valid s = false → clear s = s).
Proof.
  intros Hrun. split; [apply clear_idempotent|]. split.
  - intros Hv.
    assert (empty_box_settled s) as Hs.
    { apply (empty_box_settled_run_requests _ _ _ Hrun). by intros [=]. }
    unfold get_bounding_box. cbn [fst].
    destruct (decide (m_list s = ∅)) as [Hl|Hl].
    + assert (clear s = s) as ->.
      { unfold clear. rewrite Hv. cbn [negb]. by rewrite bool_decide_eq_true_2. }
      destruct (m_bounding_box_dirty s) eqn:Hd.
      * by apply calc_bounding_box_empty.
      * by apply Hs.
    + rewrite (clear_dirty s Hv Hl). apply calc_bounding_box_empty. by apply clear_m_list.
  - intros Hv. unfold clear. by rewrite Hv.
Qed.

End RequestProofs.

(** * Further properties *)

Lemma contains_all_volumes_spec idxs s :
  contains_all_volumes idxs s = true ↔ ∀ i, i ∈ idxs → i ∈ m_list s.
Proof.
  unfold contains_all_volumes. rewrite forallb_forall. split.
  - intros H i Hi. apply list_elem_of_In in Hi. apply H in Hi. by apply bool_decide_eq_true in Hi.
  - intros H i Hi. apply bool_decide_eq_true. apply H. by apply list_elem_of_In.
Qed.

Lemma matches_iff idxs s :
  NoDup idxs → Z.of_nat (length idxs) < 2 ^ 32 → Z.of_nat (size (m_list s)) < 2 ^ 32 →
  matches idxs s = true ↔ m_list s = list_to_set idxs.
Proof.
  intros Hnd Hl Hs. split; [by apply matches_spec|].
  intros Heq. unfold matches. apply andb_true_iff. split.
  - apply contains_all_volumes_spec. intros i Hi. rewrite Heq. by apply elem_of_list_to_set.
  - apply Z.eqb_eq. do 2 f_equal. rewrite Heq. by rewrite size_list_to_set.
Qed.

(** X2. For a list of indices without repetitions (and fewer than 2^32
    indices in the list and in the selection), [matches] returns true
    exactly when the list names the selected volumes and no others. *)
Theorem matches_exact_selection (volume_idxs : list nat) (s : Selection) :
  NoDup volume_idxs →
  Z.of_nat (length volume_idxs) < 2 ^ 32 → Z.of_nat (size (m_list s)) < 2 ^ 32 →
  matches volume_idxs s = true ↔ ∀ i, i ∈ m_list s ↔ i ∈ volume_idxs.
Proof.
  intros Hnd Hl Hs. rewrite (matches_iff _ _ Hnd Hl Hs). rewrite set_eq.
  by setoid_rewrite elem_of_list_to_set.
Qed.

Lemma filter_nil_iff {A} (P : A → Prop) `{∀ x, Decision (P x)} (l : list A) :
  filter P l = [] ↔ ∀ x, x ∈ l → ¬ P x.
Proof.
  induction l as [|a l IH]; [set_solver|].
  rewrite filter_cons. destruct (decide (P a)).
  - split; [done|]. intros Hall. exfalso. apply (Hall a); [left|done].
  - rewrite IH. set_solver.
Qed.

(** X3. For a list of indices without repetitions,
    [contains_all_volumes] returns true exactly when
    [get_unselected_volume_idxs_from] returns the empty list, and [matches]
    returns true exactly when both [get_missing_volume_idxs_from] and
    [get_unselected_volume_idxs_from] return the empty list. *)
Theorem missing_and_unselected_decide_matches (volume_idxs : list nat) (s : Selection) :
  NoDup volume_idxs →
  Z.of_nat (length volume_idxs) < 2 ^ 32 → Z.of_nat (size (m_list s)) < 2 ^ 32 →
  (contains_all_volumes volume_idxs s = true
   ↔ get_unselected_volume_idxs_from volume_idxs s = [])
  ∧ (matches volume_idxs s = true
     ↔ get_missing_volume_idxs_from volume_idxs s = []
       ∧ get_unselected_volume_idxs_from volume_idxs s = []).
Proof.
  intros Hnd Hl Hs.
  assert (get_unselected_volume_idxs_from volume_idxs s = []
          ↔ ∀ i, i ∈ volume_idxs → i ∈ m_list s) as Hu.
  { unfold get_unselected_volume_idxs_from. rewrite filter_nil_iff.
    split; intros H i Hi; specialize (H i Hi); [by apply dec_stable | tauto]. }
  assert (get_missing_volume_idxs_from volume_idxs s = []
          ↔ ∀ i, i ∈ m_list s → i ∈ volume_idxs) as Hm.
  { unfold get_missing_volume_idxs_from. rewrite filter_nil_iff.
    setoid_rewrite elem_of_m_list_order.
    split; intros H i Hi; specialize (H i Hi); [by apply dec_stable | tauto]. }
  split.
  - by rewrite contains_all_volumes_spec, Hu.
  - rewrite (matches_iff _ _ Hnd Hl Hs), Hm, Hu, set_eq.
    setoid_rewrite elem_of_list_to_set. naive_solver.
Qed.

(** ** Adding the volumes of an object, an instance or a part *)

Lemma volume_idxs_where_scene P s s' :
  flag_blind P → scene s' = scene s →
  volume_idxs_where P (the_volumes s') = volume_idxs_where P (the_volumes s).
Proof.
  intros HP Hsc. unfold volume_idxs_where.
  assert (usize (the_volumes s') = usize (the_volumes s)) as ->.
  { unfold usize. by rewrite <-!scene_length, Hsc. }
  apply List.filter_ext. intros i.
  pose proof (scene_lookup_test P s s' i HP Hsc) as H.
  destruct (the_volumes s' !! i), (the_volumes s !! i); simpl in H; congruence.
Qed.

Lemma usize_scene s s' : scene s' = scene s → usize (the_volumes s') = usize (the_volumes s).
Proof. intros Hsc. unfold usize. by rewrite <-!scene_length, Hsc. Qed.

(** The index set after the part the adders by object, instance and part
    share, once past their early return. *)
Lemma added_m_list P (pre : Selection → Selection) mode single s :
  m_valid s = true →
  m_list (pre s) = m_list s → m_volumes (pre s) = m_volumes s → m_valid (pre s) = m_valid s →
  m_list
    (set_bounding_boxes_dirty
       (update_type
          (do_add_volumes (volume_idxs_where P (the_volumes s))
             (set_m_mode mode (if single : bool then clear (pre s) else pre s)))))
  = (if single then ∅ else m_list s) ∪ list_to_set (volume_idxs_where P (the_volumes s)).
Proof.
  intros Hv Hl Hvol Hval. apply set_eq. intros j.
  proj_simpl. rewrite update_type_m_list, do_add_volumes_m_list. proj_simpl.
  assert (the_volumes (pre s) = the_volumes s) as Hvs by (unfold the_volumes; by rewrite Hvol).
  change (the_volumes (set_m_mode mode ?x)) with (the_volumes x).
  assert (usize (the_volumes (if single then clear (pre s) else pre s))
          = usize (the_volumes s)) as ->.
  { destruct single; [|by rewrite Hvs]. apply usize_scene. rewrite scene_clear.
    unfold scene. by rewrite Hvs. }
  rewrite elem_of_union, elem_of_list_to_set, elem_of_volume_idxs_where.
  assert (m_list (if single then clear (pre s) else pre s)
          = if single then ∅ else m_list s) as ->.
  { destruct single; [|done]. apply clear_m_list. by rewrite Hval. }
  tauto.
Qed.

Lemma volume_idxs_where_length P (vols : list GLVolume) :
  (length (volume_idxs_where P vols) ≤ length vols)%nat.
Proof.
  unfold volume_idxs_where.
  pose proof (List.filter_length_le
                (λ i, match vols !! i with Some v => P v | None => false end)
                (seq 0 (usize vols))) as Hle.
  rewrite length_seq in Hle. pose proof (usize_le vols). lia.
Qed.

Lemma added_or_kept_m_list P (pre : Selection → Selection) mode single s j :
  m_valid s = true → selection_invariant s → volumes_fit s →
  m_list (pre s) = m_list s → m_volumes (pre s) = m_volumes s → m_valid (pre s) = m_valid s →
  let volume_idxs := volume_idxs_where P (the_volumes s) in
  j ∈ m_list
        (if (negb single && contains_all_volumes volume_idxs s)
            || (single && matches volume_idxs s)
         then s
         else set_bounding_boxes_dirty
                (update_type
                   (do_add_volumes volume_idxs
                      (set_m_mode mode (if single then clear (pre s) else pre s)))))
  ↔ (single = false ∧ j ∈ m_list s) ∨ P <$> the_volumes s !! j = Some true.
Proof.
  intros Hv Hinv Hfit Hl Hvol Hval volume_idxs. subst volume_idxs.
  assert (∀ k, k ∈ volume_idxs_where P (the_volumes s)
               ↔ P <$> the_volumes s !! k = Some true) as Hidx.
  { intros k. rewrite elem_of_volume_idxs_where, (usize_fit _ Hfit).
    split; [tauto|]. intros Hk. split; [|done].
    destruct (the_volumes s !! k) eqn:E; [|done]. by eapply lookup_lt_Some. }
  match goal with |- context [if ?c then s else _] => destruct c eqn:Ec end.
  - apply orb_true_iff in Ec as [Ec|Ec]; apply andb_true_iff in Ec as [Hsingle Ec].
    + apply negb_true_iff in Hsingle as ->. rewrite contains_all_volumes_spec in Ec.
      rewrite <-Hidx. split; [by left | intros [[_ ?]|?]; [done | by apply Ec]].
    + subst single. apply matches_spec in Ec.
      * rewrite Ec, elem_of_list_to_set, Hidx.
        split; [by right | intros [[? _]|?]; done].
      * apply NoDup_volume_idxs_where.
      * pose proof (volume_idxs_where_length P (the_volumes s)). unfold volumes_fit in Hfit.
        lia.
      * pose proof (invariant_size s Hinv). unfold volumes_fit in Hfit. lia.
  - rewrite (added_m_list P pre mode single s Hv Hl Hvol Hval).
    rewrite elem_of_union, elem_of_list_to_set, Hidx.
    destruct single; set_solver.
Qed.

Lemma test_some_true {A} (P : A → bool) (o : option A) :
  P <$> o = Some true ↔ ∃ v, o = Some v ∧ P v = true.
Proof.
  destruct o as [a|]; simpl; split.
  - intros [= H]. by exists a.
  - intros (v & [= <-] & H). by rewrite H.
  - done.
  - by intros (v & ? & _).
Qed.

(** X4. In a valid state where the selected flags follow the index set,
    after [add_object O] the index set holds the volumes whose object index
    is [(int)O], and after [add_instance O N] those whose object index is
    [(int)O] and instance index [(int)N]; the volumes selected before stay
    selected exactly when the call is not a single selection. *)
Theorem add_object_add_instance_select (object_idx' instance_idx' : Z)
    (as_single_selection : bool) (s : Selection) :
  m_valid s = true → selection_invariant s → volumes_fit s →
  (∀ j, j ∈ m_list (add_object object_idx' as_single_selection s)
        ↔ (as_single_selection = false ∧ j ∈ m_list s)
          ∨ ∃ v, the_volumes s !! j = Some v ∧ object_idx v = int_cast object_idx')
  ∧ (∀ j, j ∈ m_list (add_instance object_idx' instance_idx' as_single_selection s)
          ↔ (as_single_selection = false ∧ j ∈ m_list s)
            ∨ ∃ v, the_volumes s !! j = Some v
                   ∧ object_idx v = int_cast object_idx'
                   ∧ instance_idx v = int_cast instance_idx').
Proof.
  intros Hv Hinv Hfit. split; intros j.
  - unfold add_object. rewrite Hv. cbn [negb]. unfold get_volume_idxs_from_object.
    rewrite (added_or_kept_m_list _ (take_snapshot "Selection-Add Object") Instance
               as_single_selection s j Hv Hinv Hfit eq_refl eq_refl eq_refl).
    rewrite test_some_true. by setoid_rewrite Z.eqb_eq.
  - unfold add_instance. rewrite Hv. cbn [negb]. unfold get_volume_idxs_from_instance.
    rewrite (added_or_kept_m_list _ (take_snapshot "Selection-Add Instance") Instance
               as_single_selection s j Hv Hinv Hfit eq_refl eq_refl eq_refl).
    rewrite test_some_true. setoid_rewrite andb_true_iff. setoid_rewrite Z.eqb_eq.
    naive_solver.
Qed.

Lemma scene_do_add_volumes idxs s : scene (do_add_volumes idxs s) = scene s.
Proof.
  revert s. induction idxs as [|i idxs IH]; intros s; [done|].
  change (do_add_volumes (i :: idxs) s)
    with (do_add_volumes idxs
            (if (i <? usize (the_volumes s))%nat then do_add_volume i s else s)).
  rewrite IH. destruct (i <? _)%nat; [apply scene_do_add_volume | done].
Qed.

Lemma m_valid_do_add_volumes idxs s : m_valid (do_add_volumes idxs s) = m_valid s.
Proof.
  revert s. induction idxs as [|i idxs IH]; intros s; [done|].
  change (do_add_volumes (i :: idxs) s)
    with (do_add_volumes idxs
            (if (i <? usize (the_volumes s))%nat then do_add_volume i s else s)).
  rewrite IH. by destruct (i <? _)%nat.
Qed.

(** Past their early return, the adders by object, instance and part
    leave a state in which the same call returns early. *)
Lemma added_again P (pre : Selection → Selection) mode single s :
  flag_blind P → m_valid s = true →
  m_list (pre s) = m_list s → m_volumes (pre s) = m_volumes s → m_valid (pre s) = m_valid s →
  let s' :=
    set_bounding_boxes_dirty
      (update_type
         (do_add_volumes (volume_idxs_where P (the_volumes s))
            (set_m_mode mode (if single : bool then clear (pre s) else pre s)))) in
  m_valid s' = true
  ∧ (negb single && contains_all_volumes (volume_idxs_where P (the_volumes s')) s')
    || (single && matches (volume_idxs_where P (the_volumes s')) s') = true.
Proof.
  intros HP Hv Hl Hvol Hval s'.
  assert (scene (pre s) = scene s) as Hpre by (unfold scene, the_volumes; by rewrite Hvol).
  assert (scene s' = scene s) as Hsc.
  { subst s'. change (scene (set_bounding_boxes_dirty ?x)) with (scene x).
    rewrite scene_update_type, scene_do_add_volumes.
    change (scene (set_m_mode mode ?x)) with (scene x).
    destruct single; [by rewrite scene_clear|done]. }
  assert (m_list s' = (if single then ∅ else m_list s)
                      ∪ list_to_set (volume_idxs_where P (the_volumes s))) as Hm
    by (by apply added_m_list).
  split.
  { subst s'. change (m_valid (set_bounding_boxes_dirty ?x)) with (m_valid x).
    rewrite m_valid_update_type, m_valid_do_add_volumes.
    change (m_valid (set_m_mode mode ?x)) with (m_valid x).
    destruct single; [rewrite m_valid_clear|]; by rewrite Hval. }
  rewrite (volume_idxs_where_scene P s s' HP Hsc).
  destruct single; cbn [negb andb orb].
  - unfold matches. apply andb_true_iff. split.
    + apply forallb_forall. intros i Hi. apply bool_decide_eq_true. rewrite Hm.
      apply elem_of_union_r, elem_of_list_to_set. by apply list_elem_of_In.
    + apply Z.eqb_eq. do 2 f_equal. rewrite Hm, union_empty_l_L.
      rewrite size_list_to_set; [done|apply NoDup_volume_idxs_where].
  - rewrite orb_false_r. apply contains_all_volumes_spec. intros i Hi. rewrite Hm.
    by apply elem_of_union_r, elem_of_list_to_set.
Qed.

Lemma flag_blind_object o : flag_blind (λ v, object_idx v =? int_cast o).
Proof. by intros v. Qed.

Lemma flag_blind_instance o n :
  flag_blind (λ v, (object_idx v =? int_cast o) && (instance_idx v =? int_cast n)).
Proof. by intros v. Qed.

Lemma add_object_settled o single s :
  add_object o single s = s
  ∨ (m_valid (add_object o single s) = true
     ∧ (negb single
        && contains_all_volumes (get_volume_idxs_from_object o (add_object o single s))
             (add_object o single s))
       || (single
           && matches (get_volume_idxs_from_object o (add_object o single s))
                (add_object o single s)) = true).
Proof.
  unfold add_object at 1 2 3 5. destruct (m_valid s) eqn:Hv; [|by left]. cbn [negb]. cbv zeta.
  match goal with |- context [if ?c then s else _] => destruct c eqn:Ec end; [by left|].
  right. unfold add_object. rewrite Hv. cbn [negb]. cbv zeta. rewrite Ec.
  apply (added_again _ (take_snapshot "Selection-Add Object") Instance single s
           (flag_blind_object o) Hv eq_refl eq_refl eq_refl).
Qed.

Lemma add_instance_settled o n single s :
  add_instance o n single s = s
  ∨ (m_valid (add_instance o n single s) = true
     ∧ (negb single
        && contains_all_volumes (get_volume_idxs_from_instance o n (add_instance o n single s))
             (add_instance o n single s))
       || (single
           && matches (get_volume_idxs_from_instance o n (add_instance o n single s))
                (add_instance o n single s)) = true).
Proof.
  unfold add_instance at 1 2 3 5. destruct (m_valid s) eqn:Hv; [|by left]. cbn [negb]. cbv zeta.
  match goal with |- context [if ?c then s else _] => destruct c eqn:Ec end; [by left|].
  right. unfold add_instance. rewrite Hv. cbn [negb]. cbv zeta. rewrite Ec.
  apply (added_again _ (take_snapshot "Selection-Add Instance") Instance single s
           (flag_blind_instance o n) Hv eq_refl eq_refl eq_refl).
Qed.

(** X5. [add_object] and [add_instance] are idempotent: a second call in
    a row with the same arguments changes nothing of the state, so it
    requests no second snapshot either. *)
Theorem add_object_add_instance_idempotent (object_idx' instance_idx' : Z)
    (as_single_selection : bool) (s : Selection) :
  add_object object_idx' as_single_selection (add_object object_idx' as_single_selection s)
  = add_object object_idx' as_single_selection s
  ∧ add_instance object_idx' instance_idx' as_single_selection
      (add_instance object_idx' instance_idx' as_single_selection s)
    = add_instance object_idx' instance_idx' as_single_selection s.
Proof.
  split.
  - destruct (add_object_settled object_idx' as_single_selection s) as [Heq|[Hv Hc]].
    + by rewrite !Heq.
    + revert Hv Hc. generalize (add_object object_idx' as_single_selection s). intros s' Hv Hc.
      unfold add_object. by rewrite Hv, Hc.
  - destruct (add_instance_settled object_idx' instance_idx' as_single_selection s)
      as [Heq|[Hv Hc]].
    + by rewrite !Heq.
    + revert Hv Hc.
      generalize (add_instance object_idx' instance_idx' as_single_selection s).
      intros s' Hv Hc. unfold add_instance. by rewrite Hv, Hc.
Qed.

(** ** Removing the volumes of an object, an instance or a part *)

Lemma do_remove_volume_m_list i s : m_list (do_remove_volume i s) = m_list s ∖ {[i]}.
Proof.
  unfold do_remove_volume. destruct (decide (i ∈ m_list s)); proj_simpl; [done|].
  set_solver.
Qed.

Lemma scene_do_remove_volume i s : scene (do_remove_volume i s) = scene s.
Proof.
  unfold do_remove_volume. destruct (decide _); [|done].
  rewrite scene_set_selected. done.
Qed.

Lemma remove_loop_m_list P (l : list nat) s j :
  flag_blind P →
  j ∈ m_list
        (foldl
           (λ s i,
              match the_volumes s !! i with
              | Some v => if P v then do_remove_volume i s else s
              | None => s
              end)
           s l)
  ↔ j ∈ m_list s ∧ ¬ (j ∈ l ∧ P <$> the_volumes s !! j = Some true).
Proof.
  intros HP. revert s. induction l as [|i l IH]; intros s.
  - simpl. rewrite elem_of_nil. tauto.
  - cbn [foldl]. rewrite IH. clear IH. rewrite elem_of_cons.
    pose proof (scene_lookup_test P s (do_remove_volume i s) j HP (scene_do_remove_volume i s))
      as Hj.
    destruct (the_volumes s !! i) as [v|] eqn:Ei.
    + destruct (P v) eqn:EP.
      * rewrite Hj, do_remove_volume_m_list, elem_of_difference, elem_of_singleton.
        split.
        -- intros [[Hm Hne] Hn]. split; [done|]. intros [[->|Hl] Ht]; [done|]. by apply Hn.
        -- intros [Hm Hn]. split; [split; [done|]|].
           ++ intros ->. apply Hn. split; [by left|]. by rewrite Ei; simpl; rewrite EP.
           ++ intros [Hl Ht]. apply Hn. split; [by right|done].
      * split; intros [Hm Hn]; (split; [done|]).
        -- intros [[->|Hl] Ht]; [|by apply Hn]. rewrite Ei in Ht. simpl in Ht. congruence.
        -- intros [Hl Ht]. apply Hn. split; [by right|done].
    + split; intros [Hm Hn]; (split; [done|]).
      * intros [[->|Hl] Ht]; [|by apply Hn]. by rewrite Ei in Ht.
      * intros [Hl Ht]. apply Hn. split; [by right|done].
Qed.

Lemma do_remove_where_m_list P s j :
  flag_blind P → volumes_fit s →
  j ∈ m_list (do_remove_where P s)
  ↔ j ∈ m_list s ∧ ¬ (∃ v, the_volumes s !! j = Some v ∧ P v = true).
Proof.
  intros HP Hfit. unfold do_remove_where. rewrite (remove_loop_m_list P _ s j HP).
  rewrite (usize_fit _ Hfit), elem_of_seq, test_some_true.
  split; intros [Hm Hn]; (split; [done|]).
  - intros (v & Hv & Ht). apply Hn. split; [|by exists v].
    apply lookup_lt_Some in Hv. lia.
  - intros [_ H]. by apply Hn.
Qed.

(** X6. In a valid state, after [remove_object O] the index set holds
    the volumes selected before whose object index is not [(int)O]; after
    [remove_instance O N] those that are not of object [(int)O] and
    instance [(int)N]; after [remove_volume O V] those that are not of
    object [(int)O] and part [(int)V]. *)
Theorem remove_object_instance_volume_deselect (object_idx' instance_idx' volume_idx' : Z)
    (s : Selection) :
  m_valid s = true → volumes_fit s →
  (∀ j, j ∈ m_list (remove_object object_idx' s)
        ↔ j ∈ m_list s
          ∧ ¬ ∃ v, the_volumes s !! j = Some v ∧ object_idx v = int_cast object_idx')
  ∧ (∀ j, j ∈ m_list (remove_instance object_idx' instance_idx' s)
          ↔ j ∈ m_list s
            ∧ ¬ ∃ v, the_volumes s !! j = Some v
                     ∧ object_idx v = int_cast object_idx'
                     ∧ instance_idx v = int_cast instance_idx')
  ∧ (∀ j, j ∈ m_list (remove_volume object_idx' volume_idx' s)
          ↔ j ∈ m_list s
            ∧ ¬ ∃ v, the_volumes s !! j = Some v
                     ∧ object_idx v = int_cast object_idx'
                     ∧ volume_idx v = int_cast volume_idx').
Proof.
  intros Hv Hfit. split; [|split]; intros j.
  - unfold remove_object. rewrite Hv. cbn [negb]. proj_simpl.
    rewrite update_type_m_list. unfold do_remove_object.
    rewrite do_remove_where_m_list; [|done|exact Hfit]. proj_simpl.
    by setoid_rewrite Z.eqb_eq.
  - unfold remove_instance. rewrite Hv. cbn [negb]. proj_simpl.
    rewrite update_type_m_list. unfold do_remove_instance.
    rewrite do_remove_where_m_list; [|done|exact Hfit]. proj_simpl.
    setoid_rewrite andb_true_iff. by setoid_rewrite Z.eqb_eq.
  - unfold remove_volume. rewrite Hv. cbn [negb]. proj_simpl.
    rewrite update_type_m_list.
    rewrite do_remove_where_m_list; [|done|exact Hfit].
    setoid_rewrite andb_true_iff. by setoid_rewrite Z.eqb_eq.
Qed.

Lemma int_cast_unsigned_cast z : int_range z → int_cast (unsigned_cast z) = z.
Proof.
  unfold int_range, int_cast, unsigned_cast, u32. intros Hz.
  rewrite Z.mod_mod by lia.
  destruct (decide (0 ≤ z)).
  - rewrite Z.mod_small by lia. destruct (z <? 2 ^ 31) eqn:E; [done|].
    apply Z.ltb_ge in E. lia.
  - assert (z mod 2 ^ 32 = z + 2 ^ 32) as ->.
    { symmetry. apply (Z.mod_unique_pos _ _ (-1)); lia. }
    destruct (z + 2 ^ 32 <? 2 ^ 31) eqn:E; [|lia].
    apply Z.ltb_lt in E. lia.
Qed.

(** X7. In a valid state [remove i] changes nothing when [i] is not
    selected or is past the end of the volume list. When volume [i] is
    selected, the index set afterwards is the one before without [i] alone
    in [Volume] mode, and without every volume of the object and instance
    of [i] in [Instance] mode. *)
Theorem remove_deselects_by_mode (i : nat) (s : Selection) :
  m_valid s = true → volumes_fit s →
  ((i ∉ m_list s ∨ (length (the_volumes s) ≤ i)%nat) → remove i s = s)
  ∧ ∀ v, the_volumes s !! i = Some v → i ∈ m_list s →
         int_range (object_idx v) → int_range (instance_idx v) →
         ∀ j, j ∈ m_list (remove i s)
              ↔ j ∈ m_list s
                ∧ match m_mode s with
                  | Volume => j ≠ i
                  | Instance =>
                      ¬ ∃ w, the_volumes s !! j = Some w
                             ∧ object_idx w = object_idx v
                             ∧ instance_idx w = instance_idx v
                  end.
Proof.
  intros Hv Hfit. split.
  - intros H. unfold remove. rewrite Hv, (usize_fit _ Hfit). cbn [negb orb].
    destruct (length (the_volumes s) <=? i)%nat eqn:E; [done|].
    apply Nat.leb_gt in E. destruct H as [H|H]; [|lia].
    unfold contains_volume. by rewrite bool_decide_eq_false_2.
  - intros v Hi Hin Ho Hn j. unfold remove. rewrite Hv, (usize_fit _ Hfit). cbn [negb orb].
    assert ((length (the_volumes s) <=? i)%nat = false) as ->.
    { apply Nat.leb_gt. by eapply lookup_lt_Some. }
    unfold contains_volume. rewrite bool_decide_eq_true_2 by done. cbn [negb].
    change (the_volumes (take_snapshot ?l s)) with (the_volumes s). rewrite Hi.
    change (m_mode (take_snapshot ?l s)) with (m_mode s).
    proj_simpl. rewrite update_type_m_list. destruct (m_mode s).
    + rewrite do_remove_volume_m_list. proj_simpl. set_solver.
    + unfold do_remove_instance. rewrite do_remove_where_m_list; [|done|exact Hfit].
      proj_simpl. rewrite !int_cast_unsigned_cast by done.
      setoid_rewrite andb_true_iff. by setoid_rewrite Z.eqb_eq.
Qed.

(** X8. In a valid state where the selected flags follow the index set,
    after [add_volume O V N] the index set holds the volumes of object
    [(int)O], part [(int)V] and instance [N], and the volumes selected
    before exactly when the call is not a single selection. For the
    instance index [-1] no volume is added. *)
Theorem add_volume_selects_part (object_idx' volume_idx' instance_idx' : Z)
    (as_single_selection : bool) (s : Selection) :
  m_valid s = true → selection_invariant s → volumes_fit s → int_range instance_idx' →
  ∀ j, j ∈ m_list (add_volume object_idx' volume_idx' instance_idx' as_single_selection s)
       ↔ (as_single_selection = false ∧ j ∈ m_list s)
         ∨ (instance_idx' ≠ -1
            ∧ ∃ v, the_volumes s !! j = Some v
                   ∧ object_idx v = int_cast object_idx'
                   ∧ volume_idx v = int_cast volume_idx'
                   ∧ instance_idx v = instance_idx').
Proof.
  intros Hv Hinv Hfit Hn j. unfold add_volume. rewrite Hv. cbn [negb]. cbv zeta.
  unfold get_volume_idxs_from_volume.
  rewrite (added_or_kept_m_list _ (λ s, s) Volume as_single_selection s j Hv Hinv Hfit
             eq_refl eq_refl eq_refl).
  rewrite test_some_true, (int_cast_unsigned_cast _ Hn).
  setoid_rewrite andb_true_iff. setoid_rewrite andb_true_iff.
  setoid_rewrite negb_true_iff. setoid_rewrite Z.eqb_eq. setoid_rewrite Z.eqb_neq.
  split.
  - intros [H|(v & Hj & [[Ho Hvi] [Hne Hi]])]; [by left|]. right. split; [done|]. by exists v.
  - intros [H|(Hne & v & Hj & Ho & Hvi & Hi)]; [by left|]. right. by exists v.
Qed.

(** ** The Content Map *)

Lemma content_fold vols (l : list nat) (c : gmap Z (gset Z)) o :
  foldl
    (λ c i,
       match vols !! i with
       | Some volume =>
           let c1 :=
             match c !! object_idx volume with
             | None => <[object_idx volume := ∅]> c
             | Some _ => c
             end in
           alter (λ idxs, {[instance_idx volume]} ∪ idxs) (object_idx volume) c1
       | None => c
       end)
    c l !! o
  = match instances_listed vols l o with
    | [] => c !! o
    | ns => Some (list_to_set ns ∪ default ∅ (c !! o))
    end.
Proof.
  revert c. induction l as [|i l IH]; intros c; [done|].
  cbn [foldl]. rewrite IH. clear IH. unfold instances_listed. cbn [omap list_omap].
  fold (instances_listed vols l o).
  destruct (vols !! i) as [v|] eqn:Ei; [|done]. cbv zeta.
  destruct (object_idx v =? o) eqn:Eo.
  - apply Z.eqb_eq in Eo. subst o. rewrite lookup_alter_eq.
    destruct (c !! object_idx v) as [I|] eqn:Ec.
    + rewrite Ec. simpl. destruct (instances_listed vols l (object_idx v)); simpl; f_equal;
        set_solver.
    + rewrite lookup_insert_eq. simpl.
      destruct (instances_listed vols l (object_idx v)); simpl; f_equal; set_solver.
  - apply Z.eqb_neq in Eo. rewrite lookup_alter_ne by done.
    destruct (c !! object_idx v); [done|]. by rewrite lookup_insert_ne.
Qed.

Lemma update_type_content_lookup s o :
  update_type_content s !! o
  = match instances_listed (the_volumes s) (m_list_order s) o with
    | [] => None
    | ns => Some (list_to_set ns)
    end.
Proof.
  unfold update_type_content. rewrite content_fold, lookup_empty. simpl.
  destruct (instances_listed _ _ _); [done|]. f_equal. set_solver.
Qed.

Lemma elem_of_instances_listed vols l o n :
  n ∈ instances_listed vols l o
  ↔ ∃ i v, i ∈ l ∧ vols !! i = Some v ∧ object_idx v = o ∧ instance_idx v = n.
Proof.
  unfold instances_listed. rewrite list_elem_of_omap. split.
  - intros (i & Hi & H). destruct (vols !! i) as [v|] eqn:E; [|done].
    destruct (object_idx v =? o) eqn:Eo; [|done]. apply Z.eqb_eq in Eo.
    injection H as <-. by exists i, v.
  - intros (i & v & Hi & E & Eo & <-). exists i. split; [done|].
    rewrite E. apply Z.eqb_eq in Eo. by rewrite Eo.
Qed.

Lemma content_update_type s : content (m_cache (update_type s)) = update_type_content s.
Proof.
  unfold update_type. destruct (update_type_classify _) as [[type mode] disable]. done.
Qed.

Lemma update_type_content_spec s o I :
  update_type_content s !! o = Some I
  ↔ I ≠ ∅
    ∧ ∀ n, n ∈ I ↔ ∃ i v, i ∈ m_list s ∧ the_volumes s !! i = Some v
                          ∧ object_idx v = o ∧ instance_idx v = n.
Proof.
  rewrite update_type_content_lookup.
  assert (∀ n, n ∈ instances_listed (the_volumes s) (m_list_order s) o
               ↔ ∃ i v, i ∈ m_list s ∧ the_volumes s !! i = Some v
                        ∧ object_idx v = o ∧ instance_idx v = n) as Hn.
  { intros n. rewrite elem_of_instances_listed. by setoid_rewrite elem_of_m_list_order. }
  destruct (instances_listed _ _ _) as [|n0 ns] eqn:El.
  - split; [done|]. intros [Hne HI]. exfalso. apply Hne. apply set_eq. intros n.
    rewrite HI, <-Hn. set_solver.
  - split.
    + intros H. apply (inj Some) in H. subst I. split.
      * intros He. assert (n0 ∈ (∅ : gset Z)) as Hin; [|set_solver].
        rewrite <-He, elem_of_list_to_set. by left.
      * intros n. by rewrite elem_of_list_to_set, Hn.
    + intros [_ HI]. f_equal. apply set_eq. intros n.
      by rewrite elem_of_list_to_set, Hn, HI.
Qed.

Lemma map_to_list_single {A} (m : gmap Z A) k a : m = {[k := a]} → map_to_list m = [(k, a)].
Proof. intros ->. apply map_to_list_singleton. Qed.

Lemma map_to_list_two {A} (m : gmap Z A) k1 k2 :
  k1 ≠ k2 → is_Some (m !! k1) → is_Some (m !! k2) →
  ∃ e1 e2 rest, map_to_list m = e1 :: e2 :: rest.
Proof.
  intros Hne [a1 H1] [a2 H2].
  destruct (map_to_list m) as [|e1 [|e2 rest]] eqn:E.
  - apply map_to_list_empty_iff in E. subst. by rewrite lookup_empty in H1.
  - assert ((k1, a1) ∈ map_to_list m) as Hin1 by (by apply elem_of_map_to_list).
    assert ((k2, a2) ∈ map_to_list m) as Hin2 by (by apply elem_of_map_to_list).
    rewrite E in Hin1, Hin2. apply list_elem_of_singleton in Hin1, Hin2. congruence.
  - by exists e1, e2, rest.
Qed.

(** X9. When every selected index is inside the volume list,
    [update_type] leaves as content map the map from each object index of a
    selected volume to the instance indices of the selected volumes of
    that object, with no entry for the other objects. Afterwards
    [get_object_idx] is the object of the selected volumes when they share
    one and [-1] when the selection is empty or spans two objects, and
    [get_instance_idx] is their instance when they share object and
    instance and [-1] when the selection is empty or spans two objects or
    two instances. *)
Theorem update_type_content_map (s : Selection) :
  (∀ i, i ∈ m_list s → is_Some (the_volumes s !! i)) →
  (∀ o I, content (m_cache (update_type s)) !! o = Some I
          ↔ I ≠ ∅
            ∧ ∀ n, n ∈ I ↔ ∃ i v, i ∈ m_list s ∧ the_volumes s !! i = Some v
                                  ∧ object_idx v = o ∧ instance_idx v = n)
  ∧ (∀ o, m_list s ≠ ∅ →
          (∀ i v, i ∈ m_list s → the_volumes s !! i = Some v → object_idx v = o) →
          get_object_idx (update_type s) = o)
  ∧ (∀ o n, m_list s ≠ ∅ →
            (∀ i v, i ∈ m_list s → the_volumes s !! i = Some v
                    → object_idx v = o ∧ instance_idx v = n) →
            get_instance_idx (update_type s) = n)
  ∧ (m_list s = ∅ →
     get_object_idx (update_type s) = -1 ∧ get_instance_idx (update_type s) = -1)
  ∧ (∀ i j v w, i ∈ m_list s → j ∈ m_list s →
                the_volumes s !! i = Some v → the_volumes s !! j = Some w →
                (object_idx v ≠ object_idx w →
                 get_object_idx (update_type s) = -1 ∧ get_instance_idx (update_type s) = -1)
                ∧ (instance_idx v ≠ instance_idx w → get_instance_idx (update_type s) = -1)).
Proof.
  intros Hrange.
  assert (∀ o', is_Some (update_type_content s !! o')
                ↔ ∃ i v, i ∈ m_list s ∧ the_volumes s !! i = Some v ∧ object_idx v = o')
    as Hdom.
  { intros o'. split.
    - intros [I HI]. apply update_type_content_spec in HI as [Hne HI].
      apply set_choose_L in Hne as [n Hn]. apply HI in Hn as (i & v & ? & ? & ? & _).
      by exists i, v.
    - intros (i & v & Hi & Hv & Ho).
      rewrite update_type_content_lookup.
      assert (instance_idx v ∈ instances_listed (the_volumes s) (m_list_order s) o') as Hin.
      { apply elem_of_instances_listed. exists i, v. by rewrite elem_of_m_list_order. }
      destruct (instances_listed _ _ _); [by apply elem_of_nil in Hin | by eexists]. }
  assert (∀ o, m_list s ≠ ∅ →
            (∀ i v, i ∈ m_list s → the_volumes s !! i = Some v → object_idx v = o) →
            ∃ I, update_type_content s = {[o := I]}
                 ∧ ∀ n, n ∈ I ↔ ∃ i v, i ∈ m_list s ∧ the_volumes s !! i = Some v
                                       ∧ object_idx v = o ∧ instance_idx v = n) as Hone.
  { intros o Hne Hall. apply set_choose_L in Hne as [i Hi].
    destruct (Hrange i Hi) as [v Hv].
    assert (is_Some (update_type_content s !! o)) as [I HI].
    { apply Hdom. exists i, v. split; [done|]. split; [done|]. by eapply Hall. }
    exists I. split; [|by apply update_type_content_spec in HI as [_ ?]].
    apply map_eq. intros o'. destruct (decide (o' = o)) as [->|Hne].
    - by rewrite lookup_singleton_eq.
    - rewrite lookup_singleton_ne by done. apply eq_None_not_Some.
      intros Hs. apply Hdom in Hs as (k & w & Hk & Hw & Ho). apply Hne. rewrite <-Ho.
      by eapply Hall. }
  split; [|split; [|split; [|split]]].
  - intros o I. rewrite content_update_type. apply update_type_content_spec.
  - intros o Hne Hall. destruct (Hone o Hne Hall) as (I & Hc & _).
    unfold get_object_idx. rewrite content_update_type.
    by rewrite (map_to_list_single _ _ _ Hc).
  - intros o n Hne Hall.
    destruct (Hone o Hne) as (I & Hc & HI); [intros i v Hi Hv; by apply (Hall i v)|].
    unfold get_instance_idx. rewrite content_update_type.
    rewrite (map_to_list_single _ _ _ Hc).
    assert (I = {[n]}) as ->.
    { apply set_eq. intros n'. rewrite HI, elem_of_singleton. split.
      - intros (i & v & Hi & Hv & _ & <-). by apply (Hall i v).
      - intros ->. apply set_choose_L in Hne as [i Hi]. destruct (Hrange i Hi) as [v Hv].
        exists i, v. destruct (Hall i v Hi Hv). done. }
    by rewrite elements_singleton.
  - intros Hl. unfold get_object_idx, get_instance_idx. rewrite content_update_type.
    unfold update_type_content. rewrite (m_list_order_empty _ Hl). simpl.
    by rewrite map_to_list_empty.
  - intros i j v w Hi Hj Hv Hw. split.
    + intros Hne.
      destruct (map_to_list_two (update_type_content s) (object_idx v) (object_idx w) Hne)
        as (e1 & e2 & rest & E).
      { apply Hdom. by exists i, v. }
      { apply Hdom. by exists j, w. }
      unfold get_object_idx, get_instance_idx. rewrite content_update_type, E.
      by destruct e1.
    + intros Hne. unfold get_instance_idx. rewrite content_update_type.
      destruct (decide (object_idx v = object_idx w)) as [Ho|Ho].
      2:{ destruct (map_to_list_two (update_type_content s) (object_idx v) (object_idx w) Ho)
            as (e1 & e2 & rest & E).
          { apply Hdom. by exists i, v. }
          { apply Hdom. by exists j, w. }
          rewrite E. by destruct e1. }
      destruct (map_to_list (update_type_content s)) as [|[o I] [|e2 rest]] eqn:E; [done| |done].
      assert (update_type_content s !! object_idx v = Some I) as HI.
      { assert (is_Some (update_type_content s !! object_idx v)) as [I' HI'].
        { apply Hdom. by exists i, v. }
        pose proof HI' as Hin. apply elem_of_map_to_list in Hin. rewrite E in Hin.
        apply list_elem_of_singleton in Hin. congruence. }
      apply update_type_content_spec in HI as [_ HI].
      assert (instance_idx v ∈ I) as H1 by (apply HI; by exists i, v).
      assert (instance_idx w ∈ I) as H2 by (apply HI; by exists j, w).
      destruct (elements I) as [|a [|b l]] eqn:El; [done| |done].
      apply elem_of_elements in H1, H2. rewrite El in H1, H2.
      apply list_elem_of_singleton in H1, H2. congruence.
Qed.

(** ** The kinds of selection *)

Lemma classify_kind s :
  let '(type, mode, _) := update_type_classify s in
  (type = Invalid ↔ m_valid s = false)
  ∧ (type = Empty ↔ m_valid s = true ∧ m_list s = ∅)
  ∧ (type = WipeTower
     ↔ m_valid s = true
       ∧ ∃ i v, m_list s = {[i]} ∧ the_volumes s !! i = Some v ∧ is_wipe_tower v = true)
  ∧ (type = SingleModifier
     ↔ m_valid s = true
       ∧ ∃ i v, m_list s = {[i]} ∧ the_volumes s !! i = Some v
                ∧ is_wipe_tower v = false ∧ is_modifier v = true)
  ∧ (is_full_type type = true → mode = Instance)
  ∧ (mode = m_mode s ∨ mode = Instance).
Proof.
  unfold update_type_classify. cbv zeta.
  destruct (m_valid s) eqn:Hv; cbn [negb].
  2:{ cbv beta iota. repeat split; try done; try (by intros [? _]); auto. }
  case_bool_decide as Hempty.
  { cbv beta iota. repeat split; try done; auto;
      intros (_ & i & v & Hl & _); rewrite Hl in Hempty;
      by apply non_empty_singleton_L in Hempty. }
  case_bool_decide as Hone.
  - apply size_1_elem_of in Hone as [i Hi]. apply leibniz_equiv in Hi.
    rewrite (m_list_order_singleton s i Hi). change (default 0%nat (head [i])) with i.
    assert (∀ i' (v' : GLVolume), m_list s = {[i']} → i' = i) as Hsame.
    { intros i' v' H. rewrite Hi in H. symmetry in H.
      assert (i' ∈ ({[i]} : gset nat)) as Hin by (rewrite <-H; set_solver). set_solver. }
    destruct (the_volumes s !! i) as [first|] eqn:Hf.
    + destruct (is_wipe_tower first) eqn:Hw; [|destruct (is_modifier first) eqn:Hm];
        repeat (match goal with
                | |- context [if ?c then _ else _] => destruct c
                end);
        cbv beta iota; repeat split; try done; auto; try (by intros [_ ?]);
        try (by exists i, first);
        intros (_ & i' & v' & Hl & Hv' & H');
        rewrite (Hsame i' v' Hl) in Hv'; destruct_and?; congruence.
    + cbv beta iota. repeat split; try done; auto; try (by intros [_ ?]);
        intros (_ & i' & v' & Hl & Hv' & H');
        rewrite (Hsame i' v' Hl) in Hv'; congruence.
  - assert (∀ i, m_list s ≠ {[i]}) as Hmany.
    { intros i Hi. apply Hone. rewrite Hi. apply size_singleton. }
    repeat (match goal with
            | |- context [if ?c then _ else _] => destruct c
            | |- context [match ?x with _ => _ end] =>
                let T := type of x in
                lazymatch T with
                | (EType * EMode * bool)%type => fail
                | (EType * EMode)%type => fail
                | _ => destruct x
                end
            end);
      (cbv beta iota; repeat split; try done; auto; try (by intros [_ ?]);
       intros (_ & i' & v' & Hl & _); by apply Hmany in Hl).
Qed.

(** X10. The type [update_type] leaves: [Invalid] exactly when the state
    is not valid; [Empty] exactly when it is valid and nothing is selected;
    [WipeTower] exactly when it is valid and the one selected volume is the
    wipe tower; [SingleModifier] exactly when it is valid and the one
    selected volume is a modifier and not the wipe tower. The types of full
    objects and full instances come with the mode [Instance], and the mode
    afterwards is always the mode before or [Instance]. *)
Theorem update_type_kind (s : Selection) :
  (m_type (update_type s) = Invalid ↔ m_valid s = false)
  ∧ (m_type (update_type s) = Empty ↔ m_valid s = true ∧ m_list s = ∅)
  ∧ (m_type (update_type s) = WipeTower
     ↔ m_valid s = true
       ∧ ∃ i v, m_list s = {[i]} ∧ the_volumes s !! i = Some v ∧ is_wipe_tower v = true)
  ∧ (m_type (update_type s) = SingleModifier
     ↔ m_valid s = true
       ∧ ∃ i v, m_list s = {[i]} ∧ the_volumes s !! i = Some v
                ∧ is_wipe_tower v = false ∧ is_modifier v = true)
  ∧ (is_full_type (m_type (update_type s)) = true → m_mode (update_type s) = Instance)
  ∧ (m_mode (update_type s) = m_mode s ∨ m_mode (update_type s) = Instance).
Proof.
  unfold update_type.
  match goal with |- context [update_type_classify ?s1] =>
    pose proof (classify_kind s1) as Hc;
    destruct (update_type_classify s1) as [[type mode] disable]
  end.
  exact Hc.
Qed.

(** ** Rebuilds driven from outside *)

Lemma lower_bound_hit {A} (lt : A → A → bool) (l : list A) (val : A) :
  (∀ a, lt a a = false) →
  (∀ a b c, lt a b = true → lt b c = true → lt a c = true) →
  (∀ a b, lt a b = false → lt b a = false → a = b) →
  StronglySorted (sorted_le lt) l →
  l !! lower_bound lt l val = Some val ↔ val ∈ l.
Proof.
  intros Hirr Htr Htot Hs. split.
  - intros H. by eapply list_elem_of_lookup_2.
  - intros Hin.
    pose proof (proj2 (binary_search_sorted lt Hirr Htr Htot l val Hs) Hin) as Hb.
    unfold binary_search in Hb.
    destruct (l !! lower_bound lt l val) as [x|] eqn:Ex; [|done].
    apply negb_true_iff in Hb. f_equal. apply Htot; [|done].
    unfold lower_bound in Ex.
    destruct (lower_bound_loop_spec lt Hirr Htr Htot l val (length l) 0 (length l) Hs)
      as [_ Hhigh]; [lia|lia|intros; lia| |].
    { intros k y Hk Hy. apply lookup_lt_Some in Hy. lia. }
    by eapply (Hhigh _ x (Nat.le_refl _)).
Qed.

Lemma ltb_sorted (ids : list N) : StronglySorted N.le ids → StronglySorted (sorted_le N.ltb) ids.
Proof.
  induction 1 as [|a l Hs IH Hall]; constructor; [done|].
  eapply Forall_impl; [exact Hall|]. intros b Hab. unfold sorted_le. apply N.ltb_ge. exact Hab.
Qed.

Lemma instance_id_listed (ids : list N) (id : N) :
  StronglySorted N.le ids →
  match ids !! lower_bound N.ltb ids id with
  | Some found => (found =? id)%N
  | None => false
  end = true
  ↔ id ∈ ids.
Proof.
  intros Hs. rewrite <-(lower_bound_hit N.ltb ids id); [| |
    |
    |by apply ltb_sorted].
  - destruct (ids !! lower_bound N.ltb ids id) as [x|]; [|done].
    rewrite N.eqb_eq. split; [by intros ->|by intros [= ->]].
  - apply N.ltb_irrefl.
  - intros a b c. rewrite !N.ltb_lt. lia.
  - intros a b. rewrite !N.ltb_ge. lia.
Qed.

Lemma add_where_flags Q s l j :
  flag_blind Q → NoDup l →
  flags (add_where Q s l) !! j
  = (λ b, b || bool_decide (j ∈ l ∧ Q <$> the_volumes s !! j = Some true)) <$> flags s !! j.
Proof.
  intros HQ Hnd. revert s. induction Hnd as [|i l Hi Hnd IH]; intros s.
  - change (add_where Q s []) with s. destruct (flags s !! j) as [b|]; [|done].
    cbn [fmap option_fmap option_map]. f_equal.
    rewrite bool_decide_eq_false_2; [by rewrite orb_false_r|]. by intros [?%elem_of_nil _].
  - rewrite add_where_cons, IH. clear IH.
    destruct (the_volumes s !! i) as [v|] eqn:Ei.
    + destruct (Q v) eqn:EQ.
      * pose proof (scene_lookup_test Q s (do_add_volume i s) j HQ (scene_do_add_volume i s))
          as Hj. rewrite Hj.
        unfold flags at 1. rewrite the_volumes_do_add_volume, flags_alter_selected.
        fold (flags s). rewrite list_lookup_alter.
        destruct (decide (i = j)) as [->|Hne].
        -- destruct (flags s !! j) as [b|] eqn:Eb; [|done]. cbn [fmap option_fmap option_map]. f_equal.
           rewrite orb_true_l. symmetry. apply orb_true_iff. right.
           apply bool_decide_eq_true. split; [by left|]. by rewrite Ei; simpl; rewrite EQ.
        -- destruct (flags s !! j) as [b|] eqn:Eb; [|done]. cbn [fmap option_fmap option_map]. f_equal. f_equal.
           apply bool_decide_ext. rewrite elem_of_cons. naive_solver.
      * destruct (flags s !! j) as [b|] eqn:Eb; [|done]. cbn [fmap option_fmap option_map]. f_equal. f_equal.
        apply bool_decide_ext. rewrite elem_of_cons. split; [tauto|].
        intros [[->|?] Ht]; [|done]. rewrite Ei in Ht. simpl in Ht. congruence.
    + destruct (flags s !! j) as [b|] eqn:Eb; [|done]. cbn [fmap option_fmap option_map]. f_equal. f_equal.
      apply bool_decide_ext. rewrite elem_of_cons. split; [tauto|].
      intros [[->|?] Ht]; [|done]. by rewrite Ei in Ht.
Qed.

(** X11. [instances_changed] on a sorted list of instance ids: whenever
    it returns, the index set holds exactly the volumes whose geometry id
    names one of the listed instances, and a volume is flagged selected
    exactly when it was flagged before or is selected now (the flags of the
    volumes that left the selection are not lowered). It returns only
    with a volume list bound, and in a build with assertions only in a
    valid state in [Instance] mode. With a volume list bound it returns in
    every such state, and in every state in a build without assertions;
    with none bound it reads through the null list there instead. *)
Theorem instances_changed_selects_listed (NDEBUG : bool) (instance_ids_selected : list N)
    (s : Selection) :
  volumes_fit s → StronglySorted N.le instance_ids_selected →
  (∀ s', instances_changed NDEBUG instance_ids_selected s = Done s' →
     (∀ j, j ∈ m_list s'
           ↔ ∃ v, the_volumes s !! j = Some v ∧ (geometry_id v).2 ∈ instance_ids_selected)
     ∧ (∀ j v, the_volumes s !! j = Some v →
               selected <$> the_volumes s' !! j
               = Some (selected v || bool_decide (j ∈ m_list s')))
     ∧ (NDEBUG = false → m_valid s = true ∧ m_mode s = Instance)
     ∧ is_Some (m_volumes s))
  ∧ (NDEBUG = true ∨ (m_valid s = true ∧ m_mode s = Instance) →
     (is_Some (m_volumes s) →
      ∃ s', instances_changed NDEBUG instance_ids_selected s = Done s')
     ∧ (m_volumes s = None →
        instances_changed NDEBUG instance_ids_selected s = NullDereference)).
Proof.
  intros Hfit Hsorted.
  set (Q := λ volume : GLVolume,
         match instance_ids_selected
               !! lower_bound N.ltb instance_ids_selected (geometry_id volume).2 with
         | Some id => (id =? (geometry_id volume).2)%N
         | None => false
         end).
  assert (flag_blind Q) as HQ by (by intros v).
  assert (∀ s0 : Selection,
            foldl
              (λ s i,
                 match the_volumes s !! i with
                 | Some volume =>
                     match instance_ids_selected
                           !! lower_bound N.ltb instance_ids_selected (geometry_id volume).2 with
                     | Some id =>
                         if (id =? (geometry_id volume).2)%N then do_add_volume i s else s
                     | None => s
                     end
                 | None => s
                 end)
              s0 (seq 0 (usize (the_volumes s0)))
            = add_where Q s0 (seq 0 (usize (the_volumes s0)))) as Hloop.
  { intros s0. unfold add_where. apply foldl_ext_all. intros sa i.
    destruct (the_volumes sa !! i) as [v|]; [|done]. unfold Q.
    by destruct (instance_ids_selected !! _). }
  assert (∀ j, Q <$> the_volumes s !! j = Some true
               ↔ ∃ v, the_volumes s !! j = Some v
                      ∧ (geometry_id v).2 ∈ instance_ids_selected) as HQspec.
  { intros j. rewrite test_some_true. unfold Q.
    by setoid_rewrite (instance_id_listed instance_ids_selected _ Hsorted). }
  split.
  - intros s' H. unfold instances_changed in H.
    apply bind_Done in H as (u1 & Ha1 & H). apply bind_Done in H as (u2 & Ha2 & H).
    destruct (m_volumes s) as [bound_list|] eqn:Ebound; [|done].
    cbv zeta in H. rewrite Hloop in H. injection H as <-.
    change (the_volumes (set_m_list ∅ s)) with (the_volumes s).
    assert (∀ j, j ∈ m_list
                       (set_bounding_boxes_dirty
                          (update_type
                             (add_where Q (set_m_list ∅ s) (seq 0 (usize (the_volumes s))))))
                 ↔ ∃ v, the_volumes s !! j = Some v
                        ∧ (geometry_id v).2 ∈ instance_ids_selected) as Hm.
    { intros j. proj_simpl. rewrite update_type_m_list, add_where_m_list by done.
      proj_simpl. change (the_volumes (set_m_list ∅ s)) with (the_volumes s).
      rewrite <-HQspec, (usize_fit _ Hfit), elem_of_seq. split.
      - intros [?|[_ ?]]; [set_solver|done].
      - intros Hj. right. split; [|done].
        destruct (the_volumes s !! j) eqn:E; [|done]. apply lookup_lt_Some in E. lia. }
    split; [exact Hm|]. split.
    + intros j v Hv.
      change (selected <$> the_volumes ?x !! j) with ((selected <$> the_volumes x !! j)).
      rewrite <-list_lookup_fmap.
      change (selected <$> the_volumes (set_bounding_boxes_dirty ?x)) with (flags x).
      rewrite update_type_flags, add_where_flags by (done || apply NoDup_seq).
      change (the_volumes (set_m_list ∅ s)) with (the_volumes s).
      change (flags (set_m_list ∅ s)) with (flags s).
      unfold flags. rewrite list_lookup_fmap, Hv. simpl. f_equal. f_equal.
      apply bool_decide_ext.
      change (m_list (update_type ?x)) with (m_list (set_bounding_boxes_dirty (update_type x))).
      rewrite Hm, <-HQspec, Hv, (usize_fit _ Hfit), elem_of_seq.
      cbn [fmap option_fmap option_map]. split; [tauto|]. intros Hj. split; [|done]. apply lookup_lt_Some in Hv. lia.
    + split; [|by eexists]. intros ->. unfold assert in Ha1, Ha2.
      destruct (m_valid s); [|done]. split; [done|].
      by case_bool_decide.
  - intros Hok.
    assert (assert NDEBUG (m_valid s) = Done tt
            ∧ assert NDEBUG (bool_decide (m_mode s = Instance)) = Done tt) as [Ha1 Ha2].
    { unfold assert. destruct NDEBUG; [done|].
      destruct Hok as [|[-> Hmode]]; [done|]. by rewrite bool_decide_eq_true_2. }
    unfold instances_changed. rewrite Ha1, Ha2. cbn [mbind Outcome_bind]. split.
    + intros [bound_list ->]. by eexists.
    + by intros ->.
Qed.



Section EngineExtras.
Context {G : Geometry}.

Lemma same_parts_refl s : same_parts s s.
Proof. done. Qed.

Lemma same_parts_trans s1 s2 s3 : same_parts s1 s2 → same_parts s2 s3 → same_parts s1 s3.
Proof. unfold same_parts. congruence. Qed.

Lemma same_parts_touch_cache i s : same_parts s (touch_cache i s).
Proof. unfold same_parts. by rewrite the_volumes_touch_cache. Qed.

Lemma same_parts_on_instance f i s : same_parts s (on_instance f i s).
Proof.
  unfold same_parts. rewrite the_volumes_on_instance.
  rewrite (list_fmap_alter untransformed _ id).
  - by rewrite list_alter_id.
  - apply Forall_forall. by intros [].
Qed.

Lemma same_parts_on_volume f i s : same_parts s (on_volume f i s).
Proof.
  unfold same_parts. rewrite the_volumes_on_volume.
  rewrite (list_fmap_alter untransformed _ id).
  - by rewrite list_alter_id.
  - apply Forall_forall. by intros [].
Qed.

Lemma same_parts_lookup s s' k :
  same_parts s s' →
  untransformed <$> the_volumes s' !! k = untransformed <$> the_volumes s !! k.
Proof. intros H. rewrite <-!list_lookup_fmap. by rewrite H. Qed.

Lemma same_parts_wipe_tower s s' k v v' :
  same_parts s s' → the_volumes s !! k = Some v → the_volumes s' !! k = Some v' →
  is_wipe_tower v' = is_wipe_tower v ∧ is_modifier v' = is_modifier v
  ∧ composite_id v' = composite_id v.
Proof.
  intros H Hv Hv'. pose proof (same_parts_lookup s s' k H) as E.
  rewrite Hv, Hv' in E. simpl in E. injection E as E.
  destruct v, v'. unfold untransformed in E. simpl in *. by simplify_eq.
Qed.

Lemma foldl_as_foldlM {A B} (f : A → B → A) l a :
  foldlM (λ a b, Done (f a b)) a l = Done (foldl f a l).
Proof. revert a. induction l as [|b l IH]; intros a; [done|]. cbn [foldlM foldl]. apply IH. Qed.

Lemma count_where_ext {A} (P Q : A → bool) l :
  (∀ x, P x = Q x) → count_where P l = count_where Q l.
Proof. intros H. induction l as [|x l IH]; [done|]. cbn [count_where]. by rewrite H, IH. Qed.

Lemma usize_frame s s' : engine_frame s s' → usize (the_volumes s') = usize (the_volumes s).
Proof.
  intros Hf. pose proof (ef_ids _ _ Hf) as E. apply (f_equal length) in E.
  rewrite !length_fmap in E. unfold usize. by rewrite E.
Qed.

Lemma is_from_fully_selected_instance_frame i s s' :
  engine_frame s s' →
  is_from_fully_selected_instance i s' = is_from_fully_selected_instance i s.
Proof.
  intros Hf. unfold is_from_fully_selected_instance, the_objects.
  rewrite (usize_frame _ _ Hf), (ef_model _ _ Hf), (m_list_order_frame _ _ Hf).
  destruct (usize (the_volumes s) <=? i)%nat; [done|].
  pose proof (engine_frame_ids_lookup s s' i Hf) as E.
  destruct (the_volumes s' !! i) as [volume'|], (the_volumes s !! i) as [volume|];
    simpl in E; simplify_eq; [|done].
  assert (object_idx volume' = object_idx volume) as -> by (unfold object_idx; congruence).
  assert (instance_idx volume' = instance_idx volume) as ->
    by (unfold instance_idx; congruence).
  destruct (_ <=? object_idx volume); [done|].
  rewrite (count_where_ext _
             (λ k, match the_volumes s !! k with
                   | Some v =>
                       (0 <=? volume_idx v) && (object_idx v =? object_idx volume)
                       && (instance_idx v =? instance_idx volume)
                   | None => false
                   end)); [done|].
  intros k.
  apply (engine_frame_match_ids s s' k
           (λ c, (0 <=? volume_id c) && (object_id c =? object_idx volume)
                 && (instance_id c =? instance_idx volume)) false Hf).
Qed.

(** The step lemma of [foldlM_indexed], with a second property of the
    states carried along. *)
Lemma foldlM_indexed_with {St} (Inv : St → Prop) (sel : St → Selection)
    (f : St → nat → Outcome St) (Gf : nat → GLVolume → GLVolume) l s0 st st' :
  NoDup l → engine_frame s0 (sel st) → Inv st →
  (∀ sa i sb,
     engine_frame s0 (sel sa) → Inv sa → i ∈ l → f sa i = Done sb →
     engine_frame s0 (sel sb) ∧ Inv sb
     ∧ the_volumes (sel sb) = alter (Gf i) i (the_volumes (sel sa))) →
  foldlM f st l = Done st' →
  engine_frame s0 (sel st') ∧ Inv st'
  ∧ ∀ k v, the_volumes (sel st) !! k = Some v →
           the_volumes (sel st') !! k = Some (if decide (k ∈ l) then Gf k v else v).
Proof.
  intros Hnd. revert st.
  induction Hnd as [|i l Hi Hnd IH]; intros st Hf HI Hstep; cbn [foldlM].
  - intros [= <-]. split; [done|]. split; [done|]. intros k v Hv.
    rewrite decide_False; [done|apply not_elem_of_nil].
  - intros H. apply bind_Done in H as (sb & Hb & H).
    destruct (Hstep st i sb Hf HI (list_elem_of_here _ _) Hb) as (Hfb & HIb & Hvb).
    destruct (IH sb Hfb HIb) as (Hf' & HI' & Hk'); [|done|].
    { intros sa j sc Hsa HIa Hj. apply Hstep; [done|done|by right]. }
    split; [done|]. split; [done|]. intros k v Hv.
    destruct (decide (k = i)) as [->|Hne].
    + rewrite (Hk' i (Gf i v)); [|by rewrite Hvb, list_lookup_alter_eq, Hv].
      rewrite decide_False by done. rewrite decide_True; [done|by left].
    + rewrite (Hk' k v); [|by rewrite Hvb, list_lookup_alter_ne].
      destruct (decide (k ∈ l)).
      * rewrite decide_True; [done|by right].
      * rewrite decide_False; [done|]. rewrite not_elem_of_cons. done.
Qed.

(** *** [translate] of whole instances *)

Lemma translate_loop_whole displacement local s r :
  m_mode s = Instance →
  (∀ i v, i ∈ m_list s → the_volumes s !! i = Some v →
          is_wipe_tower v = false ∧ is_from_fully_selected_instance i s = true) →
  foldl
    (λ '(s, translation_type) i,
       match the_volumes s !! i with
       | None => (s, translation_type)
       | Some v =>
           if bool_decide (m_mode s = Volume) || is_wipe_tower v then
             let s := touch_cache i s in
             let c := cache_at i s in
             if local : bool
             then (set_volume_offset i (vec_add (t_offset (vc_volume c)) displacement) s,
                   translation_type)
             else (set_volume_offset i
                     (vec_add (t_offset (vc_volume c)) (local_displacement c displacement)) s,
                   translation_type)
           else if bool_decide (m_mode s = Instance) then
             if is_from_fully_selected_instance i s then
               let s := touch_cache i s in
               let c := cache_at i s in
               (set_instance_offset i (vec_add (t_offset (vc_instance c)) displacement) s,
                translation_type)
             else
               let s := touch_cache i s in
               let c := cache_at i s in
               (set_volume_offset i
                  (vec_add (t_offset (vc_volume c)) (local_displacement c displacement)) s,
                Volume)
           else (s, translation_type)
       end)
    (s, Instance) (m_list_order s) = r →
  engine_frame s r.1 ∧ r.2 = Instance
  ∧ ∀ k v, the_volumes s !! k = Some v →
           the_volumes r.1 !! k
           = Some (if decide (k ∈ m_list_order s)
                   then set_instance_transformation
                          (moved_from_cache displacement (cache_at k s)
                             (instance_transformation v)) v
                   else v).
Proof.
  intros Hmode Hsel Hr. apply (f_equal Done) in Hr. rewrite <-foldl_as_foldlM in Hr.
  apply (foldlM_indexed_with
           (λ st : Selection * EMode, same_parts s st.1 ∧ st.2 = Instance) fst _
           (λ k v, set_instance_transformation
                     (moved_from_cache displacement (cache_at k s)
                        (instance_transformation v)) v)
           (m_list_order s) s) in Hr;
    [by destruct Hr as (Hf & [_ Ht] & Hk) | apply NoDup_m_list_order
    | apply engine_frame_refl | by split |].
  intros [sa ta] i sb Hf [Hp Hta] Hi. cbn [fst snd] in *. subst ta.
  destruct (the_volumes sa !! i) as [v'|] eqn:Ev'.
  2:{ intros [= <-]. cbn [fst snd]. split; [done|]. split; [done|].
      by rewrite alter_missing. }
  assert (is_Some (the_volumes s !! i)) as [v Ev].
  { pose proof (engine_frame_ids_lookup s sa i Hf) as E. rewrite Ev' in E.
    destruct (the_volumes s !! i); [by eexists|done]. }
  apply elem_of_m_list_order in Hi.
  destruct (Hsel i v Hi Ev) as [Hw Hfull].
  destruct (same_parts_wipe_tower s sa i v v' Hp Ev Ev') as (-> & _ & _).
  rewrite (ef_mode _ _ Hf), Hmode, Hw.
  rewrite bool_decide_eq_false_2 by done. rewrite bool_decide_eq_true_2 by done.
  cbn [orb]. rewrite (is_from_fully_selected_instance_frame i s sa Hf), Hfull.
  intros [= <-]. cbn [fst snd]. rewrite cache_at_touch_cache, (ef_cache _ _ Hf).
  split; [|split; [split; [|done]|]].
  - eapply engine_frame_trans; [done|].
    eapply engine_frame_trans; [apply engine_frame_touch_cache|apply engine_frame_on_instance].
  - eapply same_parts_trans; [done|].
    eapply same_parts_trans; [apply same_parts_touch_cache|apply same_parts_on_instance].
  - unfold set_instance_offset. by rewrite the_volumes_on_instance, the_volumes_touch_cache.
Qed.

(** X13. [translate] in [Instance] mode on a valid state whose selected
    volumes are not the wipe tower and belong to fully selected instances:
    whenever it returns, each selected volume has as instance offset the
    offset cached for it at the start of the drag plus the displacement,
    with the rest of the volume as it was, and each volume that is not
    selected keeps its instance offset, its instance rotation and its
    volume transformation. In a build without assertions the call always
    returns. *)
Theorem translate_whole_instances (NDEBUG : bool) (displacement : Vec3d) (local : bool)
    (s : Selection) :
  m_valid s = true → m_mode s = Instance →
  (∀ i v, i ∈ m_list s → the_volumes s !! i = Some v →
          is_wipe_tower v = false ∧ is_from_fully_selected_instance i s = true) →
  (∀ s', translate NDEBUG displacement local s = Done s' →
     (∀ i v, i ∈ m_list s → the_volumes s !! i = Some v →
        the_volumes s' !! i
        = Some (set_instance_transformation
                  (moved_from_cache displacement (cache_at i s) (instance_transformation v))
                  v))
     ∧ (∀ j w, j ∉ m_list s → the_volumes s !! j = Some w →
          ∃ w', the_volumes s' !! j = Some w'
                ∧ get_instance_offset w' = get_instance_offset w
                ∧ get_instance_rotation w' = get_instance_rotation w
                ∧ volume_transformation w' = volume_transformation w))
  ∧ (NDEBUG = true → ∃ s', translate NDEBUG displacement local s = Done s').
Proof.
  intros Hvalid Hmode Hsel. unfold translate. rewrite Hvalid, Hmode. cbn [negb].
  match goal with |- context [foldl ?f ?a ?l] =>
    pose proof (translate_loop_whole displacement local s (foldl f a l) Hmode Hsel eq_refl)
      as (Hf & Ht & Hk);
    destruct (foldl f a l) as [s1 translation_type]
  end.
  cbn [fst snd] in *. subst translation_type. split.
  - intros s' H. apply bind_Done in H as (s2 & Hsync & [= <-]).
    unfold synchronize in Hsync.
    destruct (synchronize_unselected_instances_inv _ _ _ _ Hsync) as [_ Hkept].
    split.
    + intros i v Hi Hv. change (the_volumes (set_bounding_boxes_dirty s2)) with (the_volumes s2).
      pose proof (Hk i v Hv) as H1. rewrite decide_True in H1 by (by apply elem_of_m_list_order).
      destruct (Hkept i _ H1) as (v' & Hv' & _ & Hsame).
      rewrite Hv'. f_equal. apply Hsame. by rewrite (ef_list _ _ Hf).
    + intros j w Hj Hw. change (the_volumes (set_bounding_boxes_dirty s2)) with (the_volumes s2).
      pose proof (Hk j w Hw) as H1.
      rewrite decide_False in H1 by (by rewrite elem_of_m_list_order).
      destruct (Hkept j _ H1) as (w' & Hw' & (T & -> & Ho & Hr) & _).
      exists (set_instance_transformation T w). split; [done|].
      unfold get_instance_offset, get_instance_rotation. simpl.
      split; [done|]. split; [by apply Hr|done].
  - intros ->. unfold synchronize.
    destruct (synchronize_unselected_instances_total SYNC_ROTATION_NONE s1) as [s2 ->].
    by eexists.
Qed.

(** *** [start_dragging] *)

Lemma set_caches_data (vols : list GLVolume) (l : list nat) (d : gmap nat VolumeCache) i :
  foldl
    (λ (d : gmap nat VolumeCache) i,
       match vols !! i with
       | Some v =>
           match d !! i with
           | None =>
               <[i := mkVolumeCache (volume_transformation v) (instance_transformation v)]> d
           | Some _ => d
           end
       | None => d
       end)
    d l !! i
  = match d !! i with
    | Some c => Some c
    | None =>
        if decide (i ∈ l)
        then (λ v, mkVolumeCache (volume_transformation v) (instance_transformation v))
               <$> vols !! i
        else None
    end.
Proof.
  revert d. induction l as [|k l IH]; intros d.
  - cbn [foldl]. destruct (d !! i); [done|]. by rewrite decide_False by apply not_elem_of_nil.
  - cbn [foldl]. rewrite IH. clear IH. destruct (decide (k = i)) as [->|Hne].
    + destruct (vols !! i) as [v|] eqn:Ev.
      * destruct (d !! i) as [c|] eqn:Ed.
        -- by rewrite Ed.
        -- rewrite lookup_insert_eq. rewrite decide_True by (by left). done.
      * destruct (d !! i); [done|]. by destruct (decide _), (decide _).
    + assert (∀ d' : gmap nat VolumeCache, d' !! i = d !! i →
                match d' !! i with
                | Some c => Some c
                | None =>
                    if decide (i ∈ l)
                    then (λ v, mkVolumeCache (volume_transformation v)
                                 (instance_transformation v)) <$> vols !! i
                    else None
                end
                = match d !! i with
                  | Some c => Some c
                  | None =>
                      if decide (i ∈ k :: l)
                      then (λ v, mkVolumeCache (volume_transformation v)
                                   (instance_transformation v)) <$> vols !! i
                      else None
                  end) as Hd.
      { intros d' ->. destruct (d !! i); [done|].
        destruct (decide (i ∈ l)).
        - rewrite decide_True; [done|by right].
        - rewrite decide_False; [done|]. rewrite not_elem_of_cons. done. }
      apply Hd. destruct (vols !! k); [|done]. destruct (d !! k); [done|].
      by rewrite lookup_insert_ne.
Qed.

(** X14. In a valid state [start_dragging] leaves the volumes and the
    index set as they are, caches the volume and instance transformations
    of every volume of the list, selected or not, and of no other index,
    takes the centre of the bounding box of the selection as dragging
    centre, and leaves the bounding box clean. *)
Theorem start_dragging_caches_all_volumes (s : Selection) :
  m_valid s = true → volumes_fit s →
  the_volumes (start_dragging s) = the_volumes s
  ∧ m_list (start_dragging s) = m_list s
  ∧ (∀ i, volumes_data (m_cache (start_dragging s)) !! i
          = (λ v, mkVolumeCache (volume_transformation v) (instance_transformation v))
              <$> the_volumes s !! i)
  ∧ dragging_center (m_cache (start_dragging s)) = bb_center (get_bounding_box s).1
  ∧ m_bounding_box_dirty (start_dragging s) = false.
Proof.
  intros Hv Hfit. unfold start_dragging, set_caches. rewrite Hv. cbn [negb]. cbv zeta.
  unfold get_bounding_box. proj_simpl.
  match goal with |- context [foldl ?f ∅ ?l] => set (data := foldl f ∅ l) end.
  assert (∀ i, data !! i
               = (λ v, mkVolumeCache (volume_transformation v) (instance_transformation v))
                   <$> the_volumes s !! i) as Hdata.
  { intros i. subst data. rewrite set_caches_data, lookup_empty.
    rewrite (usize_fit _ Hfit). destruct (decide (i ∈ seq 0 (length (the_volumes s)))) as [|Hn];
      [done|].
    rewrite elem_of_seq in Hn. rewrite (proj2 (lookup_ge_None (the_volumes s) i)); [done|lia]. }
  destruct (m_bounding_box_dirty s) eqn:Hd.
  - repeat split; try done.
  - repeat split; try done.
Qed.

(** *** [mirror] of a single full instance *)

(** X15. [mirror] on a valid state whose selection is a single full
    instance: whenever it returns, each selected volume has, along the
    axis, the opposite of the instance mirror factor it had, with the rest
    of its instance transformation as it was, and each volume that is not
    selected keeps its instance offset and rotation. In a build without
    assertions the call always returns. *)
Theorem mirror_single_full_instance (NDEBUG : bool) (axis : Axis) (s : Selection) :
  m_valid s = true → is_single_full_instance s = true →
  (∀ s', mirror NDEBUG axis s = Done s' →
     (∀ i v, i ∈ m_list s → the_volumes s !! i = Some v →
        ∃ v', the_volumes s' !! i = Some v'
              ∧ instance_transformation v'
                = Transformation_set_mirror_axis axis
                    (- vec_get (get_instance_mirror v) axis)%float (instance_transformation v))
     ∧ (∀ j w, j ∉ m_list s → the_volumes s !! j = Some w →
          ∃ w', the_volumes s' !! j = Some w'
                ∧ get_instance_offset w' = get_instance_offset w
                ∧ get_instance_rotation w' = get_instance_rotation w))
  ∧ (NDEBUG = true → ∃ s', mirror NDEBUG axis s = Done s').
Proof.
  intros Hvalid Hsfi. unfold mirror. rewrite Hvalid, Hsfi. cbn [negb]. cbv zeta.
  match goal with |- context [foldl ?f s ?l] => set (s1 := foldl f s l) end.
  assert (engine_frame s s1
          ∧ ∀ k v, the_volumes s !! k = Some v →
                   the_volumes s1 !! k
                   = Some (if decide (k ∈ m_list_order s)
                           then set_instance_transformation
                                  (Transformation_set_mirror_axis axis
                                     (- vec_get (get_instance_mirror v) axis)%float
                                     (instance_transformation v)) v
                           else v)) as [Hf Hk].
  { assert (foldlM
              (λ s i,
                 Done (on_instance
                         (λ t, Transformation_set_mirror_axis axis
                                 (- vec_get (t_mirror t) axis)%float t) i s))
              s (m_list_order s) = Done s1) as Hr by apply foldl_as_foldlM.
    apply (foldlM_indexed_with (λ _, True) (λ s, s) _
             (λ k v, set_instance_transformation
                       (Transformation_set_mirror_axis axis
                          (- vec_get (get_instance_mirror v) axis)%float
                          (instance_transformation v)) v)
             (m_list_order s) s) in Hr;
      [by destruct Hr as (? & _ & ?) | apply NoDup_m_list_order
      | apply engine_frame_refl | done |].
    intros sa i sb Hfa _ _ [= <-]. split; [|split; [done|]].
    - eapply engine_frame_trans; [done|apply engine_frame_on_instance].
    - apply the_volumes_on_instance. }
  split.
  - intros s' H. apply bind_Done in H as (s2 & Hsync & [= <-]).
    change (the_volumes (set_bounding_boxes_dirty s2)) with (the_volumes s2). split.
    + intros i v Hi Hv. pose proof (Hk i v Hv) as H1.
      rewrite decide_True in H1 by (by apply elem_of_m_list_order).
      destruct (synchronize_instance_transformation _ _ _ _ Hsync i _
                  ltac:(by rewrite (ef_list _ _ Hf)) H1) as (v' & Hv' & Ht).
      exists v'. split; [done|]. by rewrite Ht.
    + intros j w Hj Hw. pose proof (Hk j w Hw) as H1.
      rewrite decide_False in H1 by (by rewrite elem_of_m_list_order).
      unfold synchronize in Hsync. destruct (m_mode s1).
      * injection Hsync as <-.
        destruct (proj2 (synchronize_unselected_volumes_spec s1) j w H1) as (w' & Hw' & Ht).
        exists w'. split; [done|]. unfold get_instance_offset, get_instance_rotation.
        by rewrite Ht.
      * destruct (synchronize_unselected_instances_inv _ _ _ _ Hsync) as [_ Hkept].
        destruct (Hkept j _ H1) as (w' & Hw' & (T & -> & Ho & Hr) & _).
        exists (set_instance_transformation T w). split; [done|].
        unfold get_instance_offset, get_instance_rotation. simpl.
        split; [done|by apply Hr].
  - intros ->. destruct (synchronize_total (m_mode s1) SYNC_ROTATION_NONE s1) as [s2 ->].
    by eexists.
Qed.

(** *** [synchronize_unselected_volumes] *)

Lemma alter_same {A} (f : A → A) i (l : list A) :
  (∀ x, l !! i = Some x → f x = x) → alter f i l = l.
Proof.
  intros H. apply list_eq. intros j. rewrite list_lookup_alter.
  destruct (decide (i = j)) as [->|]; [|done].
  destruct (l !! j) eqn:E; [|done]. simpl. by rewrite H.
Qed.

Lemma sync_volumes_inner i (volume : GLVolume) sb :
  volumes_fit sb →
  let out :=
    foldl
      (λ s j,
         if (j =? i)%nat then s
         else
           match the_volumes s !! j with
           | None => s
           | Some v =>
               if negb (object_idx v =? object_idx volume)
                  || negb (volume_idx v =? volume_idx volume)
               then s
               else
                 set_volume_mirror j (get_volume_mirror volume)
                   (set_volume_scaling_factor j (get_volume_scaling_factor volume)
                      (set_volume_rotation j (get_volume_rotation volume)
                         (set_volume_offset j (get_volume_offset volume) s)))
           end)
      sb (seq 0 (usize (the_volumes sb))) in
  engine_frame sb out
  ∧ ∀ j v, the_volumes sb !! j = Some v →
           the_volumes out !! j
           = Some (if (j =? i)%nat then v
                   else if negb (object_idx v =? object_idx volume)
                           || negb (volume_idx v =? volume_idx volume)
                   then v
                   else set_volume_transformation
                          (copied_volume_transformation (volume_transformation volume)
                             (volume_transformation v)) v).
Proof.
  intros Hfit out.
  set (Gf := λ (j : nat) (v : GLVolume),
         if (j =? i)%nat then v
         else if negb (object_idx v =? object_idx volume)
                 || negb (volume_idx v =? volume_idx volume)
         then v
         else set_volume_transformation
                (copied_volume_transformation (volume_transformation volume)
                   (volume_transformation v)) v).
  assert (Done out = Done out) as Hr by done. unfold out at 1 in Hr.
  rewrite <-foldl_as_foldlM in Hr.
  apply (foldlM_indexed_with (λ _, True) (λ s, s) _ Gf _ sb) in Hr;
    [| apply NoDup_seq | apply engine_frame_refl | done |].
  - destruct Hr as (Hf & _ & Hk). split; [done|]. intros j v Hv. rewrite (Hk j v Hv).
    rewrite decide_True; [done|]. rewrite (usize_fit _ Hfit), elem_of_seq.
    apply lookup_lt_Some in Hv. lia.
  - intros sa j sc Hfa _ _ [= <-]. unfold Gf.
    destruct (j =? i)%nat.
    { split; [done|]. split; [done|]. by rewrite alter_same. }
    destruct (the_volumes sa !! j) as [v|] eqn:Ev.
    2:{ split; [done|]. split; [done|]. by rewrite alter_missing. }
    destruct (negb (object_idx v =? object_idx volume)
              || negb (volume_idx v =? volume_idx volume)) eqn:Et.
    { split; [done|]. split; [done|]. rewrite alter_same; [done|].
      intros x Hx. rewrite Ev in Hx. injection Hx as <-. by rewrite Et. }
    unfold set_volume_mirror, set_volume_scaling_factor, set_volume_rotation,
      set_volume_offset.
    split; [|split; [done|]].
    + eapply engine_frame_trans; [done|].
      do 3 (eapply engine_frame_trans; [|apply engine_frame_on_volume]).
      apply engine_frame_on_volume.
    + rewrite !the_volumes_on_volume, !list_alter_alter_eq.
      apply list_alter_ext; [|done]. intros x Hx. rewrite Ev in Hx. injection Hx as <-.
      by rewrite Et.
Qed.

Lemma volumes_fit_frame s s' : engine_frame s s' → volumes_fit s → volumes_fit s'.
Proof.
  intros Hf. unfold volumes_fit. pose proof (ef_ids _ _ Hf) as E.
  apply (f_equal length) in E. rewrite !length_fmap in E. by rewrite E.
Qed.

Lemma set_volume_transformation_twice T T' v :
  set_volume_transformation T (set_volume_transformation T' v)
  = set_volume_transformation T v.
Proof. by destruct v. Qed.

Lemma set_volume_transformation_same v :
  set_volume_transformation (volume_transformation v) v = v.
Proof. by destruct v. Qed.

Lemma sync_volumes_loop s (P : list nat) :
  volumes_fit s → NoDup P → (∀ i, i ∈ P → i ∈ m_list s) →
  let cur :=
    foldl
      (λ s i,
         match the_volumes s !! i with
         | None => s
         | Some volume =>
             if 1000 <=? object_idx volume then s
             else
               foldl
                 (λ s j,
                    if (j =? i)%nat then s
                    else
                      match the_volumes s !! j with
                      | None => s
                      | Some v =>
                          if negb (object_idx v =? object_idx volume)
                             || negb (volume_idx v =? volume_idx volume)
                          then s
                          else
                            set_volume_mirror j (get_volume_mirror volume)
                              (set_volume_scaling_factor j (get_volume_scaling_factor volume)
                                 (set_volume_rotation j (get_volume_rotation volume)
                                    (set_volume_offset j (get_volume_offset volume) s)))
                      end)
                 s (seq 0 (usize (the_volumes s)))
         end)
      s P in
  engine_frame s cur
  ∧ the_volumes cur = foldl (λ vols i, sync_pass i vols) (the_volumes s) P
  ∧ ∀ k v, the_volumes s !! k = Some v →
      (∃ T, the_volumes cur !! k = Some (set_volume_transformation T v))
      ∧ (∀ i u, i ∈ P → i ≠ k → the_volumes s !! i = Some u → same_part u v →
                (∀ i' u', i' ∈ m_list s → i' ≠ i → the_volumes s !! i' = Some u' →
                          ¬ same_part u' u) →
                the_volumes cur !! k
                = Some (set_volume_transformation
                          (copied_volume_transformation (volume_transformation u)
                             (volume_transformation v)) v))
      ∧ ((∀ i u, i ∈ P → i ≠ k → the_volumes s !! i = Some u → ¬ same_part u v) →
         the_volumes cur !! k = Some v).
Proof.
  intros Hfit Hnd Hsel. induction P as [|i P IH] using rev_ind.
  - cbn [foldl]. split; [apply engine_frame_refl|]. split; [done|]. intros k v Hv.
    split; [|split; [|done]].
    + exists (volume_transformation v). by rewrite set_volume_transformation_same.
    + by intros i u ?%elem_of_nil.
  - apply NoDup_app in Hnd as (HndP & Hfresh & _).
    assert (i ∉ P) as HiP.
    { intros Hi. apply (Hfresh i Hi). by left. }
    cbv zeta. rewrite !foldl_app. cbn [foldl].
    destruct IH as (Hf & Heq & Hk); [done|intros j Hj; apply Hsel, elem_of_app; by left|].
    rewrite <-Heq.
    match type of Hf with engine_frame s ?c => set (cur := c) in * end.
    assert (i ∈ m_list s) as Hi by (apply Hsel, elem_of_app; right; by left).
    unfold sync_pass.
    destruct (the_volumes s !! i) as [u|] eqn:Eu.
    2:{ assert (the_volumes cur !! i = None) as ->.
        { pose proof (engine_frame_ids_lookup s cur i Hf) as E. rewrite Eu in E.
          by destruct (the_volumes cur !! i). }
        split; [done|]. split; [done|]. intros k v Hv.
        destruct (Hk k v Hv) as (H0 & H1 & H2). split; [done|]. split.
        - intros i1 u1 [Hin|Hin]%elem_of_app Hne Hu1 Hsp; [by eapply H1|].
          apply list_elem_of_singleton in Hin. congruence.
        - intros Hnone. apply H2. intros i1 u1 Hin. apply Hnone, elem_of_app. by left. }
    destruct (proj1 (Hk i u Eu)) as [Tu Eci]. rewrite Eci.
    set (uc := set_volume_transformation Tu u) in *.
    assert (composite_id uc = composite_id u) as Eid by (by destruct u).
    assert (object_idx uc = object_idx u) as Eo by (by destruct u).
    assert (volume_idx uc = volume_idx u) as Evi by (by destruct u).
    destruct (1000 <=? object_idx uc) eqn:Ebig; rewrite Eo in Ebig.
    { apply Z.leb_le in Ebig. split; [done|]. split; [done|]. intros k v Hv.
      destruct (Hk k v Hv) as (H0 & H1 & H2). split; [done|]. split.
      - intros i1 u1 [Hin|Hin]%elem_of_app Hne Hu1 Hsp; [by eapply H1|].
        apply list_elem_of_singleton in Hin. subst i1. rewrite Eu in Hu1.
        injection Hu1 as <-. destruct Hsp as (_ & _ & ?). lia.
      - intros Hnone. apply H2. intros i1 u1 Hin. apply Hnone, elem_of_app. by left. }
    apply Z.leb_gt in Ebig.
    destruct (sync_volumes_inner i uc cur (volumes_fit_frame _ _ Hf Hfit)) as [Hfi Hki].
    match type of Hfi with engine_frame cur ?c => set (out := c) in * end.
    split; [by eapply engine_frame_trans|]. split.
    { apply list_eq. intros j. rewrite list_lookup_imap.
      destruct (the_volumes cur !! j) as [w|] eqn:Ew.
      - by rewrite (Hki j w Ew).
      - pose proof (engine_frame_ids_lookup cur out j Hfi) as E. rewrite Ew in E.
        by destruct (the_volumes out !! j). }
    intros k v Hv.
    destruct (Hk k v Hv) as ([Tk Ek] & H1 & H2).
    assert (∀ w, composite_id w = composite_id v →
                 negb (object_idx w =? object_idx uc) || negb (volume_idx w =? volume_idx uc)
                 = false ↔ same_part u v) as Htest.
    { intros w Hw. rewrite Eo, Evi. unfold same_part, object_idx, volume_idx. rewrite Hw.
      rewrite orb_false_iff, !negb_false_iff, !Z.eqb_eq. unfold object_idx in Ebig. tauto. }
    split; [|split].
    + rewrite (Hki k _ Ek). destruct (k =? i)%nat; [by eexists|].
      destruct (negb _ || negb _); [by eexists|].
      rewrite set_volume_transformation_twice. by eexists.
    + intros i1 u1 Hin Hne Hu1 Hsp Honly. apply elem_of_app in Hin as [Hin|Hin].
      * pose proof (H1 i1 u1 Hin Hne Hu1 Hsp Honly) as Hw. rewrite (Hki k _ Hw).
        destruct (k =? i)%nat; [done|].
        destruct (negb _ || negb _) eqn:Et; [done|]. exfalso.
        apply (Htest _ eq_refl) in Et.
        apply (Honly i u); [done|by intros ->|done|].
        destruct Hsp as (Ho1 & Hv1 & Hlt), Et as (Ho2 & Hv2 & _).
        unfold same_part. split; [congruence|]. split; [congruence|done].
      * apply list_elem_of_singleton in Hin as ->. rewrite Eu in Hu1. injection Hu1 as <-.
        assert (the_volumes cur !! k = Some v) as Hw.
        { apply H2. intros i0 u0 Hin0 Hne0 Hu0 Hsp0.
          apply (Honly i0 u0); [apply Hsel, elem_of_app; by left|by intros ->|done|].
          destruct Hsp as (Ho1 & Hv1 & Hlt), Hsp0 as (Ho2 & Hv2 & Hlt0).
          unfold same_part. split; [congruence|]. split; [congruence|done]. }
        assert (the_volumes cur !! i = Some u) as Hu.
        { apply (proj2 (proj2 (Hk i u Eu))). intros i0 u0 Hin0 Hne0 Hu0.
          apply (Honly i0 u0); [apply Hsel, elem_of_app; by left|done..]. }
        assert (uc = u) as Euc by congruence.
        rewrite (Hki k _ Hw). rewrite (proj2 (Nat.eqb_neq k i)) by done.
        rewrite (proj2 (Htest v eq_refl) Hsp). by rewrite Euc.
    + intros Hnone.
      assert (the_volumes cur !! k = Some v) as Hw.
      { apply H2. intros i1 u1 Hin. apply Hnone, elem_of_app. by left. }
      rewrite (Hki k _ Hw).
      destruct (k =? i)%nat eqn:Eki; [done|]. apply Nat.eqb_neq in Eki.
      destruct (negb _ || negb _) eqn:Et; [done|]. exfalso.
      apply (Htest _ eq_refl) in Et.
      apply (Hnone i u); [apply elem_of_app; right; by left|done..].
Qed.

(** X16. On a volume list whose size fits an [unsigned int],
    [synchronize_unselected_volumes] runs one pass over the volume list for
    every selected index, in increasing order, and a pass changes volume
    transformations only: the pass for the index [i] gives every
    volume at another index that is a copy (same object index below 1000,
    same part index) of the volume then at [i] the offset, rotation, scaling
    factor and mirror of that volume's volume transformation, another
    selected copy of the same part included.  So a volume that is a copy of
    a selected volume at another index which is the only selected copy of
    its part ends with the four values of that selected volume, and a volume
    that is a copy of no selected volume at another index is left as it
    is. *)
Theorem synchronize_unselected_volumes_copies (s : Selection) :
  volumes_fit s →
  the_volumes (synchronize_unselected_volumes s)
  = foldl (λ vols i, sync_pass i vols) (the_volumes s) (m_list_order s)
  ∧ ∀ k v, the_volumes s !! k = Some v →
      (∃ T, the_volumes (synchronize_unselected_volumes s) !! k
            = Some (set_volume_transformation T v))
      ∧ (∀ i u, i ∈ m_list s → i ≠ k → the_volumes s !! i = Some u → same_part u v →
                (∀ i' u', i' ∈ m_list s → i' ≠ i → the_volumes s !! i' = Some u' →
                          ¬ same_part u' u) →
                the_volumes (synchronize_unselected_volumes s) !! k
                = Some (set_volume_transformation
                          (copied_volume_transformation (volume_transformation u)
                             (volume_transformation v)) v))
      ∧ ((∀ i u, i ∈ m_list s → i ≠ k → the_volumes s !! i = Some u → ¬ same_part u v) →
         the_volumes (synchronize_unselected_volumes s) !! k = Some v).
Proof.
  intros Hfit.
  destruct (sync_volumes_loop s (m_list_order s) Hfit (NoDup_m_list_order s)
              (λ i, proj1 (elem_of_m_list_order s i))) as (_ & Heq & Hk).
  split; [exact Heq|]. intros k v Hv.
  destruct (Hk k v Hv) as (H0 & H1 & H2). split; [exact H0|]. split.
  - intros i u Hi. apply H1. by apply elem_of_m_list_order.
  - intros Hnone. apply H2. intros i u Hi. apply Hnone. by apply elem_of_m_list_order.
Qed.

End EngineExtras.

Section ObjectTranslationProofs.
Context {G : Geometry}.

Lemma the_volumes_move_instance d i v s :
  the_volumes (move_instance d i v s)
  = alter (λ w, set_instance_transformation
                  (Transformation_set_offset (vec_add (get_instance_offset v) d)
                     (instance_transformation w)) w) i (the_volumes s).
Proof. unfold move_instance, set_instance_offset. apply the_volumes_on_instance. Qed.

Lemma engine_frame_move_instance d i v s : engine_frame s (move_instance d i v s).
Proof. apply engine_frame_on_instance. Qed.

Lemma full_set_size (done : gset nat) n :
  (∀ k, k ∈ done → (k < n)%nat) → size done = n → ∀ k, (k < n)%nat → k ∈ done.
Proof.
  intros Hsub Hsize k Hk.
  assert (done = list_to_set (seq 0 n)) as ->.
  { apply set_subseteq_size_eq.
    - intros j Hj. apply elem_of_list_to_set, elem_of_seq. apply Hsub in Hj. lia.
    - rewrite size_list_to_set by apply NoDup_seq. rewrite length_seq. lia. }
  apply elem_of_list_to_set, elem_of_seq. lia.
Qed.

Section Loops.
Variable moves : GLVolume → bool.
Variable follows : GLVolume → GLVolume → bool.
Variable displacement : Vec3d.
Hypothesis moves_ids : ∀ v v', composite_id v = composite_id v' → moves v = moves v'.
Hypothesis follows_ids :
  ∀ u u' v v', composite_id u = composite_id u' → composite_id v = composite_id v' →
               follows u v = follows u' v'.

Lemma follows_at_frame s s' u u' k :
  engine_frame s s' → composite_id u = composite_id u' →
  follows_at follows (the_volumes s') u' k = follows_at follows (the_volumes s) u k.
Proof.
  intros Hf Hu. unfold follows_at. pose proof (engine_frame_ids_lookup s s' k Hf) as E.
  destruct (the_volumes s' !! k) as [v'|], (the_volumes s !! k) as [v|];
    simpl in E; simplify_eq; [|done]. by apply follows_ids.
Qed.

Lemma translate_inner (u : GLVolume) s0 cur (done : gset nat) (J : list nat) :
  engine_frame s0 cur → NoDup J →
  (∀ k, k ∈ done → (k < length (the_volumes s0))%nat) →
  (∀ j, j ∈ J → (j < length (the_volumes s0))%nat) →
  let r :=
    foldl
      (λ '(s, done) j,
         if bool_decide (size (done : gset nat) = length (the_volumes s)) then (s, done)
         else if decide (j ∈ done) then (s, done)
         else
           match the_volumes s !! j with
           | None => (s, done)
           | Some v =>
               if negb (follows u v) then (s, done)
               else (move_instance displacement j v s, {[j]} ∪ done)
           end)
      (cur, done) J in
  engine_frame s0 r.1
  ∧ (∀ k, k ∈ r.2 ↔ k ∈ done ∨ (k ∈ J ∧ follows_at follows (the_volumes s0) u k = true))
  ∧ ∀ k w, the_volumes cur !! k = Some w →
           the_volumes r.1 !! k
           = Some (if decide (k ∈ r.2 ∧ k ∉ done) then moved_by displacement w else w).
Proof.
  intros Hf Hnd Hdone HJ. induction J as [|j J IH] using rev_ind.
  - cbn [foldl fst snd]. split; [done|]. split.
    + intros k. split; [by left|]. intros [?|[?%elem_of_nil _]]; done.
    + intros k w Hw. rewrite decide_False; [done|]. tauto.
  - apply NoDup_app in Hnd as (HndJ & Hfresh & _).
    assert (j ∉ J) as HjJ by (intros Hj; apply (Hfresh j Hj); by left).
    cbv zeta. rewrite foldl_app. cbn [foldl].
    destruct IH as (Hfr & Hd & Hv); [done|intros ? ?; apply HJ, elem_of_app; by left|].
    destruct (foldl _ _ J) as [s1 d1]. cbn [fst snd] in *.
    assert (length (the_volumes s1) = length (the_volumes s0)) as Hlen.
    { pose proof (ef_ids _ _ Hfr) as E. apply (f_equal length) in E.
      by rewrite !length_fmap in E. }
    assert (j < length (the_volumes s0))%nat as Hj
      by (apply HJ, elem_of_app; right; by left).
    assert (∀ k, k ∈ d1 → (k < length (the_volumes s0))%nat) as Hd1.
    { intros k [?|[Hk _]]%Hd; [by apply Hdone|]. apply HJ, elem_of_app. by left. }
    assert (∀ k, k ∈ J ++ [j] ↔ k ∈ J ∨ k = j) as Happ.
    { intros k. rewrite elem_of_app, list_elem_of_singleton. done. }
    assert ((if bool_decide (size d1 = length (the_volumes s1)) then (s1, d1)
             else if decide (j ∈ d1) then (s1, d1)
             else
               match the_volumes s1 !! j with
               | None => (s1, d1)
               | Some v =>
                   if negb (follows u v) then (s1, d1)
                   else (move_instance displacement j v s1, {[j]} ∪ d1)
               end)
            = if decide (j ∈ d1) then (s1, d1)
              else
                match the_volumes s1 !! j with
                | None => (s1, d1)
                | Some v =>
                    if negb (follows u v) then (s1, d1)
                    else (move_instance displacement j v s1, {[j]} ∪ d1)
                end) as ->.
    { case_bool_decide as Hsize; [|done]. rewrite Hlen in Hsize.
      rewrite decide_True; [done|]. by apply (full_set_size d1 _ Hd1 Hsize). }
    destruct (decide (j ∈ d1)) as [Hjd|Hjd].
    { cbn [fst snd]. split; [done|]. split.
      - intros k. rewrite Hd, Happ. split; [tauto|].
        intros [?|[[?| ->] ?]]; [tauto|tauto|]. by apply Hd.
      - done. }
    destruct (the_volumes s1 !! j) as [v|] eqn:Ev.
    2:{ apply lookup_ge_None in Ev. lia. }
    assert (follows u v = follows_at follows (the_volumes s0) u j) as Hfol.
    { rewrite <-(follows_at_frame s0 s1 u u j Hfr eq_refl). unfold follows_at. by rewrite Ev. }
    rewrite Hfol. destruct (follows_at follows (the_volumes s0) u j) eqn:Efj; cbn [negb fst snd].
    2:{ split; [done|]. split.
        - intros k. rewrite Hd, Happ. split; [tauto|].
          intros [?|[[?| ->] ?]]; [tauto|tauto|congruence].
        - done. }
    split; [eapply engine_frame_trans; [done|apply engine_frame_move_instance]|]. split.
    + intros k. rewrite elem_of_union, elem_of_singleton, Hd, Happ. split.
      * intros [->|[?|[? ?]]]; tauto.
      * intros [?|[[?| ->] ?]]; tauto.
    + intros k w Hw. rewrite the_volumes_move_instance.
      destruct (decide (k = j)) as [->|Hne].
      * rewrite list_lookup_alter_eq, (Hv j w Hw).
        rewrite decide_False by tauto. cbn [fmap option_fmap option_map].
        rewrite decide_True.
        -- f_equal. unfold moved_by. do 3 f_equal.
           rewrite (Hv j w Hw) in Ev. rewrite decide_False in Ev by tauto. congruence.
        -- split; [set_solver|]. intros Hjdone. apply Hjd, Hd. by left.
      * rewrite list_lookup_alter_ne by done. rewrite (Hv k w Hw).
        destruct (decide (k ∈ d1 ∧ k ∉ done)) as [[H1 H2]|Hn].
        -- rewrite decide_True; [done|]. split; [set_solver|done].
        -- rewrite decide_False; [done|]. intros [H1 H2]. apply Hn. split; [|done].
           set_solver.
Qed.

Lemma follows_at_ids vols u u' k :
  composite_id u = composite_id u' → follows_at follows vols u k = follows_at follows vols u' k.
Proof. intros Hu. unfold follows_at. destruct (vols !! k); [|done]. by apply follows_ids. Qed.

Lemma followed_snoc vols l i k :
  followed follows vols (l ++ [i]) k
  = followed follows vols l k
    || match vols !! i with
       | Some u => negb (1000 <=? object_idx u) && follows_at follows vols u k
       | None => false
       end.
Proof. unfold followed. rewrite existsb_app. cbn [existsb]. by rewrite orb_false_r. Qed.

Lemma translate_first_loop s :
  let s1 :=
    foldl
      (λ s i,
         match the_volumes s !! i with
         | None => s
         | Some v => if moves v then move_instance displacement i v s else s
         end)
      s (m_list_order s) in
  engine_frame s s1
  ∧ ∀ k v, the_volumes s !! k = Some v →
           the_volumes s1 !! k
           = Some (if decide (k ∈ m_list s)
                   then if moves v then moved_by displacement v else v
                   else v).
Proof.
  intros s1. assert (Done s1 = Done s1) as Hr by done. unfold s1 at 1 in Hr.
  rewrite <-foldl_as_foldlM in Hr.
  apply (foldlM_indexed_with (λ _, True) (λ s, s) _
           (λ k v, if moves v then moved_by displacement v else v) _ s) in Hr;
    [| apply NoDup_m_list_order | apply engine_frame_refl | done |].
  - destruct Hr as (Hf & _ & Hk). split; [done|]. intros k v Hv. rewrite (Hk k v Hv).
    destruct (decide (k ∈ m_list s)) as [Hin|Hin].
    + rewrite decide_True; [done|by apply elem_of_m_list_order].
    + rewrite decide_False; [done|by rewrite elem_of_m_list_order].
  - intros sa i sb Hfa _ _ [= <-].
    destruct (the_volumes sa !! i) as [v|] eqn:Ev.
    2:{ split; [done|]. split; [done|]. by rewrite alter_missing. }
    destruct (moves v) eqn:Em.
    + split; [eapply engine_frame_trans; [done|apply engine_frame_move_instance]|].
      split; [done|]. rewrite the_volumes_move_instance. apply list_alter_ext; [|done].
      intros w Hw. rewrite Ev in Hw. injection Hw as <-. by rewrite Em.
    + split; [done|]. split; [done|]. rewrite alter_same; [done|].
      intros w Hw. rewrite Ev in Hw. injection Hw as <-. by rewrite Em.
Qed.

Lemma translate_outer s s1 (P : list nat) :
  volumes_fit s → engine_frame s s1 → NoDup P →
  (∀ i, i ∈ m_list s → (i < length (the_volumes s))%nat) →
  let r :=
    foldl
      (λ '(s, done) i,
         if bool_decide (size (done : gset nat) = length (the_volumes s)) then (s, done)
         else
           match the_volumes s !! i with
           | None => (s, done)
           | Some volume =>
               if 1000 <=? object_idx volume then (s, done)
               else
                 foldl
                   (λ '(s, done) j,
                      if bool_decide (size (done : gset nat) = length (the_volumes s))
                      then (s, done)
                      else if decide (j ∈ done) then (s, done)
                      else
                        match the_volumes s !! j with
                        | None => (s, done)
                        | Some v =>
                            if negb (follows volume v) then (s, done)
                            else (move_instance displacement j v s, {[j]} ∪ done)
                        end)
                   (s, done) (seq 0 (usize (the_volumes s)))
           end)
      (s1, m_list s) P in
  engine_frame s r.1
  ∧ (∀ k, k ∈ r.2
          ↔ k ∈ m_list s
            ∨ ((k < length (the_volumes s))%nat ∧ followed follows (the_volumes s) P k = true))
  ∧ ∀ k v1, the_volumes s1 !! k = Some v1 →
            the_volumes r.1 !! k
            = Some (if decide (k ∈ r.2 ∧ k ∉ m_list s) then moved_by displacement v1 else v1).
Proof.
  intros Hfit Hf1 Hnd Hrange. induction P as [|i P IH] using rev_ind.
  - cbn [foldl fst snd]. split; [done|]. split.
    + intros k. split; [by left|]. intros [?|[_ ?]]; done.
    + intros k v1 Hv1. rewrite decide_False; [done|]. tauto.
  - apply NoDup_app in Hnd as (HndP & _ & _).
    cbv zeta. rewrite foldl_app. cbn [foldl].
    destruct IH as (Hf & Hd & Hv); [done|].
    destruct (foldl _ _ P) as [cur done]. cbn [fst snd] in *.
    assert (length (the_volumes cur) = length (the_volumes s)) as Hlen.
    { pose proof (ef_ids _ _ Hf) as E. apply (f_equal length) in E.
      by rewrite !length_fmap in E. }
    assert (∀ k, k ∈ done → (k < length (the_volumes s))%nat) as Hdone.
    { intros k [?|[? _]]%Hd; [by apply Hrange|done]. }
    assert (∀ k, followed follows (the_volumes s) P k = true
                 → followed follows (the_volumes s) (P ++ [i]) k = true) as Hmono.
    { intros k Hk. by rewrite followed_snoc, Hk. }
    case_bool_decide as Hsize.
    { rewrite Hlen in Hsize. cbn [fst snd]. split; [done|]. split; [|done].
      intros k. rewrite Hd. split.
      - intros [?|[? ?]]; [by left|]. right. split; [done|by apply Hmono].
      - intros [?|[Hk _]]; [by left|]. apply Hd. by apply (full_set_size done _ Hdone Hsize). }
    pose proof (engine_frame_ids_lookup s cur i Hf) as Eid.
    destruct (the_volumes cur !! i) as [u'|] eqn:Eu'.
    2:{ cbn [fst snd]. split; [done|]. split; [|done].
        intros k. rewrite Hd, followed_snoc.
        destruct (the_volumes s !! i); [done|]. by rewrite orb_false_r. }
    destruct (the_volumes s !! i) as [u|] eqn:Eu; [|done]. simpl in Eid.
    injection Eid as Eid.
    assert (object_idx u' = object_idx u) as Eobj by (unfold object_idx; congruence).
    destruct (1000 <=? object_idx u') eqn:Ebig.
    { cbn [fst snd]. split; [done|]. split; [|done].
      intros k. rewrite Hd, followed_snoc, Eu, <-Eobj, Ebig. cbn [negb andb].
      by rewrite orb_false_r. }
    rewrite (usize_fit (the_volumes cur)) by (unfold volumes_fit in *; by rewrite Hlen).
    rewrite Hlen.
    destruct (translate_inner u' s cur done (seq 0 (length (the_volumes s))) Hf
                (NoDup_seq _ _) Hdone) as (Hf' & Hd' & Hv').
    { intros j Hj. apply elem_of_seq in Hj. lia. }
    destruct (foldl _ (cur, done) _) as [s2 d2]. cbn [fst snd] in *.
    assert (∀ k, k ∈ d2 ↔ k ∈ done
                           ∨ ((k < length (the_volumes s))%nat
                              ∧ follows_at follows (the_volumes s) u k = true)) as Hd2.
    { intros k. rewrite Hd', elem_of_seq, (follows_at_ids _ u' u k Eid).
      split; (intros [?|[? ?]]; [by left|right; split; [lia|done]]). }
    split; [done|]. split.
    + intros k. rewrite Hd2, Hd, followed_snoc, Eu, <-Eobj, Ebig. cbn [negb andb].
      rewrite orb_true_iff. tauto.
    + intros k v1 Hv1. rewrite (Hv' k _ (Hv k v1 Hv1)).
      assert (k ∈ m_list s → k ∈ done) as Hmd by (intros ?; apply Hd; by left).
      assert (k ∈ done → k ∈ d2) as Hdd by (intros ?; apply Hd2; by left).
      destruct (decide (k ∈ done ∧ k ∉ m_list s)) as [[H1 H2]|Hn].
      * rewrite decide_False by tauto. rewrite decide_True; [done|tauto].
      * destruct (decide (k ∈ d2 ∧ k ∉ done)) as [[H1 H2]|Hn2].
        -- rewrite decide_True; [done|tauto].
        -- rewrite decide_False; [done|]. intros [H1 H2]. apply Hn2. split; [done|].
           intros Hkd. apply Hn. by split.
Qed.

Lemma translate_where_lookup s k v :
  m_valid s = true → volumes_fit s →
  (∀ i, i ∈ m_list s → (i < length (the_volumes s))%nat) →
  the_volumes s !! k = Some v →
  the_volumes (translate_where moves follows displacement s) !! k
  = Some (if decide (k ∈ m_list s)
          then if moves v then moved_by displacement v else v
          else if followed follows (the_volumes s) (m_list_order s) k
               then moved_by displacement v
               else v).
Proof.
  intros Hvalid Hfit Hrange Hv. unfold translate_where. rewrite Hvalid. cbn [negb]. cbv zeta.
  destruct (translate_first_loop s) as [Hf1 Hk1].
  match goal with |- context [foldl ?f s (m_list_order s)] =>
    set (s1 := foldl f s (m_list_order s)) in * end.
  destruct (translate_outer s s1 (m_list_order s) Hfit Hf1 (NoDup_m_list_order s) Hrange)
    as (Hf & Hd & Hk).
  destruct (foldl _ (s1, m_list s) _) as [s2 done]. cbn [fst snd] in *.
  change (the_volumes (set_bounding_boxes_dirty s2)) with (the_volumes s2).
  rewrite (Hk k _ (Hk1 k v Hv)).
  destruct (decide (k ∈ m_list s)) as [Hin|Hin].
  - rewrite decide_False; [done|tauto].
  - destruct (followed follows (the_volumes s) (m_list_order s) k) eqn:Efol.
    + rewrite decide_True; [done|]. split; [|done]. apply Hd. right. split; [|done].
      by eapply lookup_lt_Some.
    + rewrite decide_False; [done|]. intros [[?|[_ ?]]%Hd _]; [done|congruence].
Qed.

Lemma followed_spec vols l k :
  followed follows vols l k = true
  ↔ ∃ i u, i ∈ l ∧ vols !! i = Some u ∧ object_idx u < 1000 ∧ follows_at follows vols u k = true.
Proof.
  unfold followed. rewrite existsb_exists. split.
  - intros (i & Hi & H). destruct (vols !! i) as [u|] eqn:Eu; [|done].
    apply andb_true_iff in H as [H1 H2]. exists i, u.
    split; [by apply list_elem_of_In|]. split; [done|]. split; [|done].
    apply negb_true_iff, Z.leb_gt in H1. done.
  - intros (i & u & Hi & Eu & Hlt & H). exists i. split; [by apply list_elem_of_In|].
    rewrite Eu, H. apply Z.leb_gt in Hlt. by rewrite Hlt.
Qed.

End Loops.

(** X17. [translate(object_idx, displacement)] on a valid state whose
    selected indices are inside the volume list moves the instance offset
    of a volume by the displacement at most once: a selected volume is
    moved exactly when its object index is [(int)object_idx]; a volume that
    is not selected is moved exactly when some selected volume with an
    object index below 1000 has the same object index, whether or not that
    object is [object_idx]. Nothing else of a volume changes. *)
Theorem translate_object_moves (object_idx' : Z) (displacement : Vec3d) (s : Selection) :
  m_valid s = true →
  volumes_fit s →
  (∀ i, i ∈ m_list s → (i < length (the_volumes s))%nat) →
  ∀ k v, the_volumes s !! k = Some v →
    let v' := the_volumes (translate_object object_idx' displacement s) !! k in
    (k ∈ m_list s →
       v' = Some (if object_idx v =? int_cast object_idx'
                  then moved_by displacement v else v))
    ∧ (k ∉ m_list s →
       (∃ i u, i ∈ m_list s ∧ the_volumes s !! i = Some u
               ∧ object_idx u < 1000 ∧ object_idx v = object_idx u) →
       v' = Some (moved_by displacement v))
    ∧ (k ∉ m_list s →
       (∀ i u, i ∈ m_list s → the_volumes s !! i = Some u →
               object_idx u < 1000 → object_idx v ≠ object_idx u) →
       v' = Some v).
Proof.
  intros Hvalid Hfit Hrange k v Hv. cbv zeta. unfold translate_object.
  rewrite (translate_where_lookup _ _ displacement) with (v := v);
    [|first [done|by intros; unfold object_idx, instance_idx; congruence]..].
  split; [|split].
  - intros Hin. by rewrite decide_True.
  - intros Hin (i & u & Hi & Hu & Hlt & Ho). rewrite decide_False by done.
    replace (followed _ _ _ _) with true; [done|]. symmetry. apply followed_spec.
    exists i, u. split; [by apply elem_of_m_list_order|]. split; [done|]. split; [done|].
    unfold follows_at. rewrite Hv. by apply Z.eqb_eq.
  - intros Hin Hno. rewrite decide_False by done.
    destruct (followed _ _ _ _) eqn:Ef; [|done]. exfalso.
    apply followed_spec in Ef as (i & u & Hi & Hu & Hlt & Hf).
    unfold follows_at in Hf. rewrite Hv in Hf. apply Z.eqb_eq in Hf.
    apply (Hno i u); [by apply elem_of_m_list_order|done..].
Qed.

(** X18. [translate(object_idx, instance_idx, displacement)] on a valid
    state whose selected indices are inside the volume list moves the
    instance offset of a volume by the displacement at most once: a
    selected volume is moved exactly when its object index is
    [(int)object_idx] and its instance index [(int)instance_idx]; a volume
    that is not selected is moved exactly when its instance index is
    [(int)instance_idx] and some selected volume with an object index below
    1000 has the same object index. Nothing else of a volume changes. *)
Theorem translate_instance_moves (object_idx' instance_idx' : Z) (displacement : Vec3d)
    (s : Selection) :
  m_valid s = true →
  volumes_fit s →
  (∀ i, i ∈ m_list s → (i < length (the_volumes s))%nat) →
  ∀ k v, the_volumes s !! k = Some v →
    let v' := the_volumes (translate_instance object_idx' instance_idx' displacement s) !! k in
    (k ∈ m_list s →
       v' = Some (if (object_idx v =? int_cast object_idx')
                     && (instance_idx v =? int_cast instance_idx')
                  then moved_by displacement v else v))
    ∧ (k ∉ m_list s →
       instance_idx v = int_cast instance_idx' →
       (∃ i u, i ∈ m_list s ∧ the_volumes s !! i = Some u
               ∧ object_idx u < 1000 ∧ object_idx v = object_idx u) →
       v' = Some (moved_by displacement v))
    ∧ (k ∉ m_list s →
       instance_idx v ≠ int_cast instance_idx'
       ∨ (∀ i u, i ∈ m_list s → the_volumes s !! i = Some u →
                 object_idx u < 1000 → object_idx v ≠ object_idx u) →
       v' = Some v).
Proof.
  intros Hvalid Hfit Hrange k v Hv. cbv zeta. unfold translate_instance.
  rewrite (translate_where_lookup _ _ displacement) with (v := v);
    [|first [done|by intros; unfold object_idx, instance_idx; congruence]..].
  split; [|split].
  - intros Hin. by rewrite decide_True.
  - intros Hin Hn (i & u & Hi & Hu & Hlt & Ho). rewrite decide_False by done.
    replace (followed _ _ _ _) with true; [done|]. symmetry. apply followed_spec.
    exists i, u. split; [by apply elem_of_m_list_order|]. split; [done|]. split; [done|].
    unfold follows_at. rewrite Hv. apply andb_true_iff. split; by apply Z.eqb_eq.
  - intros Hin Hno. rewrite decide_False by done.
    destruct (followed _ _ _ _) eqn:Ef; [|done]. exfalso.
    apply followed_spec in Ef as (i & u & Hi & Hu & Hlt & Hf).
    unfold follows_at in Hf. rewrite Hv in Hf.
    apply andb_true_iff in Hf as [Hf1%Z.eqb_eq Hf2%Z.eqb_eq].
    destruct Hno as [Hno|Hno]; [done|].
    apply (Hno i u); [by apply elem_of_m_list_order|done..].
Qed.

End ObjectTranslationProofs.

(** ** Restoring a record, adding and removing listed volumes *)

(** X19. In a valid state [set_deserialized] on a record sorted by the
    order of pairs leaves selected exactly the volumes whose geometry id is
    in the record, whatever was selected before. *)
Theorem set_deserialized_selects_recorded (mode : EMode)
    (volumes_and_instances : list (N * N)) (s : Selection) :
  m_valid s = true → volumes_fit s → StronglySorted pair_le volumes_and_instances →
  ∀ j, j ∈ m_list (set_deserialized mode volumes_and_instances s)
       ↔ ∃ v, the_volumes s !! j = Some v ∧ geometry_id v ∈ volumes_and_instances.
Proof.
  intros Hv Hfit Hsorted j. rewrite (set_deserialized_m_list mode _ s j Hv Hfit).
  by setoid_rewrite (binary_search_sorted pair_lt pair_lt_irrefl pair_lt_trans pair_lt_total
                       volumes_and_instances _ Hsorted).
Qed.

Lemma remove_listed_m_list (l : list nat) s j :
  volumes_fit s →
  j ∈ m_list
        (foldl (λ s i, if (i <? usize (the_volumes s))%nat then do_remove_volume i s else s)
           s l)
  ↔ j ∈ m_list s ∧ ¬ (j ∈ l ∧ (j < length (the_volumes s))%nat).
Proof.
  intros Hfit. revert s Hfit. induction l as [|i l IH]; intros s Hfit.
  - cbn [foldl]. rewrite elem_of_nil. tauto.
  - cbn [foldl]. rewrite (usize_fit _ Hfit).
    destruct (i <? length (the_volumes s))%nat eqn:E.
    + apply Nat.ltb_lt in E.
      assert (length (the_volumes (do_remove_volume i s)) = length (the_volumes s)) as Hlen.
      { rewrite <-!scene_length. by rewrite scene_do_remove_volume. }
      rewrite IH by (unfold volumes_fit; by rewrite Hlen).
      rewrite do_remove_volume_m_list, Hlen, elem_of_difference, elem_of_singleton,
        elem_of_cons.
      split.
      * intros [[? ?] ?]. split; [done|]. intros [[->|?] ?]; tauto.
      * intros [? Hn]. split; [split; [done|]|].
        -- intros ->. apply Hn. split; [by left|done].
        -- intros [? ?]. apply Hn. split; [by right|done].
    + apply Nat.ltb_ge in E. rewrite IH by done. rewrite elem_of_cons.
      split; intros [? Hn]; (split; [done|]).
      * intros [[->|?] ?]; [lia|tauto].
      * intros [? ?]. apply Hn. split; [by right|done].
Qed.

(** X20. In a valid state where the selected flags follow the index set,
    [add_volumes] leaves selected the listed indices that are inside the
    volume list, together with the volumes selected before when the call is
    not a single selection; a single selection needs a list without
    repetitions for this. [remove_volumes] leaves selected the volumes
    selected before that are not listed. Listed indices past the end of the
    volume list are skipped by both. *)
Theorem add_volumes_remove_volumes_select (mode : EMode) (volume_idxs : list nat)
    (as_single_selection : bool) (s : Selection) :
  m_valid s = true → selection_invariant s → volumes_fit s →
  (as_single_selection = true → NoDup volume_idxs) →
  Z.of_nat (length volume_idxs) < 2 ^ 32 →
  (∀ j, j ∈ m_list (add_volumes mode volume_idxs as_single_selection s)
        ↔ (as_single_selection = false ∧ j ∈ m_list s)
          ∨ (j ∈ volume_idxs ∧ (j < length (the_volumes s))%nat))
  ∧ (∀ j, j ∈ m_list (remove_volumes mode volume_idxs s)
          ↔ j ∈ m_list s ∧ ¬ (j ∈ volume_idxs ∧ (j < length (the_volumes s))%nat)).
Proof.
  intros Hv Hinv Hfit Hnd Hlen. split.
  - intros j. unfold add_volumes. rewrite Hv. cbn [negb].
    assert (Z.of_nat (size (m_list s)) < 2 ^ 32) as Hsize.
    { pose proof (invariant_size s Hinv). unfold volumes_fit in Hfit. lia. }
    destruct as_single_selection; cbn [negb andb orb].
    + specialize (Hnd eq_refl).
      destruct (matches volume_idxs s) eqn:Em.
      * apply (matches_spec _ _ Hnd Hlen Hsize) in Em. rewrite Em, elem_of_list_to_set.
        split.
        -- intros Hj. right. split; [done|]. apply (invariant_bounds s j Hinv).
           rewrite Em. by apply elem_of_list_to_set.
        -- intros [[? _]|[? _]]; done.
      * cbv zeta. proj_simpl. rewrite update_type_m_list, do_add_volumes_m_list.
        change (m_list (set_m_mode mode ?x)) with (m_list x).
        change (the_volumes (set_m_mode mode ?x)) with (the_volumes x).
        rewrite (clear_m_list s Hv).
        assert (usize (the_volumes (clear s)) = length (the_volumes s)) as ->.
        { unfold usize. rewrite <-scene_length, scene_clear, scene_length.
          apply (usize_fit _ Hfit). }
        split.
        -- intros [?|?]; [set_solver|by right].
        -- intros [[? _]|?]; [done|by right].
    + destruct (contains_all_volumes volume_idxs s) eqn:Ec; cbn [orb].
      * rewrite contains_all_volumes_spec in Ec. split; [intros ?; by left|].
        intros [[_ ?]|[? _]]; [done|by apply Ec].
      * cbv zeta. proj_simpl. rewrite update_type_m_list, do_add_volumes_m_list.
        change (m_list (set_m_mode mode ?x)) with (m_list x).
        change (the_volumes (set_m_mode mode ?x)) with (the_volumes x).
        rewrite (usize_fit _ Hfit). split.
        -- intros [?|?]; [by left|by right].
        -- intros [[_ ?]|?]; [by left|by right].
  - intros j. unfold remove_volumes. rewrite Hv. cbn [negb]. cbv zeta. proj_simpl.
    rewrite update_type_m_list.
    rewrite (remove_listed_m_list volume_idxs (set_m_mode mode s) j Hfit). done.
Qed.

(** ** [add] and the wipe tower *)

Lemma add_instance_m_list o n single s j :
  m_valid s = true → selection_invariant s → volumes_fit s →
  j ∈ m_list (add_instance o n single s)
  ↔ (single = false ∧ j ∈ m_list s)
    ∨ (λ v, (object_idx v =? int_cast o) && (instance_idx v =? int_cast n))
        <$> the_volumes s !! j = Some true.
Proof.
  intros Hv Hinv Hfit. unfold add_instance. rewrite Hv. cbn [negb].
  unfold get_volume_idxs_from_instance.
  apply (added_or_kept_m_list _ (take_snapshot "Selection-Add Instance") Instance
           single s j Hv Hinv Hfit eq_refl eq_refl eq_refl).
Qed.

(** X21. [add] keeps the wipe tower apart. In a valid state where the
    selected flags follow the index set, adding the wipe tower while the
    type is [WipeTower] changes nothing; adding the wipe tower to another
    selection, or a volume that is neither wipe tower nor modifier while
    the type is [WipeTower], drops what was selected, also when the call is
    not a single selection: the index set afterwards holds exactly the
    volumes of the object and instance of the added volume. *)
Theorem add_replaces_across_wipe_tower (i : nat)
    (as_single_selection check_for_already_contained : bool) (s : Selection) (v : GLVolume) :
  m_valid s = true → selection_invariant s → volumes_fit s →
  the_volumes s !! i = Some v →
  int_range (object_idx v) → int_range (instance_idx v) →
  (is_wipe_tower v = true → m_type s = WipeTower →
   add i as_single_selection check_for_already_contained s = s)
  ∧ (is_modifier v = false →
     (is_wipe_tower v = true ∧ m_type s ≠ WipeTower)
     ∨ (is_wipe_tower v = false ∧ m_type s = WipeTower) →
     ∀ j, j ∈ m_list (add i as_single_selection check_for_already_contained s)
          ↔ ∃ w, the_volumes s !! j = Some w
                 ∧ object_idx w = object_idx v ∧ instance_idx w = instance_idx v).
Proof.
  intros Hv Hinv Hfit Hi Hobj Hinst.
  assert ((usize (the_volumes s) <=? i)%nat = false) as Hin.
  { apply Nat.leb_gt. rewrite (usize_fit _ Hfit). by eapply lookup_lt_Some. }
  unfold add. rewrite Hv, Hin, Hi. cbn [negb orb]. split.
  - intros Hw Ht. unfold is_wipe_tower_selected.
    by rewrite bool_decide_eq_true_2, Hw by done.
  - intros Hmod Hcase j.
    assert (is_wipe_tower_selected s && is_wipe_tower v = false) as ->.
    { unfold is_wipe_tower_selected.
      destruct Hcase as [[-> Ht]|[-> _]]; [|apply andb_false_r].
      by rewrite bool_decide_eq_false_2 by done. }
    cbv zeta. rewrite Hmod.
    match goal with |- context [negb ?ac || ?r] => assert (r = true) as -> end.
    { unfold is_wipe_tower_selected.
      destruct Hcase as [[-> _]|[-> Ht]].
      - cbn [negb andb orb]. by rewrite orb_true_r.
      - rewrite bool_decide_eq_true_2 by done. cbn [negb andb orb].
        by rewrite orb_false_r, orb_true_r. }
    rewrite orb_true_r.
    set (s1 := take_snapshot "Selection-Add" s).
    set (s3 := if bool_decide (m_mode s = Instance) && negb as_single_selection
               then clear s1 else set_m_mode Instance (clear s1)).
    assert (m_valid s1 = true) as Hv1 by done.
    assert (inv_n (length (the_volumes s)) (clear s1)) as Hinv1.
    { apply inv_n_clear. by split. }
    assert (scene (clear s1) = scene s) as Hsc1 by (by rewrite scene_clear).
    assert (m_mode s3 = Instance ∧ m_list s3 = ∅ ∧ m_valid s3 = true
            ∧ inv_n (length (the_volumes s)) s3 ∧ scene s3 = scene s)
      as (Hmode & Hlist & Hvalid & Hinv3 & Hscene).
    { subst s3. destruct (bool_decide (m_mode s = Instance) && negb as_single_selection) eqn:Ek.
      - apply andb_true_iff in Ek as [Hm%bool_decide_eq_true _].
        split; [by apply clear_m_mode_Instance|].
        split; [by apply clear_m_list|]. split; [by rewrite m_valid_clear|done].
      - split; [done|].
        split; [change (m_list (set_m_mode Instance ?x)) with (m_list x); by apply clear_m_list|].
        split; [change (m_valid (set_m_mode Instance ?x)) with (m_valid x);
                by rewrite m_valid_clear|].
        split; [|done]. by eapply inv_n_same; [| |exact Hinv1]. }
    rewrite Hmode. proj_simpl. rewrite update_type_m_list.
    change (m_list (allow_snapshots ?x)) with (m_list x).
    rewrite (add_instance_m_list _ _ _ (suppress_snapshots s3) j);
      [|done|by destruct Hinv3|].
    2:{ unfold volumes_fit. change (the_volumes (suppress_snapshots s3)) with (the_volumes s3).
        destruct Hinv3 as [_ ->]. exact Hfit. }
    change (m_list (suppress_snapshots s3)) with (m_list s3).
    change (the_volumes (suppress_snapshots s3)) with (the_volumes s3).
    rewrite Hlist, (scene_lookup_test _ s s3 j (flag_blind_instance _ _) Hscene).
    rewrite !int_cast_unsigned_cast by done.
    rewrite test_some_true. setoid_rewrite andb_true_iff. setoid_rewrite Z.eqb_eq.
    split.
    + intros [[_ ?]|?]; [set_solver|done].
    + intros ?. by right.
Qed.

(** X22. [add] of a volume that is neither wipe tower nor modifier, in a
    valid state where the selected flags follow the index set and the type
    is neither [WipeTower] nor a modifier type. When the volume is already
    selected and the call checks for it, nothing changes. Otherwise the
    index set afterwards holds the volumes of the object and instance of
    the added volume, together with the volumes selected before when the
    call is not a single selection, and the mode is [Instance]. *)
Theorem add_selects_instance (i : nat)
    (as_single_selection check_for_already_contained : bool) (s : Selection) (v : GLVolume) :
  m_valid s = true → selection_invariant s → volumes_fit s →
  the_volumes s !! i = Some v →
  int_range (object_idx v) → int_range (instance_idx v) →
  is_wipe_tower v = false → is_modifier v = false →
  m_type s ≠ WipeTower → m_type s ≠ SingleModifier → m_type s ≠ MultipleModifier →
  (check_for_already_contained = true → i ∈ m_list s →
   add i as_single_selection check_for_already_contained s = s)
  ∧ (check_for_already_contained = false ∨ i ∉ m_list s →
     (∀ j, j ∈ m_list (add i as_single_selection check_for_already_contained s)
           ↔ (as_single_selection = false ∧ j ∈ m_list s)
             ∨ ∃ w, the_volumes s !! j = Some w
                    ∧ object_idx w = object_idx v ∧ instance_idx w = instance_idx v)
     ∧ m_mode (add i as_single_selection check_for_already_contained s) = Instance).
Proof.
  intros Hv Hinv Hfit Hi Hobj Hinst Hw Hmod Ht1 Ht2 Ht3.
  assert ((usize (the_volumes s) <=? i)%nat = false) as Hin.
  { apply Nat.leb_gt. rewrite (usize_fit _ Hfit). by eapply lookup_lt_Some. }
  unfold add. rewrite Hv, Hin, Hi, Hw, Hmod. cbn [negb orb].
  unfold is_any_modifier, is_single_modifier, is_multiple_modifier, is_wipe_tower_selected,
    contains_volume.
  rewrite (bool_decide_eq_false_2 (m_type s = WipeTower)),
    (bool_decide_eq_false_2 (m_type s = SingleModifier)),
    (bool_decide_eq_false_2 (m_type s = MultipleModifier)) by done.
  cbn [negb andb orb]. cbv zeta. rewrite !andb_false_r, !orb_false_r. split.
  - intros -> Hsel. rewrite bool_decide_eq_true_2 by done. cbn [negb andb orb].
    by rewrite andb_false_r.
  - intros Hnew.
    assert (check_for_already_contained && bool_decide (i ∈ m_list s) = false) as ->.
    { destruct Hnew as [->|Hnot]; [done|].
      rewrite bool_decide_eq_false_2 by done. apply andb_false_r. }
    cbn [negb orb]. rewrite andb_true_r.
    set (s1 := take_snapshot "Selection-Add" s).
    set (s2 := if as_single_selection then clear s1 else s1).
    set (s3 := if bool_decide (m_mode s = Instance) && negb as_single_selection
               then s2 else set_m_mode Instance s2).
    assert (inv_n (length (the_volumes s)) s2 ∧ scene s2 = scene s ∧ m_valid s2 = true
            ∧ m_list s2 = (if as_single_selection then ∅ else m_list s)
            ∧ (m_mode s = Instance → m_mode s2 = Instance))
      as (Hinv2 & Hsc2 & Hv2 & Hl2 & Hm2).
    { subst s2. destruct as_single_selection.
      - split; [apply inv_n_clear; by split|]. split; [by rewrite scene_clear|].
        split; [by rewrite m_valid_clear|]. split; [by apply clear_m_list|].
        intros Hm. by apply clear_m_mode_Instance.
      - split; [split; [exact Hinv|done]|]. split; [done|]. split; [done|]. by split. }
    assert (m_mode s3 = Instance ∧ m_list s3 = m_list s2 ∧ m_valid s3 = true
            ∧ inv_n (length (the_volumes s)) s3 ∧ scene s3 = scene s)
      as (Hmode & Hlist & Hvalid & Hinv3 & Hscene).
    { subst s3. destruct (bool_decide (m_mode s = Instance) && negb as_single_selection) eqn:Ek.
      - apply andb_true_iff in Ek as [Hm%bool_decide_eq_true _].
        split; [by apply Hm2|]. by repeat (split; [done|]).
      - split; [done|]. split; [done|]. split; [done|]. split; [|done].
        by eapply inv_n_same; [| |exact Hinv2]. }
    rewrite Hmode. proj_simpl. split.
    + intros j. rewrite update_type_m_list.
      change (m_list (allow_snapshots ?x)) with (m_list x).
      rewrite (add_instance_m_list _ _ _ (suppress_snapshots s3) j);
        [|done|by destruct Hinv3|].
      2:{ unfold volumes_fit.
          change (the_volumes (suppress_snapshots s3)) with (the_volumes s3).
          destruct Hinv3 as [_ ->]. exact Hfit. }
      change (m_list (suppress_snapshots s3)) with (m_list s3).
      change (the_volumes (suppress_snapshots s3)) with (the_volumes s3).
      rewrite Hlist, Hl2, (scene_lookup_test _ s s3 j (flag_blind_instance _ _) Hscene).
      rewrite !int_cast_unsigned_cast by done.
      rewrite test_some_true. setoid_rewrite andb_true_iff. setoid_rewrite Z.eqb_eq.
      destruct as_single_selection.
      * split; (intros [[? _]|?]; [done|by right]).
      * done.
    + apply update_type_m_mode_Instance.
      change (m_mode (allow_snapshots ?x)) with (m_mode x).
      unfold add_instance.
      change (m_valid (suppress_snapshots s3)) with (m_valid s3). rewrite Hvalid. cbn [negb].
      cbv zeta.
      match goal with |- context [if ?c then suppress_snapshots s3 else _] => destruct c end;
        [done|].
      proj_simpl. apply update_type_m_mode_Instance.
      apply (foldl_preserves (λ s', m_mode s' = Instance)); [|done].
      intros s' k _ Hs'. by destruct (k <? _)%nat.
Qed.

(** ** [remove_all] *)

(** X23. In a valid state [remove_all] changes nothing when the type is
    [Empty]. Otherwise the index set is empty afterwards, the mode is
    [Instance], one snapshot "Selection-Remove All" was requested,
    recording the selection as the call found it, and, when the selected
    flags followed the index set, no volume is flagged selected. *)
Theorem remove_all_empties (s : Selection) :
  m_valid s = true →
  (m_type s = Empty → remove_all s = s)
  ∧ (m_type s ≠ Empty →
     m_list (remove_all s) = ∅
     ∧ m_mode (remove_all s) = Instance
     ∧ snapshot_calls (app (remove_all s))
       = snapshot_calls (app s)
         ++ [mkSnapshotCall "Selection-Remove All"
               (bool_decide (prevent_snapshots (app s) ≠ 0%nat)) (m_mode s) (m_list s)]
     ∧ (selection_invariant s →
        ∀ j v, the_volumes (remove_all s) !! j = Some v → selected v = false)).
Proof.
  intros Hv. unfold remove_all, is_empty. rewrite Hv. cbn [negb]. split.
  - intros Ht. by rewrite bool_decide_eq_true_2.
  - intros Ht. rewrite bool_decide_eq_false_2 by done.
    set (s1 := set_m_mode Instance (take_snapshot "Selection-Remove All" s)).
    assert (m_list (clear s1) = ∅) as Hl by (by apply clear_m_list).
    split; [done|]. split; [by apply clear_m_mode_Instance|].
    split; [by rewrite calls_clear|].
    intros Hinv j v Hj.
    assert (inv_n (length (the_volumes s)) (clear s1)) as [Hinv1 _].
    { apply inv_n_clear. by split. }
    destruct (selected v) eqn:Es; [|done]. exfalso.
    assert (j ∈ m_list (clear s1)) as Hin.
    { apply Hinv1. rewrite list_lookup_fmap, Hj. cbn [fmap option_fmap option_map]. by rewrite Es. }
    rewrite Hl in Hin. by apply not_elem_of_empty in Hin.
Qed.

Import Example ExampleGeometry.

(** * The statements on concrete platers *)

(** Equality and membership on index sets, decided by computation. *)
Ltac by_computation := apply (bool_decide_unpack _); vm_compute; exact I.

Lemma bound_invariant : selection_invariant bound.
Proof.
  intros i. change (m_list bound) with (∅ : gset nat).
  change (selected <$> the_volumes bound) with [false; false; false; false; false].
  split; [set_solver|].
  do 5 (destruct i as [|i]; [discriminate|]). discriminate.
Qed.

(** C1 on the plater: a run of six calls from the bound selection. *)
Lemma selection_invariant_preserved_witness :
  selection_invariant
    (run_calls
       [CallAddObject 0 true; CallRemoveInstance 0 1; CallAddVolumes Volume [3%nat] false;
        CallAddAll; CallRemove 2; CallClear]
       bound).
Proof. apply selection_invariant_preserved. exact bound_invariant. Defined.

(** C3 on the plater: [add_instance] records the selection it found. *)
Lemma snapshot_precedes_membership_change_witness :
  snapshot_first bound (run_call (CallAddInstance 0 1 true) bound).
Proof.
  apply (snapshot_precedes_membership_change (CallAddInstance 0 1 true) bound).
  apply (bool_decide_eq_false_1 _). vm_compute. reflexivity.
Defined.

(** C3: [add_volume] changes the selection and requests no snapshot. *)
Lemma add_volume_requests_no_snapshot :
  m_list (add_volume 0 0 1 true bound) ≠ m_list bound
  ∧ snapshot_calls (app (add_volume 0 0 1 true bound)) = snapshot_calls (app bound).
Proof.
  split.
  - apply (bool_decide_eq_false_1 _). vm_compute. reflexivity.
  - vm_compute. reflexivity.
Qed.


(** C5 on the selection as constructed, bound to nothing. *)
Lemma guarded_operations_noop_when_invalid_witness :
  let s := Selection_new services in
  (∀ c, run_call c s = s)
  ∧ start_dragging s = s
  ∧ (∀ d l, translate false d l s = Done s)
  ∧ (∀ r tt, rotate false r tt s = Done s)
  ∧ (∀ f tt, scale false f tt s = Done s)
  ∧ (∀ axis, mirror false axis s = Done s)
  ∧ (∀ ids, instances_changed false ids s = AssertionFailed)
  ∧ (∀ map, volumes_changed false map s = AssertionFailed).
Proof. apply (guarded_operations_noop_when_invalid false (Selection_new services)). reflexivity. Defined.

(** C5: on a state that is bound to a volume list and to no model,
    [instances_changed] is a no-op in neither build: with assertions it
    fails the assertion, and without them it rebuilds the selection. *)
Lemma instances_changed_rebuilds_unbound_selection :
  m_valid half_bound = false
  ∧ m_list half_bound = ∅
  ∧ instances_changed false [12%N] half_bound = AssertionFailed
  ∧ ∃ s', instances_changed true [12%N] half_bound = Done s'
          ∧ m_list s' = {[1%nat]}
          ∧ selected <$> the_volumes s' = [false; true; false; false; false].
Proof.
  split; [reflexivity|]. split; [by_computation|]. split; [reflexivity|].
  eexists. split; [vm_compute; reflexivity|].
  split; [by_computation | vm_compute; reflexivity].
Qed.

(** C10 on the plater with nothing selected. *)
Lemma add_all_selects_all_but_wipe_tower_witness :
  (∀ i, i ∈ m_list (add_all bound)
        ↔ ∃ v, the_volumes bound !! i = Some v ∧ is_wipe_tower v = false)
  ∧ m_mode (add_all bound) = Instance
  ∧ snapshot_calls (app (add_all bound))
    = snapshot_calls (app bound)
      ++ [mkSnapshotCall "Selection-Add All"
            (bool_decide (prevent_snapshots (app bound) ≠ 0%nat)) (m_mode bound)
            (m_list bound)].
Proof.
  refine (add_all_selects_all_but_wipe_tower bound _ _).
  - reflexivity.
  - unfold volumes_fit. vm_compute. reflexivity.
Defined.

(** C10: with only the wipe tower selected on a plater that has one
    other volume, [add_all] returns at once and the wipe tower stays
    selected. *)
Lemma add_all_keeps_selected_wipe_tower :
  m_valid tower_selected = true
  ∧ add_all tower_selected = tower_selected
  ∧ m_list (add_all tower_selected) = {[1%nat]}
  ∧ is_wipe_tower <$> the_volumes tower_selected = [false; true].
Proof.
  split; [reflexivity|]. split; [vm_compute; reflexivity|].
  split; [by_computation | reflexivity].
Qed.

Lemma bound_geometry_ids : geometry_ids_name_objects bound.
Proof.
  intros i j vi vj. change (the_volumes bound) with plater.
  intros Hi Hj.
  do 5 (destruct i as [|i];
        [do 5 (destruct j as [|j];
               [injection Hi as <-; injection Hj as <-; vm_compute; congruence|]);
         done|]).
  done.
Qed.

(** C6 on the plater, for its first object. *)
Lemma add_object_record_clear_restore_witness :
  let s1 := add_object 0 true bound in
  let record := selection_record s1 in
  let s3 := set_deserialized record.1 record.2 (clear s1) in
  m_list s3 = m_list s1 ∧ selected <$> the_volumes s3 = selected <$> the_volumes s1.
Proof.
  apply (add_object_record_clear_restore 0 bound).
  - reflexivity.
  - exact bound_invariant.
  - unfold volumes_fit. vm_compute. reflexivity.
  - exact bound_geometry_ids.
Defined.

(** C8 on an instance that is not rotated, in a build with assertions. *)
Lemma scale_world_absolute_non_uniform_witness :
  let factors := mkVec3d 2 1 1 in
  let s := one_instance_dragged in
  (∀ s', scale false factors world_absolute_joint s = Done s' →
         ∀ i v, i ∈ m_list s → the_volumes s !! i = Some v →
                (false = false
                 → is_rotation_ninety_degrees (get_instance_rotation v) = true)
                ∧ ∃ v', the_volumes s' !! i = Some v'
                        ∧ get_instance_scaling_factor v'
                          = store3 store_scaling_factor (get_instance_scaling_factor v)
                              (world_scaling_factor factors v))
  ∧ (false = false →
     (∃ i v, i ∈ m_list s ∧ the_volumes s !! i = Some v
             ∧ is_rotation_ninety_degrees (get_instance_rotation v) = false) →
     scale false factors world_absolute_joint s = AssertionFailed)
  ∧ (false = true → ∃ s', scale false factors world_absolute_joint s = Done s').
Proof.
  refine (scale_world_absolute_non_uniform false (mkVec3d 2 1 1) world_absolute_joint
            one_instance_dragged _ _ _ _ _).
  - reflexivity.
  - vm_compute. reflexivity.
  - reflexivity.
  - reflexivity.
  - vm_compute. reflexivity.
Defined.

(** [scale] in a build with assertions, on an instance turned by half a
    radian: the assertion fails. *)
Lemma scale_turned_instance_fails_assertion :
  is_single_full_instance turned_instance = true
  ∧ get_instance_rotation <$> the_volumes turned_instance = [mkVec3d 0 0 0.5]
  ∧ is_rotation_ninety_degrees (mkVec3d 0 0 0.5) = false
  ∧ scale false (mkVec3d 2 1 1) world_absolute_joint turned_instance = AssertionFailed.
Proof. repeat split; vm_compute; reflexivity. Qed.



(** C7: in double precision, a part whose lowest point is a tenth above
    its origin, lifted by two tenths, is measured at three tenths and a
    rounding error more; lowered by that, it is measured a rounding error
    below the bed, not at 0 (the hull box being the hull moved by the
    offsets). *)
Lemma ensure_on_bed_leaves_rounding_residue :
  instance_min_z (the_volumes lifted) 0 0 = Some 0x1.3333333333334p-2%float
  ∧ instance_min_z (the_volumes (ensure_on_bed lifted)) 0 0 = Some (-0x1p-55)%float
  ∧ (-0x1p-55 =? 0)%float = false.
Proof. repeat split; vm_compute; reflexivity. Qed.

(** C7 on an instance of two parts whose numbers are dyadic: the
    arithmetic is exact and the instance rests on the bed. *)
Lemma ensure_on_bed_rests_on_bed_witness :
  let m := 0.75%float in
  (∀ k v, the_volumes raised !! k = Some v → object_idx v = 0 → instance_idx v = 0 →
          the_volumes (ensure_on_bed raised) !! k = Some (lowered m v))
  ∧ instance_min_z (the_volumes (ensure_on_bed raised)) 0 0 = Some 0%float.
Proof.
  destruct (ensure_on_bed_rests_on_bed raised 0 0 0.75%float) as [Hlowered Hrests];
    [vm_compute; reflexivity|].
  split; [exact Hlowered|]. apply Hrests; [|vm_compute; reflexivity].
  intros v Hv _. change (the_volumes raised) with raised_plater in Hv.
  unfold raised_plater in Hv.
  apply elem_of_cons in Hv as [->|Hv];
    [|apply elem_of_cons in Hv as [->|Hv]; [|by apply elem_of_nil in Hv]];
    (split; [vm_compute; reflexivity|]); (split; [vm_compute; reflexivity|]).
  - left. vm_compute. reflexivity.
  - right. vm_compute. reflexivity.
Defined.

(** C9 on the state after the box of one selected instance was asked
    for. *)
Lemma clear_idempotent_and_empties_bounding_box_witness :
  let s := (get_bounding_box one_instance).2 in
  clear (clear s) = clear s
  ∧ (m_valid s = true → (get_bounding_box (clear s)).1 = BoundingBoxf3_default)
  ∧ (m_valid s = false → clear s = s).
Proof.
  apply (clear_idempotent_and_empties_bounding_box false services
           [RequestSetVolumes (Some plater); RequestSetModel (Some plater_model);
            RequestCall (CallAdd 0 true true); RequestGetBoundingBox]).
  vm_compute. reflexivity.
Defined.

(** C9: after a volume was selected and the bounding box asked for, the
    model is unbound. [clear] then changes nothing, the volume stays
    selected, and [get_bounding_box] returns the box cached before, not the
    default box. *)
Lemma clear_keeps_stale_bounding_box :
  let s := set_model None (get_bounding_box one_instance).2 in
  run_requests false
    [RequestSetVolumes (Some plater); RequestSetModel (Some plater_model);
     RequestCall (CallAdd 0 true true); RequestGetBoundingBox; RequestSetModel None]
    (Selection_new services)
  = Done s
  ∧ m_valid s = false
  ∧ clear s = s
  ∧ m_list (clear s) = {[0%nat]}
  ∧ (get_bounding_box (clear s)).1 = mkBB true (mkVec3d 0 0 0) (mkVec3d 1 1 1)
  ∧ (get_bounding_box (clear s)).1 ≠ BoundingBoxf3_default.
Proof.
  cbv zeta. split; [vm_compute; reflexivity|]. split; [reflexivity|].
  split; [reflexivity|]. split; [by_computation|]. split; [vm_compute; reflexivity|].
  vm_compute. discriminate.
Qed.

(** * The further properties on concrete platers *)

(** A property of every selected index, decided by computation. *)
Ltac for_each_selected :=
  match goal with
  | |- ∀ i, i ∈ ?X → @?P i => change (set_Forall P X); by_computation
  end.

(** X2 on two selected instances, listed in the other order. *)
Lemma matches_exact_selection_witness :
  matches [1%nat; 0%nat] two_instances_dragged = true
  ↔ ∀ i, i ∈ m_list two_instances_dragged ↔ i ∈ [1%nat; 0%nat].
Proof.
  apply matches_exact_selection.
  - by_computation.
  - vm_compute. reflexivity.
  - vm_compute. reflexivity.
Defined.

(** X3 on two selected instances and a list that names a third volume. *)
Lemma missing_and_unselected_decide_matches_witness :
  let volume_idxs := [0%nat; 1%nat; 3%nat] in
  let s := two_instances_dragged in
  (contains_all_volumes volume_idxs s = true
   ↔ get_unselected_volume_idxs_from volume_idxs s = [])
  ∧ (matches volume_idxs s = true
     ↔ get_missing_volume_idxs_from volume_idxs s = []
       ∧ get_unselected_volume_idxs_from volume_idxs s = []).
Proof.
  apply (missing_and_unselected_decide_matches [0%nat; 1%nat; 3%nat] two_instances_dragged).
  - by_computation.
  - vm_compute. reflexivity.
  - vm_compute. reflexivity.
Defined.

(** X4 on the plater: the second instance of the first object is added to
    a selection of nothing. *)
Lemma add_object_add_instance_select_witness :
  (∀ j, j ∈ m_list (add_object 0 false bound)
        ↔ (false = false ∧ j ∈ m_list bound)
          ∨ ∃ v, the_volumes bound !! j = Some v ∧ object_idx v = int_cast 0)
  ∧ (∀ j, j ∈ m_list (add_instance 0 1 false bound)
          ↔ (false = false ∧ j ∈ m_list bound)
            ∨ ∃ v, the_volumes bound !! j = Some v
                   ∧ object_idx v = int_cast 0
                   ∧ instance_idx v = int_cast 1).
Proof.
  apply (add_object_add_instance_select 0 1 false bound).
  - reflexivity.
  - exact bound_invariant.
  - unfold volumes_fit. vm_compute. reflexivity.
Defined.

(** X6 on two selected instances of the first object. *)
Lemma remove_object_instance_volume_deselect_witness :
  let s := two_instances_dragged in
  (∀ j, j ∈ m_list (remove_object 0 s)
        ↔ j ∈ m_list s
          ∧ ¬ ∃ v, the_volumes s !! j = Some v ∧ object_idx v = int_cast 0)
  ∧ (∀ j, j ∈ m_list (remove_instance 0 1 s)
          ↔ j ∈ m_list s
            ∧ ¬ ∃ v, the_volumes s !! j = Some v
                     ∧ object_idx v = int_cast 0
                     ∧ instance_idx v = int_cast 1)
  ∧ (∀ j, j ∈ m_list (remove_volume 0 0 s)
          ↔ j ∈ m_list s
            ∧ ¬ ∃ v, the_volumes s !! j = Some v
                     ∧ object_idx v = int_cast 0
                     ∧ volume_idx v = int_cast 0).
Proof.
  apply (remove_object_instance_volume_deselect 0 1 0 two_instances_dragged).
  - reflexivity.
  - unfold volumes_fit. vm_compute. reflexivity.
Defined.

(** X7 on two selected instances: the second is removed. *)
Lemma remove_deselects_by_mode_witness :
  let s := two_instances_dragged in
  ((1%nat ∉ m_list s ∨ (length (the_volumes s) ≤ 1)%nat) → remove 1 s = s)
  ∧ ∀ v, the_volumes s !! 1%nat = Some v → 1%nat ∈ m_list s →
         int_range (object_idx v) → int_range (instance_idx v) →
         ∀ j, j ∈ m_list (remove 1 s)
              ↔ j ∈ m_list s
                ∧ match m_mode s with
                  | Volume => j ≠ 1%nat
                  | Instance =>
                      ¬ ∃ w, the_volumes s !! j = Some w
                             ∧ object_idx w = object_idx v
                             ∧ instance_idx w = instance_idx v
                  end.
Proof.
  apply (remove_deselects_by_mode 1 two_instances_dragged).
  - reflexivity.
  - unfold volumes_fit. vm_compute. reflexivity.
Defined.

(** X8 on the plater: the part of the second instance is selected alone. *)
Lemma add_volume_selects_part_witness :
  int_range 1
  ∧ ∀ j, j ∈ m_list (add_volume 0 0 1 true bound)
         ↔ (true = false ∧ j ∈ m_list bound)
           ∨ (1 ≠ -1
              ∧ ∃ v, the_volumes bound !! j = Some v
                     ∧ object_idx v = int_cast 0
                     ∧ volume_idx v = int_cast 0
                     ∧ instance_idx v = 1).
Proof.
  assert (int_range 1) as Hrange by (unfold int_range; split; [discriminate|reflexivity]).
  split; [exact Hrange|].
  apply (add_volume_selects_part 0 0 1 true bound).
  - reflexivity.
  - exact bound_invariant.
  - unfold volumes_fit. vm_compute. reflexivity.
  - exact Hrange.
Defined.

(** X9 on two selected instances of the first object. *)
Lemma update_type_content_map_witness :
  let s := two_instances_dragged in
  (∀ o I, content (m_cache (update_type s)) !! o = Some I
          ↔ I ≠ ∅
            ∧ ∀ n, n ∈ I ↔ ∃ i v, i ∈ m_list s ∧ the_volumes s !! i = Some v
                                  ∧ object_idx v = o ∧ instance_idx v = n)
  ∧ (∀ o, m_list s ≠ ∅ →
          (∀ i v, i ∈ m_list s → the_volumes s !! i = Some v → object_idx v = o) →
          get_object_idx (update_type s) = o)
  ∧ (∀ o n, m_list s ≠ ∅ →
            (∀ i v, i ∈ m_list s → the_volumes s !! i = Some v
                    → object_idx v = o ∧ instance_idx v = n) →
            get_instance_idx (update_type s) = n)
  ∧ (m_list s = ∅ →
     get_object_idx (update_type s) = -1 ∧ get_instance_idx (update_type s) = -1)
  ∧ (∀ i j v w, i ∈ m_list s → j ∈ m_list s →
                the_volumes s !! i = Some v → the_volumes s !! j = Some w →
                (object_idx v ≠ object_idx w →
                 get_object_idx (update_type s) = -1 ∧ get_instance_idx (update_type s) = -1)
                ∧ (instance_idx v ≠ instance_idx w → get_instance_idx (update_type s) = -1)).
Proof.
  apply (update_type_content_map two_instances_dragged). for_each_selected.
Defined.

(** X11 on the plater, in a build with assertions: the second and third
    instance of the first object are named. *)
Lemma instances_changed_selects_listed_witness :
  let ids := [12%N; 13%N] in
  (∀ s', instances_changed false ids bound = Done s' →
     (∀ j, j ∈ m_list s' ↔ ∃ v, the_volumes bound !! j = Some v ∧ (geometry_id v).2 ∈ ids)
     ∧ (∀ j v, the_volumes bound !! j = Some v →
               selected <$> the_volumes s' !! j
               = Some (selected v || bool_decide (j ∈ m_list s')))
     ∧ (false = false → m_valid bound = true ∧ m_mode bound = Instance)
     ∧ is_Some (m_volumes bound))
  ∧ (false = true ∨ (m_valid bound = true ∧ m_mode bound = Instance) →
     (is_Some (m_volumes bound) → ∃ s', instances_changed false ids bound = Done s')
     ∧ (m_volumes bound = None → instances_changed false ids bound = NullDereference)).
Proof.
  apply (instances_changed_selects_listed false [12%N; 13%N] bound).
  - unfold volumes_fit. vm_compute. reflexivity.
  - by_computation.
Defined.


(** X13 on two of the three instances of an object, moved by a
    displacement in the plane. *)
Lemma translate_whole_instances_witness :
  let displacement := mkVec3d 3 4 0 in
  let s := two_instances_dragged in
  (∀ s', translate true displacement false s = Done s' →
     (∀ i v, i ∈ m_list s → the_volumes s !! i = Some v →
        the_volumes s' !! i
        = Some (set_instance_transformation
                  (moved_from_cache displacement (cache_at i s) (instance_transformation v))
                  v))
     ∧ (∀ j w, j ∉ m_list s → the_volumes s !! j = Some w →
          ∃ w', the_volumes s' !! j = Some w'
                ∧ get_instance_offset w' = get_instance_offset w
                ∧ get_instance_rotation w' = get_instance_rotation w
                ∧ volume_transformation w' = volume_transformation w))
  ∧ (true = true → ∃ s', translate true displacement false s = Done s').
Proof.
  apply (translate_whole_instances true (mkVec3d 3 4 0) false two_instances_dragged).
  - reflexivity.
  - reflexivity.
  - intros i v Hi Hv.
    assert (set_Forall
              (λ i, is_wipe_tower <$> the_volumes two_instances_dragged !! i = Some false
                    ∧ is_from_fully_selected_instance i two_instances_dragged = true)
              (m_list two_instances_dragged)) as Hall by by_computation.
    specialize (Hall i Hi). cbv beta in Hall. rewrite Hv in Hall.
    destruct Hall as [Hw Hfull]. split; [|exact Hfull]. by injection Hw.
Defined.

(** X14 on the first instance of the plater, selected. *)
Lemma start_dragging_caches_all_volumes_witness :
  let s := add_instance 0 0 true bound in
  the_volumes (start_dragging s) = the_volumes s
  ∧ m_list (start_dragging s) = m_list s
  ∧ (∀ i, volumes_data (m_cache (start_dragging s)) !! i
          = (λ v, mkVolumeCache (volume_transformation v) (instance_transformation v))
              <$> the_volumes s !! i)
  ∧ dragging_center (m_cache (start_dragging s)) = bb_center (get_bounding_box s).1
  ∧ m_bounding_box_dirty (start_dragging s) = false.
Proof.
  apply (start_dragging_caches_all_volumes (add_instance 0 0 true bound)).
  - reflexivity.
  - unfold volumes_fit. vm_compute. reflexivity.
Defined.

(** X15 on the first instance of the plater, mirrored along X. *)
Lemma mirror_single_full_instance_witness :
  let s := one_instance_dragged in
  (∀ s', mirror true X s = Done s' →
     (∀ i v, i ∈ m_list s → the_volumes s !! i = Some v →
        ∃ v', the_volumes s' !! i = Some v'
              ∧ instance_transformation v'
                = Transformation_set_mirror_axis X
                    (- vec_get (get_instance_mirror v) X)%float (instance_transformation v))
     ∧ (∀ j w, j ∉ m_list s → the_volumes s !! j = Some w →
          ∃ w', the_volumes s' !! j = Some w'
                ∧ get_instance_offset w' = get_instance_offset w
                ∧ get_instance_rotation w' = get_instance_rotation w))
  ∧ (true = true → ∃ s', mirror true X s = Done s').
Proof.
  apply (mirror_single_full_instance true X one_instance_dragged).
  - reflexivity.
  - vm_compute. reflexivity.
Defined.

(** X16 on the plater with the first instance selected: its part has a
    copy in each of the two other instances. *)
Lemma synchronize_unselected_volumes_copies_witness :
  let s := one_instance in
  volumes_fit s
  ∧ the_volumes (synchronize_unselected_volumes s)
    = foldl (λ vols i, sync_pass i vols) (the_volumes s) (m_list_order s)
  ∧ ∀ k v, the_volumes s !! k = Some v →
      (∃ T, the_volumes (synchronize_unselected_volumes s) !! k
            = Some (set_volume_transformation T v))
      ∧ (∀ i u, i ∈ m_list s → i ≠ k → the_volumes s !! i = Some u → same_part u v →
                (∀ i' u', i' ∈ m_list s → i' ≠ i → the_volumes s !! i' = Some u' →
                          ¬ same_part u' u) →
                the_volumes (synchronize_unselected_volumes s) !! k
                = Some (set_volume_transformation
                          (copied_volume_transformation (volume_transformation u)
                             (volume_transformation v)) v))
      ∧ ((∀ i u, i ∈ m_list s → i ≠ k → the_volumes s !! i = Some u → ¬ same_part u v) →
         the_volumes (synchronize_unselected_volumes s) !! k = Some v).
Proof.
  assert (volumes_fit one_instance) as Hfit by (unfold volumes_fit; vm_compute; reflexivity).
  split; [exact Hfit|].
  apply (synchronize_unselected_volumes_copies one_instance Hfit).
Defined.

(** Two selected copies of one part: the pass for the first gives its
    volume offset to the two others, the second selected copy included, and
    the pass for the second hands the same offset on. *)
Lemma synchronize_unselected_volumes_first_copy_wins :
  m_list two_copies = {[0%nat; 1%nat]}
  ∧ get_volume_offset <$> the_volumes two_copies
    = [mkVec3d 1 0 0; mkVec3d 2 0 0; mkVec3d 3 0 0]
  ∧ get_volume_offset <$> the_volumes (synchronize_unselected_volumes two_copies)
    = [mkVec3d 1 0 0; mkVec3d 1 0 0; mkVec3d 1 0 0].
Proof.
  split; [by_computation|]. split; vm_compute; reflexivity.
Qed.

(** X17 on the plater with the first instance selected: the first object
    is moved. *)
Lemma translate_object_moves_witness :
  let displacement := mkVec3d 3 4 0 in
  let s := one_instance in
  m_valid s = true
  ∧ ∀ k v, the_volumes s !! k = Some v →
      let v' := the_volumes (translate_object 0 displacement s) !! k in
      (k ∈ m_list s →
         v' = Some (if object_idx v =? int_cast 0 then moved_by displacement v else v))
      ∧ (k ∉ m_list s →
         (∃ i u, i ∈ m_list s ∧ the_volumes s !! i = Some u
                 ∧ object_idx u < 1000 ∧ object_idx v = object_idx u) →
         v' = Some (moved_by displacement v))
      ∧ (k ∉ m_list s →
         (∀ i u, i ∈ m_list s → the_volumes s !! i = Some u →
                 object_idx u < 1000 → object_idx v ≠ object_idx u) →
         v' = Some v).
Proof.
  split; [reflexivity|].
  apply (translate_object_moves 0 (mkVec3d 3 4 0) one_instance).
  - reflexivity.
  - unfold volumes_fit. vm_compute. reflexivity.
  - for_each_selected.
Defined.

(** X18 on the plater with the first instance selected: the second
    instance of the first object is moved. *)
Lemma translate_instance_moves_witness :
  let displacement := mkVec3d 3 4 0 in
  let s := one_instance in
  m_valid s = true
  ∧ ∀ k v, the_volumes s !! k = Some v →
      let v' := the_volumes (translate_instance 0 1 displacement s) !! k in
      (k ∈ m_list s →
         v' = Some (if (object_idx v =? int_cast 0) && (instance_idx v =? int_cast 1)
                    then moved_by displacement v else v))
      ∧ (k ∉ m_list s →
         instance_idx v = int_cast 1 →
         (∃ i u, i ∈ m_list s ∧ the_volumes s !! i = Some u
                 ∧ object_idx u < 1000 ∧ object_idx v = object_idx u) →
         v' = Some (moved_by displacement v))
      ∧ (k ∉ m_list s →
         instance_idx v ≠ int_cast 1
         ∨ (∀ i u, i ∈ m_list s → the_volumes s !! i = Some u →
                   object_idx u < 1000 → object_idx v ≠ object_idx u) →
         v' = Some v).
Proof.
  split; [reflexivity|].
  apply (translate_instance_moves 0 1 (mkVec3d 3 4 0) one_instance).
  - reflexivity.
  - unfold volumes_fit. vm_compute. reflexivity.
  - for_each_selected.
Defined.

(** X19 on the plater: the record of the first two instances of the first
    object is restored. *)
Lemma set_deserialized_selects_recorded_witness :
  let ids := [(1, 11)%N; (1, 12)%N] in
  m_valid bound = true
  ∧ ∀ j, j ∈ m_list (set_deserialized Instance ids bound)
         ↔ ∃ v, the_volumes bound !! j = Some v ∧ geometry_id v ∈ ids.
Proof.
  split; [reflexivity|].
  apply (set_deserialized_selects_recorded Instance [(1, 11)%N; (1, 12)%N] bound).
  - reflexivity.
  - unfold volumes_fit. vm_compute. reflexivity.
  - by_computation.
Defined.

(** X20 on the plater: two volumes and an index past the end are listed. *)
Lemma add_volumes_remove_volumes_select_witness :
  let volume_idxs := [1%nat; 3%nat; 7%nat] in
  (∀ j, j ∈ m_list (add_volumes Volume volume_idxs true bound)
        ↔ (true = false ∧ j ∈ m_list bound)
          ∨ (j ∈ volume_idxs ∧ (j < length (the_volumes bound))%nat))
  ∧ (∀ j, j ∈ m_list (remove_volumes Volume volume_idxs bound)
          ↔ j ∈ m_list bound ∧ ¬ (j ∈ volume_idxs ∧ (j < length (the_volumes bound))%nat)).
Proof.
  apply (add_volumes_remove_volumes_select Volume [1%nat; 3%nat; 7%nat] true bound).
  - reflexivity.
  - exact bound_invariant.
  - unfold volumes_fit. vm_compute. reflexivity.
  - intros _. by_computation.
  - vm_compute. reflexivity.
Defined.

(** X21 on the plater with nothing selected: the wipe tower is added. *)
Lemma add_replaces_across_wipe_tower_witness :
  let v := part 1000 0 0 (0, 0)%N false true Vec3d_Zero (mkVec3d 50 50 0) in
  (is_wipe_tower v = true → m_type bound = WipeTower → add 4 false true bound = bound)
  ∧ (is_modifier v = false →
     (is_wipe_tower v = true ∧ m_type bound ≠ WipeTower)
     ∨ (is_wipe_tower v = false ∧ m_type bound = WipeTower) →
     ∀ j, j ∈ m_list (add 4 false true bound)
          ↔ ∃ w, the_volumes bound !! j = Some w
                 ∧ object_idx w = object_idx v ∧ instance_idx w = instance_idx v).
Proof.
  apply (add_replaces_across_wipe_tower 4 false true bound
           (part 1000 0 0 (0, 0)%N false true Vec3d_Zero (mkVec3d 50 50 0))).
  - reflexivity.
  - exact bound_invariant.
  - unfold volumes_fit. vm_compute. reflexivity.
  - reflexivity.
  - unfold int_range. vm_compute. split; [discriminate|reflexivity].
  - unfold int_range. vm_compute. split; [discriminate|reflexivity].
Defined.

(** X22 on the plater with nothing selected: the part of the second
    instance of the first object is added. *)
Lemma add_selects_instance_witness :
  let v := part 0 0 1 (1, 12)%N false false Vec3d_Zero (mkVec3d 10 0 0) in
  (true = true → 1%nat ∈ m_list bound → add 1 false true bound = bound)
  ∧ (true = false ∨ 1%nat ∉ m_list bound →
     (∀ j, j ∈ m_list (add 1 false true bound)
           ↔ (false = false ∧ j ∈ m_list bound)
             ∨ ∃ w, the_volumes bound !! j = Some w
                    ∧ object_idx w = object_idx v ∧ instance_idx w = instance_idx v)
     ∧ m_mode (add 1 false true bound) = Instance).
Proof.
  apply (add_selects_instance 1 false true bound
           (part 0 0 1 (1, 12)%N false false Vec3d_Zero (mkVec3d 10 0 0))).
  - reflexivity.
  - exact bound_invariant.
  - unfold volumes_fit. vm_compute. reflexivity.
  - reflexivity.
  - unfold int_range. vm_compute. split; [discriminate|reflexivity].
  - unfold int_range. vm_compute. split; [discriminate|reflexivity].
  - reflexivity.
  - reflexivity.
  - vm_compute. discriminate.
  - vm_compute. discriminate.
  - vm_compute. discriminate.
Defined.

(** X23 on the plater with the first instance selected. *)
Lemma remove_all_empties_witness :
  let s := one_instance in
  (m_type s = Empty → remove_all s = s)
  ∧ (m_type s ≠ Empty →
     m_list (remove_all s) = ∅
     ∧ m_mode (remove_all s) = Instance
     ∧ snapshot_calls (app (remove_all s))
       = snapshot_calls (app s)
         ++ [mkSnapshotCall "Selection-Remove All"
               (bool_decide (prevent_snapshots (app s) ≠ 0%nat)) (m_mode s) (m_list s)]
     ∧ (selection_invariant s →
        ∀ j v, the_volumes (remove_all s) !! j = Some v → selected v = false)).
Proof. apply (remove_all_empties one_instance). vm_compute. reflexivity. Defined.
